(** * Argos tracker: the event pipeline

    A shallow embedding of the tracker's pipeline (reporter.ts, storage.ts,
    collector.ts, tracker.ts, constants.ts, types.ts, utils.ts) and the
    properties of its delivery, buffering and dedup behaviour.

    Conventions of the embedding.
    - A JavaScript object used as a record of named fields is a
      [gmap string JsValue]; [Object.assign] and object spread are the
      left-biased union with the later source on the left.
    - An optional field ([f?: T]) is an [option]; [a || b] on such a field is
      written out with the JavaScript notion of a falsy value ([undefined],
      [0], the empty string).
    - JSON text is represented by the value it denotes, a [Json] tree, which
      has neither [undefined] nor a BigInt in it. [JSON.stringify] leaves out
      what is [undefined] and throws on a BigInt, which stands here for every
      value it throws on (a cyclic object is another); [safeStringify] then
      returns the text ['{}'], which denotes the empty object. Numbers are
      integers.
    - An [async] function is its synchronous prefix followed by a
      continuation that runs when the awaited promise settles; the settled
      value is supplied by the environment as part of a step label. *)

From stdpp Require Import gmap strings list fin_maps.
From Stdlib Require Import ZArith Ascii.

Open Scope string_scope.
Open Scope Z_scope.
Open Scope list_scope.

(** ** JavaScript values and falsy tests *)

#[warnings="-register-all"]
Inductive JsValue : Type :=
| JUndefined
| JNull
| JBool (b : bool)
| JNum (n : Z)
| JStr (s : string)
| JBigInt (n : Z)
| JArr (items : list JsValue)
| JObj (fields : list (string * JsValue)).

(** [s || d] on an optional string: [undefined] and [''] are falsy. *)
Definition or_str (o : option string) (d : string) : string :=
  match o with
  | Some s => if decide (s = "") then d else s
  | None => d
  end.

(** [n || d] on an optional number: [undefined] and [0] are falsy. *)
Definition or_num (o : option Z) (d : Z) : Z :=
  match o with
  | Some n => if decide (n = 0) then d else n
  | None => d
  end.

Definition truthy_str (o : option string) : bool :=
  match o with
  | Some s => if decide (s = "") then false else true
  | None => false
  end.

Definition opt_str (o : option string) : JsValue :=
  match o with Some s => JStr s | None => JUndefined end.

Definition opt_num (o : option Z) : JsValue :=
  match o with Some n => JNum n | None => JUndefined end.

(** ** JSON *)

(** What a JSON text denotes. *)
#[warnings="-register-all"]
Inductive Json : Type :=
| JsonNull
| JsonBool (b : bool)
| JsonNum (n : Z)
| JsonStr (s : string)
| JsonArr (items : list Json)
| JsonObj (fields : list (string * Json)).

Module JSON.

(** [JSON.parse(text)], on the value the text denotes. *)
Fixpoint parse (j : Json) : JsValue :=
  match j with
  | JsonNull => JNull
  | JsonBool b => JBool b
  | JsonNum n => JNum n
  | JsonStr s => JStr s
  | JsonArr items => JArr (map parse items)
  | JsonObj fields =>
      JObj ((fix go (fs : list (string * Json)) : list (string * JsValue) :=
               match fs with
               | [] => []
               | (k, v) :: rest => (k, parse v) :: go rest
               end) fields)
  end.

(** What [JSON.stringify] makes of one value: it throws (a BigInt, here or
    further down), leaves the value out ([undefined]), or writes a text. *)
Inductive Stringified : Type :=
| Throws
| Omitted
| Text (j : Json).

Fixpoint stringify (v : JsValue) : Stringified :=
  match v with
  | JUndefined => Omitted
  | JNull => Text JsonNull
  | JBool b => Text (JsonBool b)
  | JNum n => Text (JsonNum n)
  | JStr s => Text (JsonStr s)
  | JBigInt _ => Throws
  | JArr items =>
      (* an [undefined] item is written as [null] *)
      match (fix go (vs : list JsValue) : option (list Json) :=
               match vs with
               | [] => Some []
               | v :: rest =>
                   match stringify v, go rest with
                   | Throws, _ | _, None => None
                   | Omitted, Some js => Some (JsonNull :: js)
                   | Text j, Some js => Some (j :: js)
                   end
               end) items with
      | Some js => Text (JsonArr js)
      | None => Throws
      end
  | JObj fields =>
      (* a field whose value is [undefined] is left out *)
      match (fix go (fs : list (string * JsValue))
               : option (list (string * Json)) :=
               match fs with
               | [] => Some []
               | (k, v) :: rest =>
                   match stringify v, go rest with
                   | Throws, _ | _, None => None
                   | Omitted, Some js => Some js
                   | Text j, Some js => Some ((k, j) :: js)
                   end
               end) fields with
      | Some js => Text (JsonObj js)
      | None => Throws
      end
  end.

Definition throws (v : JsValue) : bool :=
  match stringify v with Throws => true | _ => false end.

Definition text (v : JsValue) : option Json :=
  match stringify v with Text j => Some j | _ => None end.

(** [JSON.stringify] on an object given by its fields: [None] when it
    throws. *)
Definition stringify_object (fields : gmap string JsValue)
  : option (gmap string Json) :=
  if decide (map_Forall (λ _ v, throws v = false) fields)
  then Some (omap text fields)
  else None.

Definition parse_object (fields : gmap string Json) : gmap string JsValue :=
  parse <$> fields.

End JSON.

(** ** constants.ts *)

Inductive EventType : Type :=
| PAGE_VIEW | PAGE_DURATION | CLICK | CUSTOM | ERROR | PERFORMANCE
| USER_ACTION | API_PERFORMANCE.

Inductive ReportMethod : Type := IMMEDIATE | BATCH | BEACON.

#[global] Instance ReportMethod_eq_dec : EqDecision ReportMethod.
Proof. solve_decision. Defined.

Module STORAGE_KEYS.
Definition SESSION_ID : string := "argos_session_id".
Definition USER_ID : string := "argos_user_id".
Definition PENDING_EVENTS : string := "argos_pending_events".
End STORAGE_KEYS.

(** ** types.ts *)

Record TrackerConfig : Type := mkConfig {
  reportUrl : string;
  appId : string;
  cfg_userId : option string;
  reportMethod : option ReportMethod;
  batchSize : option Z;
  batchInterval : option Z;
  debug : option bool;
  headers : option (gmap string string);
  timeout : option Z;
  autoTrackPageView : option bool;
  autoTrackClick : option bool;
  autoTrackError : option bool
}.

(** [Partial<TrackerConfig>], the argument of [updateConfig]. *)
Record PartialConfig : Type := mkPartial {
  p_reportUrl : option string;
  p_appId : option string;
  p_rest : TrackerConfig
}.

(** [TrackEvent], over the values its custom properties hold: JavaScript
    values in memory, JSON values in a text. *)
Record Event (V : Type) : Type := mkEvent {
  eventType : EventType;
  eventName : string;
  properties : option (gmap string V);
  timestamp : option Z;
  userId : option string;
  sessionId : option string;
  pageUrl : option string;
  pageTitle : option string;
  userAgent : option string;
  screenResolution : option string;
  deviceType : option string;
  duration : option Z;
  click_for : option string
}.
Arguments mkEvent {V}.
Arguments eventType {V}.
Arguments eventName {V}.
Arguments properties {V}.
Arguments timestamp {V}.
Arguments userId {V}.
Arguments sessionId {V}.
Arguments pageUrl {V}.
Arguments pageTitle {V}.
Arguments userAgent {V}.
Arguments screenResolution {V}.
Arguments deviceType {V}.
Arguments duration {V}.
Arguments click_for {V}.

Abbreviation TrackEvent := (Event JsValue).

(** An event as a JSON text holds it. *)
Abbreviation StoredEvent := (Event Json).

(** [DEFAULT_CONFIG] of constants.ts, as the fields it sets. *)
Module DEFAULT_CONFIG.
Definition reportMethod : ReportMethod := BATCH.
Definition batchSize : Z := 10.
Definition batchInterval : Z := 5000.
Definition debug : bool := false.
Definition timeout : Z := 10000.
Definition autoTrackPageView : bool := true.
Definition autoTrackClick : bool := false.
Definition autoTrackError : bool := true.
Definition headers : gmap string string :=
  {[ "Content-Type" := "application/json" ]}.
End DEFAULT_CONFIG.

(** [{ ...a, ...b }] on one optional field: the later source wins where it
    has the field. *)
Definition spread {A} (a b : option A) : option A :=
  match b with Some x => Some x | None => a end.

(** [{ ...DEFAULT_CONFIG, ...config }] in the tracker's constructor. *)
Definition with_defaults (c : TrackerConfig) : TrackerConfig :=
  {| reportUrl := reportUrl c;
     appId := appId c;
     cfg_userId := cfg_userId c;
     reportMethod := spread (Some DEFAULT_CONFIG.reportMethod) (reportMethod c);
     batchSize := spread (Some DEFAULT_CONFIG.batchSize) (batchSize c);
     batchInterval := spread (Some DEFAULT_CONFIG.batchInterval) (batchInterval c);
     debug := spread (Some DEFAULT_CONFIG.debug) (debug c);
     headers := spread (Some DEFAULT_CONFIG.headers) (headers c);
     timeout := spread (Some DEFAULT_CONFIG.timeout) (timeout c);
     autoTrackPageView :=
       spread (Some DEFAULT_CONFIG.autoTrackPageView) (autoTrackPageView c);
     autoTrackClick := spread (Some DEFAULT_CONFIG.autoTrackClick) (autoTrackClick c);
     autoTrackError := spread (Some DEFAULT_CONFIG.autoTrackError) (autoTrackError c)
  |}.

(** [{ ...config, ...newConfig }] in [updateConfig]. *)
Definition spread_config (c : TrackerConfig) (p : PartialConfig) : TrackerConfig :=
  let n := p_rest p in
  {| reportUrl := default (reportUrl c) (p_reportUrl p);
     appId := default (appId c) (p_appId p);
     cfg_userId := spread (cfg_userId c) (cfg_userId n);
     reportMethod := spread (reportMethod c) (reportMethod n);
     batchSize := spread (batchSize c) (batchSize n);
     batchInterval := spread (batchInterval c) (batchInterval n);
     debug := spread (debug c) (debug n);
     headers := spread (headers c) (headers n);
     timeout := spread (timeout c) (timeout n);
     autoTrackPageView := spread (autoTrackPageView c) (autoTrackPageView n);
     autoTrackClick := spread (autoTrackClick c) (autoTrackClick n);
     autoTrackError := spread (autoTrackError c) (autoTrackError n)
  |}.

Definition set_reportMethod (m : ReportMethod) (c : TrackerConfig) : TrackerConfig :=
  {| reportUrl := reportUrl c; appId := appId c; cfg_userId := cfg_userId c;
     reportMethod := Some m;
     batchSize := batchSize c; batchInterval := batchInterval c;
     debug := debug c; headers := headers c; timeout := timeout c;
     autoTrackPageView := autoTrackPageView c;
     autoTrackClick := autoTrackClick c;
     autoTrackError := autoTrackError c |}.


(** ** utils.ts: safeStringify and safeParse

    The tracker calls [safeStringify] on two things, the payload of a request
    and an array of events, and [safeParse] on one, the text under the
    pending-events key. *)

Definition set_properties {V W} (props : option (gmap string W)) (e : Event V)
  : Event W :=
  {| eventType := eventType e; eventName := eventName e; properties := props;
     timestamp := timestamp e; userId := userId e; sessionId := sessionId e;
     pageUrl := pageUrl e; pageTitle := pageTitle e; userAgent := userAgent e;
     screenResolution := screenResolution e; deviceType := deviceType e;
     duration := duration e; click_for := click_for e |}.

(** [JSON.stringify] on one event: the fields that are [undefined] are left
    out and read back as [undefined]; the properties are written as an
    object. *)
Definition stringify_event (e : TrackEvent) : option StoredEvent :=
  match properties e with
  | Some props =>
      match JSON.stringify_object props with
      | Some fields => Some (set_properties (Some fields) e)
      | None => None
      end
  | None => Some (set_properties None e)
  end.

Definition parse_event (e : StoredEvent) : TrackEvent :=
  set_properties (JSON.parse_object <$> properties e) e.

(** The texts the code writes under the pending-events key: the JSON of an
    array of events, or ['{}']. *)
Inductive PendingText : Type :=
| EventsText (events : list StoredEvent)
| EmptyObjectText.

(** What [JSON.parse] makes of them: an array, or the empty object. *)
Inductive PendingValue : Type :=
| PendingArray (events : list TrackEvent)
| EmptyObject.

(** [safeStringify(events)]: ['{}'] when [JSON.stringify] throws. *)
Definition safeStringify_events (events : list TrackEvent) : PendingText :=
  match mapM stringify_event events with
  | Some stored => EventsText stored
  | None => EmptyObjectText
  end.

(** [safeParse(text, [])] on such a text; [JSON.parse] does not throw on
    it. *)
Definition safeParse_events (text : PendingText) : PendingValue :=
  match text with
  | EventsText stored => PendingArray (parse_event <$> stored)
  | EmptyObjectText => EmptyObject
  end.

(** The events as they are read back from the text written for them;
    [None] when they cannot be serialised. *)
Definition reread (events : list TrackEvent) : option (list TrackEvent) :=
  fmap parse_event <$> mapM stringify_event events.

(** The body of a request: the JSON of [{ events: [...] }], kept as the
    records of its [events] array, or ['{}']. *)
Inductive Body : Type :=
| RecordsBody (records : list (gmap string Json))
| EmptyObjectBody.

(** [safeStringify(payload)], on the [events] of the payload. *)
Definition safeStringify_payload (events : list (gmap string JsValue)) : Body :=
  match mapM JSON.stringify_object events with
  | Some records => RecordsBody records
  | None => EmptyObjectBody
  end.

(** ** reporter.ts *)

Module Reporter.

(** What the network does with one request. [fetch] resolves with a response
    or rejects; the rejection is an [AbortError] when the abort timer armed
    by [sendFetch] fired first. *)
Inductive FetchResult : Type :=
| Response (status : Z)
| NetworkError
| AbortError.

(** [navigator.sendBeacon(url, body)] returns a boolean or throws. *)
Inductive BeaconResult : Type :=
| BeaconReturns (queued : bool)
| BeaconThrows.

(** The network as one call to [report] meets it. [sendBeacon = None] is a
    browser without [navigator.sendBeacon]. *)
Record Network : Type := mkNetwork {
  fetch : FetchResult;
  sendBeacon : option BeaconResult
}.

(** The [events] array of the payload object [formatPayload] builds, one
    record per event. *)
Abbreviation Payload := (list (gmap string JsValue)).

Inductive NetCall : Type :=
| FetchCall (url : string) (hdrs : gmap string string) (abort_after : Z)
    (body : Body)
| BeaconCall (url : string) (body : Body).

(** A computation that issues network calls and either completes normally or
    throws. For an [async] function [Throw] is a rejected promise. *)
Inductive Completion (A : Type) : Type :=
| Normal (a : A)
| Throw.
Arguments Normal {A} a.
Arguments Throw {A}.

Definition Eff (A : Type) : Type := list NetCall * Completion A.

Definition ret {A} (a : A) : Eff A := ([], Normal a).

Definition bind {A B} (m : Eff A) (k : A → Eff B) : Eff B :=
  match m with
  | (cs, Normal a) => let '(cs', r) := k a in (cs ++ cs', r)
  | (cs, Throw) => (cs, Throw)
  end.

(** [try { m } catch { h }] *)
Definition try_catch {A} (m : Eff A) (h : Eff A) : Eff A :=
  match m with
  | (cs, Normal a) => (cs, Normal a)
  | (cs, Throw) => let '(cs', r) := h in (cs ++ cs', r)
  end.

Definition calls {A} (m : Eff A) : list NetCall := m.1.
Definition result {A} (m : Eff A) : Completion A := m.2.

(** [response.ok]: the status is in the range 200-299. *)
Definition ok (status : Z) : bool :=
  bool_decide (200 ≤ status ∧ status ≤ 299).

(** The fields [formatPayload] writes before it merges the properties. *)
Definition canonical (cfg : TrackerConfig) (event : TrackEvent)
  : gmap string JsValue :=
  <["event_name" := JStr (eventName event)]>
  (<["user_id" := opt_str (userId event)]>
  (<["session_id" := opt_str (sessionId event)]>
  (<["timestamp" := opt_num (timestamp event)]>
  (<["app_id" := JStr (appId cfg)]>
  (<["platform" := JStr (or_str (deviceType event) "desktop")]>
  (<["user_agent" := opt_str (userAgent event)]>
  (<["page_url" := opt_str (pageUrl event)]> ∅))))))).

(** One iteration of the [events.map] of [formatPayload]. *)
Definition formatEvent (cfg : TrackerConfig) (event : TrackEvent)
  : gmap string JsValue :=
  let formattedEvent := canonical cfg event in
  match properties event with
  | Some props =>
      if decide (props = ∅) then formattedEvent
      else props ∪ formattedEvent   (* Object.assign(formattedEvent, props) *)
  | None => formattedEvent
  end.

(** The local [payload] of [formatPayload], as its [events]. *)
Definition payload (cfg : TrackerConfig) (events : list TrackEvent)
  : Payload := formatEvent cfg <$> events.

Definition formatPayload (cfg : TrackerConfig) (events : list TrackEvent)
  : Body := safeStringify_payload (payload cfg events).

#[global] Instance JsValue_undefined_dec (v : JsValue) : Decision (v ≠ JUndefined).
Proof. destruct v; [right; tauto | left; discriminate ..]. Defined.

(** What [JSON.stringify] keeps of a record: a field whose value is
    [undefined] is left out of the text. *)
Definition wire_record (r : gmap string JsValue) : gmap string JsValue :=
  filter (λ kv, kv.2 ≠ JUndefined) r.

(** The records with the fields [JSON.stringify] keeps. *)
Definition wire_payload (cfg : TrackerConfig) (events : list TrackEvent)
  : Payload := wire_record <$> payload cfg events.

Definition request_headers (cfg : TrackerConfig) : gmap string string :=
  default ∅ (headers cfg) ∪ {[ "Content-Type" := "application/json" ]}.

(** The awaited [fetch(...)]: the call is issued, then resolves or rejects. *)
Definition do_fetch (cfg : TrackerConfig) (net : Network)
    (events : list TrackEvent) : Eff Z :=
  ([FetchCall (reportUrl cfg) (request_headers cfg)
      (default 10000 (timeout cfg)) (formatPayload cfg events)],
   match fetch net with
   | Response status => Normal status
   | NetworkError | AbortError => Throw
   end).

Definition sendFetch (cfg : TrackerConfig) (net : Network)
    (events : list TrackEvent) : Eff bool :=
  try_catch
    (bind (do_fetch cfg net events) (λ status,
       if ok status then ret true else ret false))
    (ret false).

(** The call [navigator.sendBeacon(url, payload)]. *)
Definition do_beacon (cfg : TrackerConfig) (b : BeaconResult)
    (events : list TrackEvent) : Eff bool :=
  ([BeaconCall (reportUrl cfg) (formatPayload cfg events)],
   match b with
   | BeaconReturns success => Normal success
   | BeaconThrows => Throw
   end).

Definition sendBeacon' (cfg : TrackerConfig) (net : Network)
    (events : list TrackEvent) : Eff bool :=
  match sendBeacon net with
  | None =>
      (* this.sendFetch(events).then(result => result).catch(() => false) *)
      try_catch (sendFetch cfg net events) (ret false)
  | Some b =>
      try_catch (do_beacon cfg b events) (ret false)
  end.

Definition report (cfg : TrackerConfig) (net : Network)
    (events : list TrackEvent) : Eff bool :=
  match events with
  | [] => ret true
  | _ =>
      try_catch
        (match reportMethod cfg with
         | Some BEACON => sendBeacon' cfg net events
         | _ => sendFetch cfg net events
         end)
        (ret false)
  end.

End Reporter.

(** ** The page as one call sees it (utils.ts reads these globals) *)

Record Page : Type := mkPage {
  now : Z;                    (* getCurrentTimestamp(): Date.now() *)
  href : string;              (* window.location.href *)
  title : string;             (* document.title *)
  referrer : string;          (* document.referrer *)
  navigator_userAgent : string;   (* getUserAgent() *)
  screen : string;            (* getScreenResolution(): `${width}x${height}` *)
  device : string             (* getDeviceType(): 'desktop' | 'mobile' | 'tablet' *)
}.

(** ** storage.ts *)

Module StorageManager.

(** [window.localStorage], restricted to the three keys of [STORAGE_KEYS];
    a slot is [None] when the key is absent. The text under
    [argos_pending_events] is one of those [savePendingEvents] and
    [removePendingEvents] write; no other code writes this key. *)
Record LocalStorage : Type := mkLocalStorage {
  argos_session_id : option string;
  argos_user_id : option string;
  argos_pending_events : option PendingText
}.

(** The manager's two fields and the store behind it. [localStorage = Some
    ls] is a page whose store is there and completes every call made on it.
    [localStorage = None] is a page where [window.localStorage] is missing or
    every access to it throws: [getItem], [setItem] and [removeItem] then
    fall through their guard or their [catch]. A store on which some calls
    complete and others throw (a [setItem] over the quota) is neither, and
    is not covered. *)
Record t : Type := mkStorage {
  sm_sessionId : string;
  sm_userId : option string;
  localStorage : option LocalStorage
}.

Definition with_localStorage (f : LocalStorage → LocalStorage) (st : t) : t :=
  {| sm_sessionId := sm_sessionId st;
     sm_userId := sm_userId st;
     localStorage := f <$> localStorage st |}.

Definition set_session (v : option string) (ls : LocalStorage) : LocalStorage :=
  {| argos_session_id := v;
     argos_user_id := argos_user_id ls;
     argos_pending_events := argos_pending_events ls |}.

Definition set_user (v : option string) (ls : LocalStorage) : LocalStorage :=
  {| argos_session_id := argos_session_id ls;
     argos_user_id := v;
     argos_pending_events := argos_pending_events ls |}.

Definition set_pending (v : option PendingText) (ls : LocalStorage)
  : LocalStorage :=
  {| argos_session_id := argos_session_id ls;
     argos_user_id := argos_user_id ls;
     argos_pending_events := v |}.

(** [getItem(key)], [setItem(key, value)] and [removeItem(key)] at each key. *)
Definition getItem_SESSION_ID (st : t) : option string :=
  localStorage st ≫= argos_session_id.
Definition getItem_USER_ID (st : t) : option string :=
  localStorage st ≫= argos_user_id.
Definition getItem_PENDING_EVENTS (st : t) : option PendingText :=
  localStorage st ≫= argos_pending_events.

Definition setItem_SESSION_ID (v : string) : t → t :=
  with_localStorage (set_session (Some v)).
Definition setItem_USER_ID (v : string) : t → t :=
  with_localStorage (set_user (Some v)).
Definition setItem_PENDING_EVENTS (v : PendingText) : t → t :=
  with_localStorage (set_pending (Some v)).

Definition removeItem_USER_ID : t → t := with_localStorage (set_user None).
Definition removeItem_PENDING_EVENTS : t → t :=
  with_localStorage (set_pending None).

Definition getSessionId (st : t) : string := sm_sessionId st.

Definition setUserId (uid : string) (st : t) : t :=
  setItem_USER_ID uid
    {| sm_sessionId := sm_sessionId st;
       sm_userId := Some uid;
       localStorage := localStorage st |}.

(** [getUserId] caches what it finds in the store. *)
Definition getUserId (st : t) : option string * t :=
  if truthy_str (sm_userId st) then (sm_userId st, st)
  else
    let storedUserId := getItem_USER_ID st in
    if truthy_str storedUserId then
      (storedUserId,
       {| sm_sessionId := sm_sessionId st;
          sm_userId := storedUserId;
          localStorage := localStorage st |})
    else (None, st).

Definition clearUserId (st : t) : t :=
  removeItem_USER_ID
    {| sm_sessionId := sm_sessionId st;
       sm_userId := None;
       localStorage := localStorage st |}.

(** [eventsStr ? safeParse(eventsStr, []) : []]; every text the key can
    hold is a non-empty string. *)
Definition getPendingEvents (st : t) : PendingValue :=
  match getItem_PENDING_EVENTS st with
  | Some eventsStr => safeParse_events eventsStr
  | None => PendingArray []
  end.

(** [savePendingEvents]; [None] when it throws: the spread
    [...existingEvents] of the empty object, which is not iterable. *)
Definition savePendingEvents (events : list TrackEvent) (st : t) : option t :=
  match getPendingEvents st with
  | PendingArray existingEvents =>
      let allEvents := existingEvents ++ events in
      Some (setItem_PENDING_EVENTS (safeStringify_events allEvents) st)
  | EmptyObject => None
  end.

Definition clearPendingEvents (st : t) : t := removeItem_PENDING_EVENTS st.

(** [l.slice(start)] for an integer [start]: a negative [start] counts from
    the end of the array, and is clamped at its beginning. *)
Definition slice {A} (start : Z) (l : list A) : list A :=
  if decide (start < 0)
  then drop (Z.to_nat (Z.max (Z.of_nat (length l) + start) 0)) l
  else drop (Z.to_nat start) l.

(** [removePendingEvents]; [None] when it throws: the empty object has no
    [slice]. *)
Definition removePendingEvents (count : Z) (st : t) : option t :=
  match getPendingEvents st with
  | PendingArray events =>
      let remainingEvents := slice count events in
      match remainingEvents with
      | [] => Some (clearPendingEvents st)
      | _ =>
          Some (setItem_PENDING_EVENTS (safeStringify_events remainingEvents) st)
      end
  | EmptyObject => None
  end.

Definition removeItem_SESSION_ID : t → t := with_localStorage (set_session None).

(** [clear], with the value [generateUUID()] returns:
    [Object.values(STORAGE_KEYS).forEach(key => this.removeItem(key))], then
    the two fields. *)
Definition clear (uuid : string) (st : t) : t :=
  let st1 :=
    removeItem_PENDING_EVENTS (removeItem_USER_ID (removeItem_SESSION_ID st)) in
  {| sm_sessionId := uuid;
     sm_userId := None;
     localStorage := localStorage st1 |}.

(** [renewSessionId], with the value [generateUUID()] returns. *)
Definition renewSessionId (uuid : string) (st : t) : string * t :=
  (uuid,
   setItem_SESSION_ID uuid
     {| sm_sessionId := uuid;
        sm_userId := sm_userId st;
        localStorage := localStorage st |}).

(** The constructor: [getOrCreateSessionId()], then [getUserId()]. [uuid] is
    what [generateUUID()] returns if it is called. *)
Definition new (uuid : string) (ls : option LocalStorage) : t :=
  let st0 := {| sm_sessionId := ""; sm_userId := None; localStorage := ls |} in
  let stored := getItem_SESSION_ID st0 in
  let '(sid, st1) :=
    if truthy_str stored then (default "" stored, st0)
    else (uuid, setItem_SESSION_ID uuid st0) in
  let st2 := {| sm_sessionId := sid;
                sm_userId := None;
                localStorage := localStorage st1 |} in
  let '(uid, st3) := getUserId st2 in
  {| sm_sessionId := sm_sessionId st3;
     sm_userId := uid;
     localStorage := localStorage st3 |}.

End StorageManager.

(** ** collector.ts *)

Module AutoCollector.

(** The collector's fields. The three flags stand for the entries of
    [unloadListeners]: which hooks are installed. *)
Record t : Type := mkCollector {
  isCollecting : bool;
  pageStartTime : Z;
  lastPageViewUrl : string;
  lastPageViewTime : Z;
  pageViewHooked : bool;
  clickHooked : bool;
  errorHooked : bool
}.

Definition new : t :=
  {| isCollecting := false; pageStartTime := 0;
     lastPageViewUrl := ""; lastPageViewTime := 0;
     pageViewHooked := false; clickHooked := false; errorHooked := false |}.

Definition page_view_event (page : Page) : TrackEvent :=
  {| eventType := PAGE_VIEW;
     eventName := "page_view";
     properties := Some
       (<["url" := JStr (href page)]>
       (<["title" := JStr (title page)]>
       (<["referrer" :=
            if decide (referrer page = "") then JUndefined
            else JStr (referrer page)]> ∅)));
     timestamp := Some (now page);
     userId := None; sessionId := None; pageUrl := None; pageTitle := None;
     userAgent := None; screenResolution := None; deviceType := None;
     duration := None; click_for := None |}.

(** [trackPageView]: the new state and the event handed to [eventCallback],
    if any. *)
Definition trackPageView (page : Page) (c : t) : t * option TrackEvent :=
  let currentUrl := href page in
  let currentTime := now page in
  if decide (lastPageViewUrl c = currentUrl ∧
             currentTime - lastPageViewTime c < 100)
  then (c, None)
  else
    ({| isCollecting := isCollecting c;
        pageStartTime := pageStartTime c;
        lastPageViewUrl := currentUrl;
        lastPageViewTime := currentTime;
        pageViewHooked := pageViewHooked c;
        clickHooked := clickHooked c;
        errorHooked := errorHooked c |},
     Some (page_view_event page)).

(** The callback of the patched [pushState] / [replaceState]:
    [trackPageView()], then [pageStartTime = getCurrentTimestamp()]. *)
Definition handleHistoryChange (page : Page) (c : t) : t * option TrackEvent :=
  let '(c1, ev) := trackPageView page c in
  ({| isCollecting := isCollecting c1;
      pageStartTime := now page;
      lastPageViewUrl := lastPageViewUrl c1;
      lastPageViewTime := lastPageViewTime c1;
      pageViewHooked := pageViewHooked c1;
      clickHooked := clickHooked c1;
      errorHooked := errorHooked c1 |}, ev).

Definition is_true (o : option bool) : bool := default false o.

Definition start (cfg : TrackerConfig) (page : Page) (c : t)
  : t * option TrackEvent :=
  if isCollecting c then (c, None)
  else
    let c0 := {| isCollecting := true;
                 pageStartTime := now page;
                 lastPageViewUrl := lastPageViewUrl c;
                 lastPageViewTime := lastPageViewTime c;
                 pageViewHooked := pageViewHooked c;
                 clickHooked := clickHooked c;
                 errorHooked := errorHooked c |} in
    let '(c1, ev) :=
      if is_true (autoTrackPageView cfg) then trackPageView page c0
      else (c0, None) in
    ({| isCollecting := isCollecting c1;
        pageStartTime := pageStartTime c1;
        lastPageViewUrl := lastPageViewUrl c1;
        lastPageViewTime := lastPageViewTime c1;
        pageViewHooked := is_true (autoTrackPageView cfg) || pageViewHooked c1;
        clickHooked := is_true (autoTrackClick cfg) || clickHooked c1;
        errorHooked := is_true (autoTrackError cfg) || errorHooked c1 |}, ev).

(** A run of [trackPageView] calls, one per visit: the visits for which an
    event went to the callback, and the collector afterwards. *)
Fixpoint trackPageViews (pages : list Page) (c : t) : list Page * t :=
  match pages with
  | [] => ([], c)
  | page :: rest =>
      let '(c1, ev) := trackPageView page c in
      let '(created, c2) := trackPageViews rest c1 in
      (match ev with Some _ => page :: created | None => created end, c2)
  end.

Definition stop (c : t) : t :=
  if isCollecting c then
    {| isCollecting := false;
       pageStartTime := pageStartTime c;
       lastPageViewUrl := lastPageViewUrl c;
       lastPageViewTime := lastPageViewTime c;
       pageViewHooked := false; clickHooked := false; errorHooked := false |}
  else c.

End AutoCollector.

(** ** tracker.ts *)

Module ArgosTracker.

(** The two closures the tracker hands to [setTimeout]. *)
Inductive TimerCallback : Type :=
| BatchSend      (* () => { this.sendEvents(); this.batchTimer = null; } *)
| RestoreSend.   (* () => { this.sendEvents(); } *)

Record Timer : Type := mkTimer {
  timer_id : Z;
  callback : TimerCallback;
  delay : Z
}.

(** One call of [report] on a reporter: the batch handed to delivery.
    [teardown] tells the temporary beacon reporter of the unload handler from
    the tracker's own reporter. *)
Record ReportCall : Type := mkCall {
  teardown : bool;
  call_config : TrackerConfig;
  call_events : list TrackEvent
}.

(** The tracker's fields, the part of the window it acts on (armed timers,
    the unload listeners), the [sendEvents] calls suspended at their [await],
    and two histories: every [report] call made so far and every batch a
    [report] call answered [true] for. The reporter's [config] always equals
    the tracker's (the constructor and [updateConfig] set both), so it has no
    field of its own. *)
Record t : Type := mkTracker {
  config : TrackerConfig;
  storage : StorageManager.t;
  collector : AutoCollector.t;
  eventQueue : list TrackEvent;
  batchTimer : option Z;
  isInitialized : bool;
  timers : list Timer;
  nextTimerId : Z;
  unloadHooked : bool;
  awaiting : list ReportCall;
  reports : list ReportCall;
  delivered : list (list TrackEvent)
}.

Definition set_config (v : TrackerConfig) (s : t) : t :=
  mkTracker v (storage s) (collector s) (eventQueue s) (batchTimer s)
    (isInitialized s) (timers s) (nextTimerId s) (unloadHooked s) (awaiting s)
    (reports s) (delivered s).
Definition set_storage (v : StorageManager.t) (s : t) : t :=
  mkTracker (config s) v (collector s) (eventQueue s) (batchTimer s)
    (isInitialized s) (timers s) (nextTimerId s) (unloadHooked s) (awaiting s)
    (reports s) (delivered s).
Definition set_collector (v : AutoCollector.t) (s : t) : t :=
  mkTracker (config s) (storage s) v (eventQueue s) (batchTimer s)
    (isInitialized s) (timers s) (nextTimerId s) (unloadHooked s) (awaiting s)
    (reports s) (delivered s).
Definition set_eventQueue (v : list TrackEvent) (s : t) : t :=
  mkTracker (config s) (storage s) (collector s) v (batchTimer s)
    (isInitialized s) (timers s) (nextTimerId s) (unloadHooked s) (awaiting s)
    (reports s) (delivered s).
Definition set_batchTimer (v : option Z) (s : t) : t :=
  mkTracker (config s) (storage s) (collector s) (eventQueue s) v
    (isInitialized s) (timers s) (nextTimerId s) (unloadHooked s) (awaiting s)
    (reports s) (delivered s).
Definition set_isInitialized (v : bool) (s : t) : t :=
  mkTracker (config s) (storage s) (collector s) (eventQueue s) (batchTimer s)
    v (timers s) (nextTimerId s) (unloadHooked s) (awaiting s)
    (reports s) (delivered s).
Definition set_timers (v : list Timer) (n : Z) (s : t) : t :=
  mkTracker (config s) (storage s) (collector s) (eventQueue s) (batchTimer s)
    (isInitialized s) v n (unloadHooked s) (awaiting s)
    (reports s) (delivered s).
Definition set_unloadHooked (v : bool) (s : t) : t :=
  mkTracker (config s) (storage s) (collector s) (eventQueue s) (batchTimer s)
    (isInitialized s) (timers s) (nextTimerId s) v (awaiting s)
    (reports s) (delivered s).
Definition set_awaiting (v : list ReportCall) (s : t) : t :=
  mkTracker (config s) (storage s) (collector s) (eventQueue s) (batchTimer s)
    (isInitialized s) (timers s) (nextTimerId s) (unloadHooked s) v
    (reports s) (delivered s).
Definition set_reports (v : list ReportCall) (s : t) : t :=
  mkTracker (config s) (storage s) (collector s) (eventQueue s) (batchTimer s)
    (isInitialized s) (timers s) (nextTimerId s) (unloadHooked s) (awaiting s)
    v (delivered s).
Definition set_delivered (v : list (list TrackEvent)) (s : t) : t :=
  mkTracker (config s) (storage s) (collector s) (eventQueue s) (batchTimer s)
    (isInitialized s) (timers s) (nextTimerId s) (unloadHooked s) (awaiting s)
    (reports s) v.

(** [window.setTimeout(cb, ms)]: arms a timer and returns its handle, a fresh
    integer. *)
Definition setTimeout (cb : TimerCallback) (ms : Z) (s : t) : Z * t :=
  let id := nextTimerId s in
  (id, set_timers (timers s ++ [mkTimer id cb ms]) (id + 1) s).

Definition clearTimeout (id : Z) (s : t) : t :=
  set_timers (filter (λ tm, timer_id tm ≠ id) (timers s)) (nextTimerId s) s.

(** [if (this.batchTimer)]: [null] and the number 0 are falsy. *)
Definition armed (o : option Z) : bool :=
  match o with
  | Some id => if decide (id = 0) then false else true
  | None => false
  end.

(** [sendEvents] up to its [await]: the swap of the queue and the call of
    [this.reporter.report(eventsToSend)]. *)
Definition sendEvents (s : t) : t :=
  match eventQueue s with
  | [] => s
  | _ =>
      let eventsToSend := eventQueue s in
      let call := mkCall false (config s) eventsToSend in
      set_reports (reports s ++ [call])
        (set_awaiting (awaiting s ++ [call])
           (set_eventQueue [] s))
  end.

(** [this.storage.savePendingEvents(events)]; [None] when it throws. *)
Definition storage_savePendingEvents (events : list TrackEvent) (s : t)
  : option t :=
  match StorageManager.savePendingEvents events (storage s) with
  | Some sto => Some (set_storage sto s)
  | None => None
  end.

(** [sendEvents] after its [await]: what it does with the answer. A save
    that throws inside the [try] is tried again in the [catch]; when that
    one throws too the promise of [sendEvents] is rejected and the tracker
    is as it was. *)
Definition sendEvents_resume (eventsToSend : list TrackEvent)
    (answer : Reporter.Completion bool) (s : t) : t :=
  match answer with
  | Reporter.Normal true => set_delivered (delivered s ++ [eventsToSend]) s
  | Reporter.Normal false =>
      match storage_savePendingEvents eventsToSend s with
      | Some s1 => s1
      | None => default s (storage_savePendingEvents eventsToSend s)
      end
  | Reporter.Throw => default s (storage_savePendingEvents eventsToSend s)
  end.

Definition scheduleBatchSend (s : t) : t :=
  if armed (batchTimer s) then s
  else
    let '(id, s1) :=
      setTimeout BatchSend (or_num (batchInterval (config s)) 5000) s in
    set_batchTimer (Some id) s1.

Definition addToQueue (event : TrackEvent) (s : t) : t :=
  let s1 := set_eventQueue (eventQueue s ++ [event]) s in
  match reportMethod (config s1) with
  | Some IMMEDIATE => sendEvents s1
  | Some BATCH =>
      if bool_decide
           (or_num (batchSize (config s1)) 10 ≤ Z.of_nat (length (eventQueue s1)))
      then sendEvents s1
      else scheduleBatchSend s1
  | _ => s1
  end.

Definition trackEvent (page : Page) (event : TrackEvent) (s : t) : t :=
  if negb (isInitialized s) then s
  else
    let '(uid, sto) :=
      if truthy_str (userId event) then (userId event, storage s)
      else StorageManager.getUserId (storage s) in
    let fullEvent :=
      {| eventType := eventType event;
         eventName := eventName event;
         properties := properties event;
         timestamp := Some (or_num (timestamp event) (now page));
         userId := uid;
         sessionId :=
           Some (or_str (sessionId event) (StorageManager.getSessionId sto));
         pageUrl := Some (or_str (pageUrl event) (href page));
         pageTitle := Some (or_str (pageTitle event) (title page));
         userAgent := Some (or_str (userAgent event) (navigator_userAgent page));
         screenResolution := Some (or_str (screenResolution event) (screen page));
         deviceType := Some (or_str (deviceType event) (device page));
         duration := duration event;
         click_for := click_for event |} in
    addToQueue fullEvent (set_storage sto s).

Definition partial_event (ty : EventType) (name : string)
    (props : option (gmap string JsValue)) : TrackEvent :=
  {| eventType := ty; eventName := name; properties := props;
     timestamp := None; userId := None; sessionId := None; pageUrl := None;
     pageTitle := None; userAgent := None; screenResolution := None;
     deviceType := None; duration := None; click_for := None |}.

Definition track (page : Page) (name : string)
    (props : option (gmap string JsValue)) (s : t) : t :=
  trackEvent page (partial_event CUSTOM name props) s.

(** [getPageInfo()] *)
Definition getPageInfo (page : Page) : gmap string JsValue :=
  <["url" := JStr (href page)]>
  (<["title" := JStr (title page)]>
  (<["referrer" := JStr (referrer page)]> ∅)).

Definition trackPageView (page : Page)
    (props : option (gmap string JsValue)) (s : t) : t :=
  trackEvent page
    (partial_event PAGE_VIEW "page_view"
       (Some (default ∅ props ∪ getPageInfo page))) s.

Definition trackUserAction (page : Page) (name : string)
    (props : option (gmap string JsValue)) (s : t) : t :=
  trackEvent page (partial_event USER_ACTION name props) s.

Definition trackApiPerformance (page : Page)
    (apiData : gmap string JsValue) (s : t) : t :=
  trackEvent page (partial_event API_PERFORMANCE "api_request" (Some apiData)) s.

Definition setUser (page : Page) (uid : string)
    (props : option (gmap string JsValue)) (s : t) : t :=
  trackEvent page (partial_event CUSTOM "user_set" props)
    (set_storage (StorageManager.setUserId uid (storage s)) s).

Definition clearUser (page : Page) (s : t) : t :=
  trackEvent page (partial_event CUSTOM "user_clear" None)
    (set_storage (StorageManager.clearUserId (storage s)) s).

Definition cancelBatchTimer (s : t) : t :=
  match batchTimer s with
  | Some id =>
      if armed (batchTimer s) then set_batchTimer None (clearTimeout id s)
      else s
  | None => s
  end.

(** [flush] up to the [await] inside the [sendEvents] it calls. *)
Definition flush (s : t) : t := sendEvents (cancelBatchTimer s).

Definition updateConfig (newConfig : PartialConfig) (s : t) : t :=
  let s1 := set_config (spread_config (config s) newConfig) s in
  if truthy_str (cfg_userId (p_rest newConfig)) then
    set_storage
      (StorageManager.setUserId
         (default "" (cfg_userId (p_rest newConfig))) (storage s1)) s1
  else s1.

Definition destroy (s : t) : t :=
  let s1 := set_collector (AutoCollector.stop (collector s)) s in
  let s2 := cancelBatchTimer s1 in
  let s3 := flush s2 in
  set_isInitialized false s3.

(** [getUserId()] and [renewSession()] of the tracker pass on to the
    storage manager. *)
Definition getUserId (s : t) : option string * t :=
  let '(uid, sto) := StorageManager.getUserId (storage s) in
  (uid, set_storage sto s).

Definition renewSession (uuid : string) (s : t) : string * t :=
  let '(sid, sto) := StorageManager.renewSessionId uuid (storage s) in
  (sid, set_storage sto s).

Definition handleAutoEvent (page : Page) (event : TrackEvent) (s : t) : t :=
  trackEvent page event s.

(** [restorePendingEvents]. On the empty object [pendingEvents.length] is
    [undefined], and [undefined > 0] is false. *)
Definition restorePendingEvents (s : t) : t :=
  match StorageManager.getPendingEvents (storage s) with
  | PendingArray [] => s
  | PendingArray pendingEvents =>
      let s1 := set_eventQueue (eventQueue s ++ pendingEvents) s in
      let s2 :=
        set_storage (StorageManager.clearPendingEvents (storage s1)) s1 in
      (setTimeout RestoreSend 1000 s2).2
  | EmptyObject => s
  end.

(** The listener [setupBeforeUnload] registers for [beforeunload] and
    [pagehide]. [net] is the network its beacon meets; the answer of
    [tempReporter.report] is not looked at, and only the [delivered] history
    records it. A save that throws ends the listener there. *)
Definition handleBeforeUnload (net : Reporter.Network) (s : t) : t :=
  match eventQueue s with
  | [] => s
  | _ =>
      let tempConfig := set_reportMethod BEACON (config s) in
      let batch := eventQueue s in
      let answer := Reporter.result (Reporter.report tempConfig net batch) in
      let s1 := set_reports (reports s ++ [mkCall true tempConfig batch]) s in
      let s2 :=
        match answer with
        | Reporter.Normal true => set_delivered (delivered s1 ++ [batch]) s1
        | _ => s1
        end in
      default s2 (storage_savePendingEvents (eventQueue s2) s2)
  end.

Definition setupBeforeUnload (s : t) : t := set_unloadHooked true s.

(** [init]. The events the collector emits while it starts go through
    [handleAutoEvent] like any other. [setupApiMonitoring] only installs
    further origins of events, which reach [trackEvent] with the event of
    [trackApiPerformance]; the patching itself is left out. *)
Definition init (page : Page) (s : t) : t :=
  if isInitialized s then s
  else
    let s1 :=
      if truthy_str (cfg_userId (config s)) then
        set_storage
          (StorageManager.setUserId
             (default "" (cfg_userId (config s))) (storage s)) s
      else s in
    let '(c, ev) := AutoCollector.start (config s1) page (collector s1) in
    let s2 := set_collector c s1 in
    let s3 :=
      match ev with
      | Some e => handleAutoEvent page e s2
      | None => s2
      end in
    let s4 := setupBeforeUnload s3 in
    let s5 := restorePendingEvents s4 in
    set_isInitialized true s5.

(** [new ArgosTracker(config)] on a page with the given store; [uuid] is the
    value [generateUUID()] would return. *)
Definition new (cfg : TrackerConfig) (uuid : string)
    (ls : option StorageManager.LocalStorage) (page : Page) : t :=
  init page
    {| config := with_defaults cfg;
       storage := StorageManager.new uuid ls;
       collector := AutoCollector.new;
       eventQueue := [];
       batchTimer := None;
       isInitialized := false;
       timers := [];
       nextTimerId := 1;
       unloadHooked := false;
       awaiting := [];
       reports := [];
       delivered := [] |}.

(** *** The event loop *)

Definition run_callback (cb : TimerCallback) (s : t) : t :=
  match cb with
  | BatchSend => set_batchTimer None (sendEvents s)
  | RestoreSend => sendEvents s
  end.

(** An armed timer fires: it leaves the window's list and its callback
    runs. *)
Definition fire (id : Z) (s : t) : option t :=
  match list_find (λ tm, timer_id tm = id) (timers s) with
  | Some (_, tm) =>
      Some (run_callback (callback tm) (clearTimeout id s))
  | None => None
  end.

(** The promise awaited by the [i]-th suspended [sendEvents] settles: the
    reporter met network [net]. *)
Definition settle (i : nat) (net : Reporter.Network) (s : t) : option t :=
  match awaiting s !! i with
  | Some call =>
      let answer :=
        Reporter.result
          (Reporter.report (call_config call) net (call_events call)) in
      Some (sendEvents_resume (call_events call) answer
              (set_awaiting (delete i (awaiting s)) s))
  | None => None
  end.

(** What can happen to a tracker: a call of its public interface, an event
    from one of the collector's hooks, a timer, a settled promise, or the
    page going away. *)
Inductive Label : Type :=
| Track (page : Page) (name : string) (props : option (gmap string JsValue))
| TrackPageView (page : Page) (props : option (gmap string JsValue))
| TrackUserAction (page : Page) (name : string)
    (props : option (gmap string JsValue))
| TrackApiPerformance (page : Page) (apiData : gmap string JsValue)
| SetUser (page : Page) (uid : string) (props : option (gmap string JsValue))
| ClearUser (page : Page)
| GetUserId
| RenewSession (uuid : string)
| Flush
| UpdateConfig (newConfig : PartialConfig)
| Destroy
| HistoryChange (page : Page)
| AutoEvent (page : Page) (event : TrackEvent)
| Fire (id : Z)
| Settle (i : nat) (net : Reporter.Network)
| Unload (net : Reporter.Network).

Definition step (l : Label) (s : t) : option t :=
  match l with
  | Track page name props => Some (track page name props s)
  | TrackPageView page props => Some (trackPageView page props s)
  | TrackUserAction page name props => Some (trackUserAction page name props s)
  | TrackApiPerformance page apiData =>
      Some (trackApiPerformance page apiData s)
  | SetUser page uid props => Some (setUser page uid props s)
  | ClearUser page => Some (clearUser page s)
  | GetUserId => Some (getUserId s).2
  | RenewSession uuid => Some (renewSession uuid s).2
  | Flush => Some (flush s)
  | UpdateConfig newConfig => Some (updateConfig newConfig s)
  | Destroy => Some (destroy s)
  | HistoryChange page =>
      if AutoCollector.pageViewHooked (collector s) then
        let '(c, ev) := AutoCollector.handleHistoryChange page (collector s) in
        let s1 := set_collector c s in
        Some (match ev with
              | Some e => handleAutoEvent page e s1
              | None => s1
              end)
      else None
  | AutoEvent page event =>
      if AutoCollector.clickHooked (collector s)
         || AutoCollector.errorHooked (collector s)
      then Some (handleAutoEvent page event s)
      else None
  | Fire id => fire id s
  | Settle i net => settle i net s
  | Unload net =>
      if unloadHooked s then Some (handleBeforeUnload net s) else None
  end.

Fixpoint run (ls : list Label) (s : t) : option t :=
  match ls with
  | [] => Some s
  | l :: ls' =>
      match step l s with
      | Some s' => run ls' s'
      | None => None
      end
  end.

(** *** Notions the properties are stated with *)

(** The events of a list of [report] calls, batch after batch. *)
Definition batches (cs : list ReportCall) : list TrackEvent :=
  concat (call_events <$> cs).

(** The [report] calls made by [sendEvents]: the flushes. *)
Definition flushes (s : t) : list ReportCall :=
  filter (λ c, teardown c = false) (reports s).

#[global] Instance TimerCallback_eq_dec : EqDecision TimerCallback.
Proof. solve_decision. Defined.

(** The armed timers whose callback is the one of [scheduleBatchSend]. *)
Definition batch_timers (s : t) : list Timer :=
  filter (λ tm, callback tm = BatchSend) (timers s).

(** Two states with the same armed timers, handle counter and
    [batchTimer]. *)
Definition same_window (s s' : t) : Prop :=
  timers s' = timers s ∧ nextTimerId s' = nextTimerId s ∧
  batchTimer s' = batchTimer s.

(** [s'] continues the history of [s]: the flushes of [s] are still there,
    unchanged and followed by [new] ones, and the events flushed since then
    followed by those now queued are the events that were queued in [s]
    followed by [added] ones. *)
Definition extends_by (s s' : t) (new : list ReportCall)
    (added : list TrackEvent) : Prop :=
  flushes s' = flushes s ++ new ∧
  batches new ++ eventQueue s' = eventQueue s ++ added.

(** The event [trackEvent] completes [event] to and hands to
    [addToQueue]. *)
Definition fullEvent (page : Page) (event : TrackEvent) (s : t) : TrackEvent :=
  let '(uid, sto) :=
    if truthy_str (userId event) then (userId event, storage s)
    else StorageManager.getUserId (storage s) in
  {| eventType := eventType event;
     eventName := eventName event;
     properties := properties event;
     timestamp := Some (or_num (timestamp event) (now page));
     userId := uid;
     sessionId :=
       Some (or_str (sessionId event) (StorageManager.getSessionId sto));
     pageUrl := Some (or_str (pageUrl event) (href page));
     pageTitle := Some (or_str (pageTitle event) (title page));
     userAgent := Some (or_str (userAgent event) (navigator_userAgent page));
     screenResolution := Some (or_str (screenResolution event) (screen page));
     deviceType := Some (or_str (deviceType event) (device page));
     duration := duration event;
     click_for := click_for event |}.

(** The events a call of [trackEvent] enqueues: the completed event, and
    none on a tracker that is not initialised. *)
Definition tracked (page : Page) (event : TrackEvent) (s : t)
  : list TrackEvent :=
  if isInitialized s then [fullEvent page event s] else [].

(** The events a step enqueues, that is, hands to [addToQueue]: every
    origin of events goes through [trackEvent]. *)
Definition enqueued (l : Label) (s : t) : list TrackEvent :=
  match l with
  | Track page name props => tracked page (partial_event CUSTOM name props) s
  | TrackPageView page props =>
      tracked page
        (partial_event PAGE_VIEW "page_view"
           (Some (default ∅ props ∪ getPageInfo page))) s
  | TrackUserAction page name props =>
      tracked page (partial_event USER_ACTION name props) s
  | TrackApiPerformance page apiData =>
      tracked page
        (partial_event API_PERFORMANCE "api_request" (Some apiData)) s
  | SetUser page uid props =>
      tracked page (partial_event CUSTOM "user_set" props)
        (set_storage (StorageManager.setUserId uid (storage s)) s)
  | ClearUser page =>
      tracked page (partial_event CUSTOM "user_clear" None)
        (set_storage (StorageManager.clearUserId (storage s)) s)
  | HistoryChange page =>
      let '(c, ev) := AutoCollector.handleHistoryChange page (collector s) in
      match ev with
      | Some e => tracked page e (set_collector c s)
      | None => []
      end
  | AutoEvent page event => tracked page event s
  | _ => []
  end.

(** The events enqueued along a run, in the order of their enqueues. *)
Fixpoint enqueued_run (ls : list Label) (s : t) : list TrackEvent :=
  match ls with
  | [] => []
  | l :: ls' =>
      match step l s with
      | Some s' => enqueued l s ++ enqueued_run ls' s'
      | None => []
      end
  end.

(** Handles are positive, fresh and pairwise distinct (what [setTimeout]
    guarantees), and [batchTimer] names the armed batch timer, if any. *)
Record wf (s : t) : Prop := mkWf {
  wf_next : 0 < nextTimerId s;
  wf_fresh : ∀ tm, tm ∈ timers s → 0 < timer_id tm < nextTimerId s;
  wf_nodup : NoDup (timer_id <$> timers s);
  wf_batch :
    match batchTimer s with
    | Some id => ∃ ms, batch_timers s = [mkTimer id BatchSend ms]
    | None => batch_timers s = []
    end
}.

End ArgosTracker.

(** ** utils.ts *)

Module Utils.

Definition template : string := "xxxxxxxx-xxxx-4xxx-yxxx-xxxxxxxxxxxx".

(** [v.toString(16)] for a [v] from 0 to 15, the only values
    [generateUUID] prints. *)
Definition toString16 (v : Z) : Ascii.ascii :=
  default "0"%char (String.get (Z.to_nat v) "0123456789abcdef").

(** [s.replace(/[xy]/g, c => ...)] of [generateUUID]. [rnd i] is the value
    of [Math.random() * 16 | 0] at the [i]-th call of the callback. *)
Fixpoint replace_xy (rnd : nat → Z) (i : nat) (s : string) : string :=
  match s with
  | EmptyString => EmptyString
  | String c rest =>
      if decide (c = "x"%char) then
        let r := rnd i in
        String (toString16 r) (replace_xy rnd (S i) rest)
      else if decide (c = "y"%char) then
        let r := rnd i in
        String (toString16 (Z.lor (Z.land r 3) 8)) (replace_xy rnd (S i) rest)
      else String c (replace_xy rnd i rest)
  end.

Definition generateUUID (rnd : nat → Z) : string := replace_xy rnd 0 template.

Section Closures.
Context {A : Type}.

(** A timer armed by one of the two wrappers: its handle, the arguments its
    callback will pass on, and its delay. *)
Record Delayed : Type := mkDelayed {
  d_id : Z;
  d_args : A;
  d_delay : Z
}.

(** The closure [throttle(func, wait)] returns: its two variables, the
    timers it has armed, the next handle [setTimeout] gives out, and the
    arguments [func] was applied to so far. *)
Record Throttled : Type := mkThrottled {
  th_lastTime : Z;
  th_timeoutId : option Z;
  th_timers : list Delayed;
  th_nextId : Z;
  th_applied : list A
}.

Definition throttle : Throttled :=
  {| th_lastTime := 0; th_timeoutId := None; th_timers := [];
     th_nextId := 1; th_applied := [] |}.

(** A call of the throttled function at time [now]. *)
Definition throttled_call (wait now : Z) (args : A) (st : Throttled)
  : Throttled :=
  if decide (wait ≤ now - th_lastTime st) then
    {| th_lastTime := now;
       th_timeoutId := th_timeoutId st;
       th_timers := th_timers st;
       th_nextId := th_nextId st;
       th_applied := th_applied st ++ [args] |}
  else if ArgosTracker.armed (th_timeoutId st) then st
  else
    let id := th_nextId st in
    {| th_lastTime := th_lastTime st;
       th_timeoutId := Some id;
       th_timers :=
         th_timers st ++ [mkDelayed id args (wait - (now - th_lastTime st))];
       th_nextId := id + 1;
       th_applied := th_applied st |}.

(** The timer with handle [id] fires at time [now]. *)
Definition throttled_fire (id now : Z) (st : Throttled) : option Throttled :=
  match list_find (λ tm, d_id tm = id) (th_timers st) with
  | Some (_, tm) =>
      Some {| th_lastTime := now;
              th_timeoutId := None;
              th_timers := filter (λ tm', d_id tm' ≠ id) (th_timers st);
              th_nextId := th_nextId st;
              th_applied := th_applied st ++ [d_args tm] |}
  | None => None
  end.

Inductive Action : Type :=
| Call (now : Z) (args : A)
| Fire (id : Z) (now : Z).

Definition throttled_step (wait : Z) (a : Action) (st : Throttled)
  : option Throttled :=
  match a with
  | Call now args => Some (throttled_call wait now args st)
  | Fire id now => throttled_fire id now st
  end.

Fixpoint throttled_run (wait : Z) (acts : list Action) (st : Throttled)
  : option Throttled :=
  match acts with
  | [] => Some st
  | a :: rest =>
      match throttled_step wait a st with
      | Some st' => throttled_run wait rest st'
      | None => None
      end
  end.

(** The arguments of the calls among some actions, in order. *)
Fixpoint called (acts : list Action) : list A :=
  match acts with
  | [] => []
  | Call _ args :: rest => args :: called rest
  | Fire _ _ :: rest => called rest
  end.

(** The closure [debounce(func, wait)] returns: its variable [timeout], the
    timers it has armed, the next handle, and the arguments [func] was
    applied to so far. *)
Record Debounced : Type := mkDebounced {
  db_timeout : option Z;
  db_timers : list Delayed;
  db_nextId : Z;
  db_applied : list A
}.

Definition debounce : Debounced :=
  {| db_timeout := None; db_timers := []; db_nextId := 1; db_applied := [] |}.

Definition debounced_call (wait : Z) (args : A) (st : Debounced) : Debounced :=
  let cleared :=
    match db_timeout st with
    | Some old =>
        if ArgosTracker.armed (db_timeout st)
        then filter (λ tm, d_id tm ≠ old) (db_timers st)
        else db_timers st
    | None => db_timers st
    end in
  let id := db_nextId st in
  {| db_timeout := Some id;
     db_timers := cleared ++ [mkDelayed id args wait];
     db_nextId := id + 1;
     db_applied := db_applied st |}.

(** The timer with handle [id] fires; [timeout] keeps the handle. *)
Definition debounced_fire (id : Z) (st : Debounced) : option Debounced :=
  match list_find (λ tm, d_id tm = id) (db_timers st) with
  | Some (_, tm) =>
      Some {| db_timeout := db_timeout st;
              db_timers := filter (λ tm', d_id tm' ≠ id) (db_timers st);
              db_nextId := db_nextId st;
              db_applied := db_applied st ++ [d_args tm] |}
  | None => None
  end.

Definition debounced_step (wait : Z) (a : Action) (st : Debounced)
  : option Debounced :=
  match a with
  | Call _ args => Some (debounced_call wait args st)
  | Fire id _ => debounced_fire id st
  end.

Fixpoint debounced_run (wait : Z) (acts : list Action) (st : Debounced)
  : option Debounced :=
  match acts with
  | [] => Some st
  | a :: rest =>
      match debounced_step wait a st with
      | Some st' => debounced_run wait rest st'
      | None => None
      end
  end.

End Closures.

Arguments Delayed : clear implicits.
Arguments Throttled : clear implicits.
Arguments Debounced : clear implicits.
Arguments Action : clear implicits.

End Utils.

(** ** Derived notions and sample data *)

(** The field names [formatPayload] writes itself. *)
Definition reserved_fields : list string :=
  ["event_name"; "user_id"; "session_id"; "timestamp"; "app_id"; "platform";
   "user_agent"; "page_url"].

Definition used_fetch (cs : list Reporter.NetCall) : Prop :=
  ∃ url hdrs ms body, Reporter.FetchCall url hdrs ms body ∈ cs.

Definition used_beacon (cs : list Reporter.NetCall) : Prop :=
  ∃ url body, Reporter.BeaconCall url body ∈ cs.

Module Sample.

Definition cfg (m : ReportMethod) (size : Z) : TrackerConfig :=
  {| reportUrl := "https://api.example.com/track"; appId := "test-app";
     cfg_userId := Some "test-user"; reportMethod := Some m;
     batchSize := Some size; batchInterval := Some 1000;
     debug := None; headers := None; timeout := None;
     autoTrackPageView := Some false; autoTrackClick := Some false;
     autoTrackError := Some false |}.

Definition page (t : Z) : Page :=
  {| now := t; href := "https://example.com/home"; title := "Home";
     referrer := ""; navigator_userAgent := "Mozilla/5.0"; screen := "1920x1080";
     device := "desktop" |}.

Definition empty_store : StorageManager.LocalStorage :=
  StorageManager.mkLocalStorage None None None.

Definition event (name : string) (t : Z) : TrackEvent :=
  {| eventType := CUSTOM; eventName := name; properties := None;
     timestamp := Some t; userId := Some "test-user";
     sessionId := Some "session-1";
     pageUrl := Some "https://example.com/home"; pageTitle := Some "Home";
     userAgent := Some "Mozilla/5.0"; screenResolution := Some "1920x1080";
     deviceType := Some "desktop"; duration := None; click_for := None |}.

(** The same event as a JSON text holds it. *)
Definition stored_event (name : string) (t : Z) : StoredEvent :=
  {| eventType := CUSTOM; eventName := name; properties := None;
     timestamp := Some t; userId := Some "test-user";
     sessionId := Some "session-1";
     pageUrl := Some "https://example.com/home"; pageTitle := Some "Home";
     userAgent := Some "Mozilla/5.0"; screenResolution := Some "1920x1080";
     deviceType := Some "desktop"; duration := None; click_for := None |}.

(** An event whose custom properties use the reserved name [user_id]. *)
Definition shadowing_event : TrackEvent :=
  {| eventType := CUSTOM; eventName := "click";
     properties := Some {[ "user_id" := JStr "mallory" ]};
     timestamp := Some 5; userId := Some "alice";
     sessionId := Some "session-1";
     pageUrl := Some "https://example.com/home"; pageTitle := Some "Home";
     userAgent := Some "Mozilla/5.0"; screenResolution := Some "1920x1080";
     deviceType := Some "desktop"; duration := None; click_for := None |}.

Definition network_down : Reporter.Network :=
  {| Reporter.fetch := Reporter.NetworkError; Reporter.sendBeacon := None |}.

Definition network_up : Reporter.Network :=
  {| Reporter.fetch := Reporter.Response 200;
     Reporter.sendBeacon := Some (Reporter.BeaconReturns true) |}.

(** A tracker on a page with a working, empty store. *)
Definition tracker (m : ReportMethod) (size : Z) : ArgosTracker.t :=
  ArgosTracker.new (cfg m size) "uuid-1" (Some empty_store) (page 0).

(** A tracker on a page without [window.localStorage]. *)
Definition tracker_without_store (m : ReportMethod) : ArgosTracker.t :=
  ArgosTracker.new (cfg m 10) "uuid-1" None (page 0).

(** A tracker started on a page whose store holds two undelivered events. *)
Definition tracker_with_overflow : ArgosTracker.t :=
  ArgosTracker.new (cfg BATCH 10) "uuid-1"
    (Some (StorageManager.mkLocalStorage (Some "session-1") None
             (Some (EventsText [stored_event "a" 1; stored_event "b" 2]))))
    (page 0).

End Sample.

(** Every visit of [created] is far enough from the one before it, starting
    from the most recent page view [(url, time)]: a visit of the same URL
    comes 100 ms or more after it. *)
Fixpoint spaced (url : string) (time : Z) (created : list Page) : Prop :=
  match created with
  | [] => True
  | page :: rest =>
      (url = href page → 100 ≤ now page - time) ∧
      spaced (href page) (now page) rest
  end.

(** Every [report] call made so far, and every awaited one, carries at
    least one event. *)
Definition nonempty_reports (s : ArgosTracker.t) : Prop :=
  Forall (λ c, ArgosTracker.call_events c ≠ []) (ArgosTracker.reports s) ∧
  Forall (λ c, ArgosTracker.call_events c ≠ []) (ArgosTracker.awaiting s).

(** What [getPendingEvents] reads from a store before the tracker has
    touched it. *)
Definition found_overflow (ls : option StorageManager.LocalStorage)
  : PendingValue :=
  match ls ≫= StorageManager.argos_pending_events with
  | Some text => safeParse_events text
  | None => PendingArray []
  end.

(** The events of an overflow that is an array; the empty object has
    none. *)
Definition events_of (v : PendingValue) : list TrackEvent :=
  match v with
  | PendingArray events => events
  | EmptyObject => []
  end.

(** The store behind the tracker is there. *)
Definition available (s : ArgosTracker.t) : Prop :=
  is_Some (StorageManager.localStorage (ArgosTracker.storage s)).

(** The durable overflow as the tracker's storage manager reads it. *)
Definition overflow (s : ArgosTracker.t) : PendingValue :=
  StorageManager.getPendingEvents (ArgosTracker.storage s).

(** [JSON.stringify] writes the event: no property of it makes it throw. *)
Definition serialisable (e : TrackEvent) : Prop := is_Some (stringify_event e).

#[global] Instance serialisable_dec e : Decision (serialisable e).
Proof. unfold serialisable. apply _. Defined.

(** What [savePendingEvents(batch)] makes of the overflow [v] of a store
    that is there: an array gets the batch at its end, as [JSON.parse] reads
    it back, or is replaced by ['{}'] when the batch cannot be written; on
    ['{}'] the save throws and ['{}'] stays. *)
Definition after_save (batch : list TrackEvent) (v : PendingValue)
  : PendingValue :=
  match v with
  | PendingArray existing =>
      match reread batch with
      | Some batch' => PendingArray (existing ++ batch')
      | None => EmptyObject
      end
  | EmptyObject => EmptyObject
  end.

(** [v'] continues [v]: an array is continued by an array that starts with
    it or by ['{}'], and ['{}'] only by ['{}']. *)
Definition continues (v v' : PendingValue) : Prop :=
  match v, v' with
  | PendingArray events, PendingArray events' =>
      ∃ more, events' = events ++ more
  | _, EmptyObject => True
  | EmptyObject, PendingArray _ => False
  end.

(** From [s] to [s'] the delivered batches, the presence of the store and
    the overflow are left alone. *)
Definition still (s s' : ArgosTracker.t) : Prop :=
  ArgosTracker.delivered s' = ArgosTracker.delivered s ∧
  (available s ↔ available s') ∧ overflow s' = overflow s.

(** From [s] to [s'] the store stays (un)available, the overflow is
    continued and the delivered batches only grow at their end. *)
Definition persists (s s' : ArgosTracker.t) : Prop :=
  (available s ↔ available s') ∧
  continues (overflow s) (overflow s') ∧
  (∃ more, ArgosTracker.delivered s' = ArgosTracker.delivered s ++ more).

(** Every event the tracker holds, queued or awaited, can be written, and
    the overflow is an array. *)
Definition clean (s : ArgosTracker.t) : Prop :=
  Forall serialisable (ArgosTracker.eventQueue s) ∧
  Forall (λ c, Forall serialisable (ArgosTracker.call_events c))
    (ArgosTracker.awaiting s) ∧
  ∃ events, overflow s = PendingArray events.

(** The batch is in the overflow as [JSON.parse] reads it back, whole and in
    order. *)
Definition saved (batch : list TrackEvent) (s : ArgosTracker.t) : Prop :=
  ∃ batch' before after,
    reread batch = Some batch' ∧
    overflow s = PendingArray (before ++ batch' ++ after).

(** Where the batch of a flush can be: still awaited, answered [true], or in
    the overflow. *)
Definition accounted (s : ArgosTracker.t) (c : ArgosTracker.ReportCall) : Prop :=
  c ∈ ArgosTracker.awaiting s ∨
  ArgosTracker.call_events c ∈ ArgosTracker.delivered s ∨
  saved (ArgosTracker.call_events c) s.

(** From [s] to [s'] the awaited calls grow at their end by the new
    flushes. *)
Definition grows (s s' : ArgosTracker.t) : Prop :=
  ∃ more, ArgosTracker.awaiting s' = ArgosTracker.awaiting s ++ more ∧
          ArgosTracker.flushes s' = ArgosTracker.flushes s ++ more.

(** The sixteen characters [toString(16)] writes a digit with. *)
Definition hex_digits : list Ascii.ascii :=
  String.list_ascii_of_string "0123456789abcdef".

(** What a version-4 UUID has at a place where the template has [t]: a
    hexadecimal digit for [x], one of 8, 9, a, b for [y], and the
    template's own character elsewhere. *)
Definition uuid_char (t c : Ascii.ascii) : Prop :=
  if decide (t = "x"%char) then c ∈ hex_digits
  else if decide (t = "y"%char) then c ∈ String.list_ascii_of_string "89ab"
  else c = t.

(** What holds of a throttled function after the calls with arguments
    [earlier]: handles are positive, at most one timer is pending and
    [timeoutId] names it, and [func] was applied, or is about to be, only to
    arguments of those calls, each at most as often as it was passed. *)
Record throttle_inv {A} (st : Utils.Throttled A) (earlier : list A) : Prop :=
  mkThrottleInv {
    ti_next : 0 < Utils.th_nextId st;
    ti_pending :
      (Utils.th_timers st = [] ∧ Utils.th_timeoutId st = None) ∨
      (∃ tm, Utils.th_timers st = [tm] ∧
             Utils.th_timeoutId st = Some (Utils.d_id tm) ∧
             0 < Utils.d_id tm < Utils.th_nextId st);
    ti_applied :
      Utils.th_applied st ++ (Utils.d_args <$> Utils.th_timers st)
        ⊆+ earlier
  }.

(** What holds of a debounced function after the calls with arguments
    [earlier]: at most one timer is pending, and it is the one of the last
    call; with none pending the last application is the last call; and the
    applications, followed by the pending one, are calls in their order. *)
Record debounce_inv {A} (wait : Z) (st : Utils.Debounced A)
    (earlier : list A) : Prop := mkDebounceInv {
  di_next : 0 < Utils.db_nextId st;
  di_pending :
    (Utils.db_timers st = [] ∧ last (Utils.db_applied st) = last earlier) ∨
    (∃ tm, Utils.db_timers st = [tm] ∧
           Utils.db_timeout st = Some (Utils.d_id tm) ∧
           0 < Utils.d_id tm < Utils.db_nextId st ∧
           last earlier = Some (Utils.d_args tm) ∧
           Utils.d_delay tm = wait);
  di_applied :
    Utils.db_applied st ++ (Utils.d_args <$> Utils.db_timers st)
      `sublist_of` earlier
}.

(** * Properties *)

(** Case analysis on the saves of a goal: each one wrote or threw. *)
Ltac case_save :=
  unfold ArgosTracker.storage_savePendingEvents; simpl;
  repeat match goal with
  | |- context [StorageManager.savePendingEvents ?events ?st] =>
      destruct (StorageManager.savePendingEvents events st)
  end;
  simpl.

(** ** The reporter *)

Section ReporterFacts.
Import Reporter.


Lemma formatEvent_lookup cfg e k :
  formatEvent cfg e !! k =
    match properties e ≫= (λ props, props !! k) with
    | Some v => Some v
    | None => canonical cfg e !! k
    end.
Proof.
  unfold formatEvent. destruct (properties e) as [props|]; simpl; [|done].
  case_decide as Hempty.
  - subst props. by rewrite lookup_empty.
  - rewrite lookup_union.
    by destruct (props !! k), (canonical cfg e !! k).
Qed.

Lemma wire_record_lookup (r : gmap string JsValue) k :
  wire_record r !! k =
    match r !! k with
    | Some v => if decide (v ≠ JUndefined) then Some v else None
    | None => None
    end.
Proof.
  unfold wire_record. destruct (r !! k) as [v|] eqn:Hr.
  - case_decide as Hv.
    + by apply map_lookup_filter_Some.
    + apply map_lookup_filter_None. right. intros v' Hv'. simpl.
      by replace v' with v by congruence.
  - apply map_lookup_filter_None. by left.
Qed.

Lemma stringify_object_lookup (fields : gmap string JsValue)
    (jfields : gmap string Json) k :
  JSON.stringify_object fields = Some jfields →
  jfields !! k = fields !! k ≫= JSON.text.
Proof.
  unfold JSON.stringify_object. case_decide; [|done].
  intros [= <-]. by rewrite lookup_omap.
Qed.

Lemma stringify_object_throws (fields : gmap string JsValue) :
  JSON.stringify_object fields = None ↔
  ∃ k v, fields !! k = Some v ∧ JSON.throws v = true.
Proof.
  unfold JSON.stringify_object. case_decide as Hall; split; try done.
  - intros (k & v & Hk & Hv). by rewrite (Hall k v Hk) in Hv.
  - intros _. apply map_not_Forall in Hall as (k & v & Hk & Hv); [|apply _].
    exists k, v. split; [done|]. by destruct (JSON.throws v).
Qed.

Lemma formatPayload_records cfg events records i e :
  formatPayload cfg events = RecordsBody records →
  events !! i = Some e →
  ∃ record, records !! i = Some record ∧
            JSON.stringify_object (formatEvent cfg e) = Some record.
Proof.
  unfold formatPayload, safeStringify_payload, payload.
  destruct (mapM _ _) as [rs|] eqn:Hrs; [|done]. intros [= <-] He.
  apply mapM_Some in Hrs.
  assert (Hi : (formatEvent cfg <$> events) !! i = Some (formatEvent cfg e))
    by by rewrite list_lookup_fmap, He.
  destruct (Forall2_lookup_l _ _ _ _ _ Hrs Hi) as (record & Hrec & Hstr).
  by exists record.
Qed.

Lemma sendFetch_result cfg net events :
  sendFetch cfg net events =
    ([FetchCall (reportUrl cfg) (request_headers cfg)
        (default 10000 (timeout cfg)) (formatPayload cfg events)],
     Normal match fetch net with
            | Response status => ok status
            | NetworkError | AbortError => false
            end).
Proof.
  unfold sendFetch, do_fetch, try_catch, bind, ret.
  destruct (fetch net) as [status| |]; simpl; try done.
  by destruct (ok status).
Qed.

Lemma sendBeacon_result cfg net events :
  sendBeacon' cfg net events =
    match sendBeacon net with
    | None => sendFetch cfg net events
    | Some b =>
        ([BeaconCall (reportUrl cfg) (formatPayload cfg events)],
         Normal match b with
                | BeaconReturns success => success
                | BeaconThrows => false
                end)
    end.
Proof.
  unfold sendBeacon'. destruct (sendBeacon net) as [[q|]|].
  - done.
  - done.
  - by rewrite sendFetch_result.
Qed.

Lemma report_result cfg net events :
  events ≠ [] →
  report cfg net events =
    match reportMethod cfg with
    | Some BEACON => sendBeacon' cfg net events
    | _ => sendFetch cfg net events
    end.
Proof.
  intros Hne. unfold report. destruct events as [|e events]; [done|].
  destruct (reportMethod cfg) as [[| |]|];
    rewrite ?sendBeacon_result, ?sendFetch_result; try done.
  destruct (sendBeacon net) as [[q|]|]; by rewrite ?sendFetch_result.
Qed.

End ReporterFacts.

(** C1, as stated, fails: a custom property named like a reserved field
    replaces the canonical value in the record sent on the wire. The event
    [Sample.shadowing_event] has [userId = 'alice'] and the custom property
    [user_id = 'mallory']; its record carries ['mallory']. *)
Lemma reserved_field_overwritten :
  ¬ (∀ (cfg : TrackerConfig) (events : list TrackEvent) (i : nat)
       (e : TrackEvent) (props : gmap string JsValue) (k : string)
       (r : gmap string JsValue),
       events !! i = Some e → properties e = Some props →
       k ∈ reserved_fields → is_Some (props !! k) →
       Reporter.wire_payload cfg events !! i = Some r →
       r !! k = Reporter.wire_record (Reporter.canonical cfg e) !! k).
Proof.
  intros H.
  pose proof (H (Sample.cfg BATCH 3) [Sample.shadowing_event] 0%nat
                Sample.shadowing_event {[ "user_id" := JStr "mallory" ]}
                "user_id"
                (Reporter.wire_record
                   (Reporter.formatEvent (Sample.cfg BATCH 3)
                      Sample.shadowing_event))
                eq_refl eq_refl) as H0.
  assert (Hreserved : "user_id" ∈ reserved_fields)
    by (unfold reserved_fields; set_solver).
  assert (Hcustom : is_Some
            (({[ "user_id" := JStr "mallory" ]} : gmap string JsValue)
               !! "user_id"))
    by (rewrite lookup_singleton_eq; eauto).
  specialize (H0 Hreserved Hcustom eq_refl).
  vm_compute in H0. discriminate H0.
Qed.

(** C1, amended: Object.assign copies the custom properties over the
    canonical fields, so for a reserved name that is also a custom property
    the per-event record carries the custom property's value. Among the
    fields [JSON.stringify] keeps, the field has that value, or is absent
    when the value is [undefined]; and when the batch can be serialised, the
    record in the request body has the JSON of that value there. *)
Theorem custom_property_wins (cfg : TrackerConfig) (events : list TrackEvent)
    (i : nat) (e : TrackEvent) (props : gmap string JsValue) (k : string)
    (v : JsValue) :
  events !! i = Some e → properties e = Some props →
  k ∈ reserved_fields → props !! k = Some v →
  ∃ r, Reporter.payload cfg events !! i = Some r ∧
       r !! k = Some v ∧
       Reporter.wire_payload cfg events !! i = Some (Reporter.wire_record r) ∧
       Reporter.wire_record r !! k =
         (if decide (v ≠ JUndefined) then Some v else None) ∧
       ∀ records,
         Reporter.formatPayload cfg events = RecordsBody records →
         ∃ record, records !! i = Some record ∧
                   record !! k = JSON.text v.
Proof.
  intros He Hprops _ Hk. exists (Reporter.formatEvent cfg e).
  assert (Hr : Reporter.formatEvent cfg e !! k = Some v).
  { rewrite formatEvent_lookup, Hprops. simpl. by rewrite Hk. }
  unfold Reporter.wire_payload, Reporter.payload.
  rewrite !list_lookup_fmap, He. simpl. repeat split; try done.
  - by rewrite wire_record_lookup, Hr.
  - intros records Hbody.
    destruct (formatPayload_records _ _ _ _ _ Hbody He)
      as (record & Hrec & Hstr).
    exists record. split; [done|].
    by rewrite (stringify_object_lookup _ _ k Hstr), Hr.
Qed.

Lemma custom_property_wins_witness :
  ∃ r, Reporter.payload (Sample.cfg BATCH 3) [Sample.shadowing_event]
         !! 0%nat = Some r ∧
       r !! "user_id" = Some (JStr "mallory") ∧
       Reporter.wire_payload (Sample.cfg BATCH 3) [Sample.shadowing_event]
         !! 0%nat = Some (Reporter.wire_record r) ∧
       Reporter.wire_record r !! "user_id" =
         (if decide (JStr "mallory" ≠ JUndefined) then Some (JStr "mallory")
          else None) ∧
       ∀ records,
         Reporter.formatPayload (Sample.cfg BATCH 3) [Sample.shadowing_event]
           = RecordsBody records →
         ∃ record, records !! 0%nat = Some record ∧
                   record !! "user_id" = JSON.text (JStr "mallory").
Proof.
  apply (custom_property_wins (Sample.cfg BATCH 3) [Sample.shadowing_event]
           0%nat Sample.shadowing_event {[ "user_id" := JStr "mallory" ]}).
  - reflexivity.
  - reflexivity.
  - unfold reserved_fields. set_solver.
  - vm_compute. reflexivity.
Defined.

(** C8: [report] never throws. Whatever the batch, the delivery mode and
    the network, it completes with a boolean; when a request was made with
    [fetch], a thrown network error, a timeout abort and a status outside
    200-299 each give [false] and a status inside gives [true]; when the
    beacon was used, a rejected or throwing [sendBeacon] gives [false]; and
    a batch that is not empty always leads to one of the two. *)
Theorem report_never_throws (cfg : TrackerConfig) (net : Reporter.Network)
    (events : list TrackEvent) :
  ∃ b : bool,
    Reporter.result (Reporter.report cfg net events) = Reporter.Normal b ∧
    let cs := Reporter.calls (Reporter.report cfg net events) in
    (used_fetch cs → Reporter.fetch net = Reporter.NetworkError → b = false) ∧
    (used_fetch cs → Reporter.fetch net = Reporter.AbortError → b = false) ∧
    (used_fetch cs → ∀ status, Reporter.fetch net = Reporter.Response status →
       ¬ (200 ≤ status ≤ 299) → b = false) ∧
    (used_fetch cs → ∀ status, Reporter.fetch net = Reporter.Response status →
       200 ≤ status ≤ 299 → b = true) ∧
    (used_beacon cs →
       Reporter.sendBeacon net = Some (Reporter.BeaconReturns false) →
       b = false) ∧
    (used_beacon cs → Reporter.sendBeacon net = Some Reporter.BeaconThrows →
       b = false) ∧
    (events ≠ [] → used_fetch cs ∨ used_beacon cs).
Proof.
  destruct events as [|e events].
  { exists true. simpl. unfold used_fetch, used_beacon.
    repeat split; try done; intros (? & H); repeat destruct H as (? & H);
      by apply elem_of_nil in H. }
  rewrite report_result by done.
  assert (Hfetch : ∀ b,
    Reporter.result (Reporter.sendFetch cfg net (e :: events)) = Reporter.Normal b →
    (Reporter.fetch net = Reporter.NetworkError → b = false) ∧
    (Reporter.fetch net = Reporter.AbortError → b = false) ∧
    (∀ status, Reporter.fetch net = Reporter.Response status →
       ¬ (200 ≤ status ≤ 299) → b = false) ∧
    (∀ status, Reporter.fetch net = Reporter.Response status →
       200 ≤ status ≤ 299 → b = true)).
  { intros b. rewrite sendFetch_result. simpl. intros [= <-].
    repeat split.
    - by intros ->.
    - by intros ->.
    - intros status -> Hs. unfold Reporter.ok. by rewrite bool_decide_eq_false.
    - intros status -> Hs. unfold Reporter.ok. by rewrite bool_decide_eq_true. }
  assert (Hno_beacon : ¬ used_beacon
            (Reporter.calls (Reporter.sendFetch cfg net (e :: events)))).
  { rewrite sendFetch_result. intros (url & body & H).
    apply list_elem_of_singleton in H. discriminate H. }
  assert (Hfetched : used_fetch
            (Reporter.calls (Reporter.sendFetch cfg net (e :: events)))).
  { rewrite sendFetch_result. do 4 eexists. by apply list_elem_of_singleton. }
  assert (Hvia_fetch : ∃ b,
    Reporter.result (Reporter.sendFetch cfg net (e :: events)) = Reporter.Normal b).
  { rewrite sendFetch_result. eauto. }
  destruct Hvia_fetch as [bf Hbf].
  destruct (reportMethod cfg) as [[| |]|];
    try (exists bf; split; [done|]; simpl;
         destruct (Hfetch bf Hbf) as (? & ? & ? & ?);
         repeat split; eauto; done).
  rewrite sendBeacon_result.
  destruct (Reporter.sendBeacon net) as [br|] eqn:Hbeacon.
  - exists (match br with
            | Reporter.BeaconReturns success => success
            | Reporter.BeaconThrows => false
            end).
    split; [done|]. simpl.
    assert (Hno_fetch : ¬ used_fetch
              [Reporter.BeaconCall (reportUrl cfg)
                 (Reporter.formatPayload cfg (e :: events))]).
    { intros (? & ? & ? & ? & H). apply list_elem_of_singleton in H.
      discriminate H. }
    repeat split; try (intros; by destruct Hno_fetch).
    + by intros _ [= ->].
    + by intros _ [= ->].
    + intros _. right. do 2 eexists. by apply list_elem_of_singleton.
  - exists bf. split; [done|]. simpl.
    destruct (Hfetch bf Hbf) as (? & ? & ? & ?).
    repeat split; eauto; done.
Qed.

Lemma report_never_throws_witness :
  Reporter.result
    (Reporter.report (Sample.cfg IMMEDIATE 10) Sample.network_down
       [Sample.event "a" 1]) = Reporter.Normal false.
Proof.
  destruct (report_never_throws (Sample.cfg IMMEDIATE 10) Sample.network_down
              [Sample.event "a" 1]) as (b & Hresult & Hneterr & _).
  rewrite Hresult. f_equal. apply Hneterr; [|reflexivity].
  rewrite report_result by done.
  change (reportMethod (Sample.cfg IMMEDIATE 10)) with (Some IMMEDIATE).
  cbv iota. rewrite sendFetch_result.
  do 4 eexists. apply list_elem_of_singleton. reflexivity.
Defined.

(** ** The pipeline *)

Section TrackerFacts.
Import ArgosTracker.

Lemma sendEvents_empty s : eventQueue s = [] → sendEvents s = s.
Proof. unfold sendEvents. by intros ->. Qed.

Lemma sendEvents_swap s :
  eventQueue s ≠ [] →
  sendEvents s =
    set_reports (reports s ++ [mkCall false (config s) (eventQueue s)])
      (set_awaiting (awaiting s ++ [mkCall false (config s) (eventQueue s)])
         (set_eventQueue [] s)).
Proof. unfold sendEvents. by destruct (eventQueue s). Qed.

Lemma fire_empty_queue id s s' :
  eventQueue s = [] → fire id s = Some s' →
  reports s' = reports s ∧ awaiting s' = awaiting s ∧
  storage s' = storage s ∧ eventQueue s' = [] ∧ delivered s' = delivered s.
Proof.
  intros Hq. unfold fire.
  destruct (list_find _ _) as [[j tm]|]; [|done].
  intros [= <-]. unfold run_callback.
  destruct (callback tm); rewrite sendEvents_empty by done; done.
Qed.

End TrackerFacts.

(** C5: in batch mode with batch size 3, three events enqueued in a row on
    an empty queue lead to exactly one [report] call, whose batch is those
    three events in the order they were enqueued. The timer the first
    enqueue armed stays armed, and when it (or any other timer) fires on the
    by then empty queue nothing is reported and nothing is written to the
    store. *)
Theorem batch_trigger (s : ArgosTracker.t) (e1 e2 e3 : TrackEvent) :
  reportMethod (ArgosTracker.config s) = Some BATCH →
  batchSize (ArgosTracker.config s) = Some 3 →
  ArgosTracker.eventQueue s = [] →
  let s3 :=
    ArgosTracker.addToQueue e3
      (ArgosTracker.addToQueue e2 (ArgosTracker.addToQueue e1 s)) in
  let call := ArgosTracker.mkCall false (ArgosTracker.config s) [e1; e2; e3] in
  ArgosTracker.reports s3 = ArgosTracker.reports s ++ [call] ∧
  ArgosTracker.awaiting s3 = ArgosTracker.awaiting s ++ [call] ∧
  ArgosTracker.eventQueue s3 = [] ∧
  ArgosTracker.storage s3 = ArgosTracker.storage s ∧
  (ArgosTracker.armed (ArgosTracker.batchTimer s) = false →
   0 < ArgosTracker.nextTimerId s →
   ArgosTracker.batchTimer s3 = Some (ArgosTracker.nextTimerId s) ∧
   ArgosTracker.timers s3 =
     ArgosTracker.timers s ++
       [ArgosTracker.mkTimer (ArgosTracker.nextTimerId s) ArgosTracker.BatchSend
          (or_num (batchInterval (ArgosTracker.config s)) 5000)]) ∧
  (∀ id s4, ArgosTracker.fire id s3 = Some s4 →
     ArgosTracker.reports s4 = ArgosTracker.reports s3 ∧
     ArgosTracker.awaiting s4 = ArgosTracker.awaiting s3 ∧
     ArgosTracker.storage s4 = ArgosTracker.storage s3 ∧
     ArgosTracker.eventQueue s4 = [] ∧
     ArgosTracker.delivered s4 = ArgosTracker.delivered s3).
Proof.
  intros Hmode Hsize Hqueue s3 call.
  assert (Hs3 : ArgosTracker.reports s3 = ArgosTracker.reports s ++ [call] ∧
                ArgosTracker.awaiting s3 = ArgosTracker.awaiting s ++ [call] ∧
                ArgosTracker.eventQueue s3 = [] ∧
                ArgosTracker.storage s3 = ArgosTracker.storage s ∧
                (ArgosTracker.armed (ArgosTracker.batchTimer s) = false →
                 0 < ArgosTracker.nextTimerId s →
                 ArgosTracker.batchTimer s3 = Some (ArgosTracker.nextTimerId s) ∧
                 ArgosTracker.timers s3 =
                   ArgosTracker.timers s ++
                     [ArgosTracker.mkTimer (ArgosTracker.nextTimerId s)
                        ArgosTracker.BatchSend
                        (or_num (batchInterval (ArgosTracker.config s)) 5000)])).
  { subst s3 call. destruct s as [cfg sto col q bt ini tms nxt hook aw rep del].
    simpl in *. subst q.
    unfold ArgosTracker.addToQueue, ArgosTracker.scheduleBatchSend,
      ArgosTracker.sendEvents, ArgosTracker.setTimeout. simpl.
    rewrite Hmode, Hsize. simpl.
    destruct (ArgosTracker.armed bt) eqn:Harmed; simpl.
    - rewrite Hmode, Hsize. simpl. rewrite Harmed. simpl.
      rewrite Hmode, Hsize. simpl. done.
    - rewrite Hmode, Hsize. simpl.
      destruct (decide (nxt = 0)) as [->|Hnxt]; simpl.
      + rewrite Hmode, Hsize. simpl. repeat split; try done; lia.
      + rewrite Hmode, Hsize. simpl. done. }
  destruct Hs3 as (Hrep & Haw & Hq & Hsto & Htimer).
  do 5 (split; [done|]).
  intros id s4 Hfire. exact (fire_empty_queue id s3 s4 Hq Hfire).
Qed.

(** ** Timers *)

Section TimerFacts.
Import ArgosTracker.

Lemma same_window_refl s : same_window s s.
Proof. done. Qed.

Lemma same_window_trans s1 s2 s3 :
  same_window s1 s2 → same_window s2 s3 → same_window s1 s3.
Proof. unfold same_window. intros (-> & -> & ->) (-> & -> & ->). done. Qed.

Lemma wf_same_window s s' : same_window s s' → wf s → wf s'.
Proof.
  intros (Ht & Hn & Hb) [H1 H2 H3 H4].
  split; unfold batch_timers in *; rewrite ?Ht, ?Hn, ?Hb; done.
Qed.

Lemma sendEvents_window s : same_window s (sendEvents s).
Proof. unfold sendEvents. by destruct (eventQueue s). Qed.

Lemma sendEvents_resume_window evs answer s :
  same_window s (sendEvents_resume evs answer s).
Proof. unfold sendEvents_resume. by destruct answer as [[|]|]; case_save. Qed.

Lemma handleBeforeUnload_window net s : same_window s (handleBeforeUnload net s).
Proof.
  unfold handleBeforeUnload. destruct (eventQueue s); [done|].
  by destruct (Reporter.result _) as [[|]|]; case_save.
Qed.

Lemma updateConfig_window p s : same_window s (updateConfig p s).
Proof. unfold updateConfig. by destruct (truthy_str _). Qed.

Lemma NoDup_fmap_filter {A B} (f : A → B) (P : A → Prop)
    `{!∀ x, Decision (P x)} (l : list A) :
  NoDup (f <$> l) → NoDup (f <$> filter P l).
Proof.
  intros Hnd. eapply sublist_NoDup; [exact Hnd|].
  apply fmap_sublist, sublist_filter.
Qed.

Lemma batch_timers_clearTimeout id s :
  batch_timers (clearTimeout id s) =
    filter (λ tm, timer_id tm ≠ id) (batch_timers s).
Proof.
  unfold batch_timers, clearTimeout. simpl.
  rewrite !list_filter_filter. apply list_filter_iff. intros tm. tauto.
Qed.

(** With distinct handles, a handle names one timer. *)
Lemma timer_id_inj s tm1 tm2 :
  NoDup (timer_id <$> timers s) → tm1 ∈ timers s → tm2 ∈ timers s →
  timer_id tm1 = timer_id tm2 → tm1 = tm2.
Proof.
  intros Hnd H1 H2 Hid.
  apply list_elem_of_lookup in H1 as [i Hi], H2 as [j Hj].
  assert (i = j) as ->; [|congruence].
  eapply NoDup_lookup; [exact Hnd| |].
  - rewrite list_lookup_fmap, Hi. done.
  - rewrite list_lookup_fmap, Hj. simpl. by rewrite Hid.
Qed.

Lemma wf_clearTimeout_other id s :
  wf s → (∀ tm, tm ∈ batch_timers s → timer_id tm ≠ id) →
  wf (clearTimeout id s).
Proof.
  intros [H1 H2 H3 H4] Hother. split; simpl.
  - done.
  - intros tm Htm. apply list_elem_of_filter in Htm as [_ Htm]. by apply H2.
  - by apply NoDup_fmap_filter.
  - change (match batchTimer s with
            | Some id0 => ∃ ms, batch_timers (clearTimeout id s)
                                  = [mkTimer id0 BatchSend ms]
            | None => batch_timers (clearTimeout id s) = []
            end).
    rewrite batch_timers_clearTimeout.
    destruct (batchTimer s) as [b|].
    + destruct H4 as [ms H4]. exists ms. rewrite H4 in *.
      rewrite filter_cons_True; [done|].
      apply Hother. by apply list_elem_of_singleton.
    + by rewrite H4.
Qed.

Lemma wf_clearTimeout_batch id s :
  wf s → batchTimer s = Some id →
  wf (set_batchTimer None (clearTimeout id s)).
Proof.
  intros [H1 H2 H3 H4] Hb. split; simpl.
  - done.
  - intros tm Htm. apply list_elem_of_filter in Htm as [_ Htm]. by apply H2.
  - by apply NoDup_fmap_filter.
  - change (batch_timers (clearTimeout id s) = []).
    rewrite batch_timers_clearTimeout. rewrite Hb in H4.
    destruct H4 as [ms ->]. rewrite filter_cons_False; [done|].
    simpl. tauto.
Qed.

Lemma wf_setTimeout cb ms s :
  wf s → cb = RestoreSend ∨ batchTimer s = None →
  wf (set_batchTimer
        (match cb with
         | BatchSend => Some (nextTimerId s)
         | RestoreSend => batchTimer s
         end) (setTimeout cb ms s).2).
Proof.
  intros [H1 H2 H3 H4] Hcb. split; simpl.
  - lia.
  - intros tm Htm. apply elem_of_app in Htm as [Htm|Htm].
    + apply H2 in Htm. lia.
    + apply list_elem_of_singleton in Htm as ->. simpl. lia.
  - rewrite fmap_app. apply NoDup_app. split; [done|]. split.
    + intros x Hx Hx'. apply list_elem_of_singleton in Hx' as ->.
      apply list_elem_of_fmap in Hx as (tm & Hid & Htm).
      apply H2 in Htm. simpl in Hid. lia.
    + apply NoDup_singleton.
  - unfold batch_timers. simpl. rewrite filter_app.
    fold (batch_timers s). destruct cb.
    + destruct Hcb as [?|Hb]; [done|]. rewrite Hb in H4. rewrite H4.
      exists ms. by rewrite filter_cons_True.
    + rewrite filter_cons_False by done. rewrite filter_nil, app_nil_r. done.
Qed.

Lemma wf_armed s : wf s → armed (batchTimer s) = false → batchTimer s = None.
Proof.
  intros [H1 H2 H3 H4]. unfold armed.
  destruct (batchTimer s) as [id|]; [|done].
  case_decide as Hid; [|done]. subst id. intros _.
  destruct H4 as [ms H4].
  assert (Hin : mkTimer 0 BatchSend ms ∈ timers s).
  { eapply list_elem_of_filter. unfold batch_timers in H4. rewrite H4.
    by apply list_elem_of_singleton. }
  apply H2 in Hin. simpl in Hin. lia.
Qed.

Lemma wf_scheduleBatchSend s : wf s → wf (scheduleBatchSend s).
Proof.
  intros Hwf. unfold scheduleBatchSend.
  destruct (armed (batchTimer s)) eqn:Harmed; [done|].
  apply wf_armed in Harmed; [|done].
  apply (wf_setTimeout BatchSend _ s Hwf). by right.
Qed.

Lemma wf_set_eventQueue q s : wf s → wf (set_eventQueue q s).
Proof. by apply wf_same_window. Qed.

Lemma wf_set_storage v s : wf s → wf (set_storage v s).
Proof. by apply wf_same_window. Qed.

Lemma wf_set_collector v s : wf s → wf (set_collector v s).
Proof. by apply wf_same_window. Qed.

Lemma wf_addToQueue e s : wf s → wf (addToQueue e s).
Proof.
  intros Hwf. unfold addToQueue.
  pose proof (wf_set_eventQueue (eventQueue s ++ [e]) s Hwf) as Hwf1.
  destruct (reportMethod _) as [[| |]|]; try done.
  - by apply (wf_same_window _ _ (sendEvents_window _)).
  - case_bool_decide.
    + by apply (wf_same_window _ _ (sendEvents_window _)).
    + by apply wf_scheduleBatchSend.
Qed.

Lemma wf_trackEvent page e s : wf s → wf (trackEvent page e s).
Proof.
  intros Hwf. unfold trackEvent. destruct (negb (isInitialized s)); [done|].
  destruct (if truthy_str (userId e) then _ else _) as [uid sto].
  by apply wf_addToQueue, wf_set_storage.
Qed.

Lemma wf_cancelBatchTimer s : wf s → wf (cancelBatchTimer s).
Proof.
  intros Hwf. unfold cancelBatchTimer.
  destruct (batchTimer s) as [id|] eqn:Hb; [|done].
  destruct (armed (Some id)); [|done]. by apply wf_clearTimeout_batch.
Qed.

Lemma wf_flush s : wf s → wf (flush s).
Proof.
  intros Hwf. unfold flush.
  by apply (wf_same_window _ _ (sendEvents_window _)), wf_cancelBatchTimer.
Qed.

Lemma wf_fire id s s' : wf s → fire id s = Some s' → wf s'.
Proof.
  intros Hwf. unfold fire.
  destruct (list_find _ _) as [[j tm]|] eqn:Hfind; [|done].
  intros [= <-]. apply list_find_Some in Hfind as (Hj & Hid & _).
  apply list_elem_of_lookup_2 in Hj.
  unfold run_callback. destruct (callback tm) eqn:Hcb.
  - assert (Htm : tm ∈ batch_timers s) by by apply list_elem_of_filter.
    assert (Hb : batchTimer s = Some id).
    { destruct Hwf as [_ _ _ H4]. destruct (batchTimer s) as [b|].
      - destruct H4 as [ms H4]. rewrite H4 in Htm.
        apply list_elem_of_singleton in Htm. subst tm. simpl in Hid.
        by subst.
      - rewrite H4 in Htm. by apply elem_of_nil in Htm. }
    pose proof (wf_clearTimeout_batch id s Hwf Hb) as Hwf'.
    eapply wf_same_window; [|exact Hwf'].
    destruct (sendEvents_window (clearTimeout id s)) as (? & ? & ?).
    by split.
  - apply (wf_same_window _ _ (sendEvents_window _)).
    apply wf_clearTimeout_other; [done|].
    intros tm' Htm' Hid'. apply list_elem_of_filter in Htm' as [Hcb' Htm'].
    assert (tm' = tm); [|congruence].
    apply (timer_id_inj s); [apply (wf_nodup _ Hwf)|done|done|congruence].
Qed.

Lemma wf_settle i net s s' : wf s → settle i net s = Some s' → wf s'.
Proof.
  intros Hwf. unfold settle. destruct (awaiting s !! i); [|done].
  intros [= <-]. apply (wf_same_window _ _ (sendEvents_resume_window _ _ _)).
  by apply (wf_same_window s).
Qed.

Lemma wf_destroy s : wf s → wf (destroy s).
Proof.
  intros Hwf. unfold destroy.
  apply (wf_same_window
           (flush (cancelBatchTimer
                     (set_collector (AutoCollector.stop (collector s)) s))));
    [done|].
  by apply wf_flush, wf_cancelBatchTimer, wf_set_collector.
Qed.

Lemma wf_step l s s' : wf s → step l s = Some s' → wf s'.
Proof.
  intros Hwf. destruct l; simpl.
  - intros [= <-]. by apply wf_trackEvent.
  - intros [= <-]. by apply wf_trackEvent.
  - intros [= <-]. by apply wf_trackEvent.
  - intros [= <-]. by apply wf_trackEvent.
  - intros [= <-]. by apply wf_trackEvent, wf_set_storage.
  - intros [= <-]. by apply wf_trackEvent, wf_set_storage.
  - intros [= <-]. unfold getUserId.
    destruct (StorageManager.getUserId _). by apply wf_set_storage.
  - intros [= <-]. by apply wf_set_storage.
  - intros [= <-]. by apply wf_flush.
  - intros [= <-]. by apply (wf_same_window _ _ (updateConfig_window _ _)).
  - intros [= <-]. by apply wf_destroy.
  - destruct (AutoCollector.pageViewHooked _); [|done].
    destruct (AutoCollector.handleHistoryChange _ _) as [c [e|]];
      intros [= <-].
    + by apply wf_trackEvent, wf_set_collector.
    + by apply wf_set_collector.
  - destruct (_ || _); [|done]. intros [= <-]. by apply wf_trackEvent.
  - by apply wf_fire.
  - by apply wf_settle.
  - destruct (unloadHooked s); [|done]. intros [= <-].
    by apply (wf_same_window _ _ (handleBeforeUnload_window _ _)).
Qed.

Lemma wf_run ls s s' : wf s → run ls s = Some s' → wf s'.
Proof.
  revert s. induction ls as [|l ls IH]; simpl; intros s Hwf.
  - by intros [= <-].
  - destruct (step l s) as [s1|] eqn:Hstep; [|done].
    apply IH. by eapply wf_step.
Qed.

Lemma wf_restorePendingEvents s : wf s → wf (restorePendingEvents s).
Proof.
  intros Hwf. unfold restorePendingEvents.
  destruct (StorageManager.getPendingEvents _) as [[|e0 pending]|];
    [done| |done].
  pose proof (wf_setTimeout RestoreSend 1000
    (set_storage
       (StorageManager.clearPendingEvents
          (storage (set_eventQueue (eventQueue s ++ e0 :: pending) s)))
       (set_eventQueue (eventQueue s ++ e0 :: pending) s))) as H.
  eapply wf_same_window; [|apply H].
  - done.
  - by apply wf_set_storage, wf_set_eventQueue.
  - by left.
Qed.

Lemma wf_init page s : wf s → wf (init page s).
Proof.
  intros Hwf. unfold init. destruct (isInitialized s); [done|].
  destruct (AutoCollector.start _ _ _) as [c ev].
  eapply wf_same_window; [|apply wf_restorePendingEvents]; [done|].
  eapply wf_same_window with (s := match ev with
                                   | Some e => _ | None => _ end); [done|].
  destruct ev as [e|].
  - apply wf_trackEvent, wf_set_collector.
    destruct (truthy_str _); [by apply wf_set_storage|done].
  - apply wf_set_collector.
    destruct (truthy_str _); [by apply wf_set_storage|done].
Qed.

Lemma wf_new cfg uuid ls page : wf (new cfg uuid ls page).
Proof.
  unfold new. apply wf_init. split; simpl; try done.
  - intros tm Htm. by apply elem_of_nil in Htm.
  - constructor.
Qed.

End TimerFacts.

(** ** The history of flushes *)

Section HistoryFacts.
Import ArgosTracker.

Lemma extends_by_refl s : extends_by s s [] [].
Proof. split; simpl; by rewrite app_nil_r. Qed.

Lemma extends_by_same s s' :
  reports s' = reports s → eventQueue s' = eventQueue s →
  extends_by s s' [] [].
Proof.
  intros Hr Hq. split; unfold flushes; rewrite ?Hr, ?Hq; simpl;
    by rewrite app_nil_r.
Qed.

Lemma extends_by_trans s1 s2 s3 n1 a1 n2 a2 :
  extends_by s1 s2 n1 a1 → extends_by s2 s3 n2 a2 →
  extends_by s1 s3 (n1 ++ n2) (a1 ++ a2).
Proof.
  intros [Hf1 Hq1] [Hf2 Hq2]. split.
  - by rewrite Hf2, Hf1, app_assoc.
  - unfold batches in *. rewrite fmap_app, concat_app, <-app_assoc, Hq2.
    by rewrite !app_assoc, Hq1.
Qed.

Lemma extends_by_sendEvents s :
  extends_by s (sendEvents s)
    (match eventQueue s with
     | [] => []
     | _ => [mkCall false (config s) (eventQueue s)]
     end) [].
Proof.
  unfold sendEvents. destruct (eventQueue s) as [|e q] eqn:Hq.
  - split; simpl; by rewrite ?Hq, app_nil_r.
  - split; unfold flushes; simpl.
    + rewrite filter_app. f_equal.
    + rewrite Hq. unfold batches. simpl. by rewrite !app_nil_r.
Qed.

Lemma extends_by_addToQueue e s :
  ∃ new, extends_by s (addToQueue e s) new [e].
Proof.
  unfold addToQueue.
  set (s1 := set_eventQueue (eventQueue s ++ [e]) s).
  assert (H1 : extends_by s s1 [] [e]) by (split; simpl; by rewrite ?app_nil_r).
  assert (Hsend : ∃ new, extends_by s (sendEvents s1) new [e]).
  { eexists. eapply (extends_by_trans _ _ _ [] [e] _ []); [exact H1|].
    apply extends_by_sendEvents. }
  destruct (reportMethod (config s1)) as [[| |]|]; try done; try by eexists.
  case_bool_decide; [done|]. exists [].
  apply (extends_by_trans _ _ _ [] [e] [] [] H1).
  apply extends_by_same; unfold scheduleBatchSend;
    by destruct (armed (batchTimer s1)).
Qed.

(** [trackEvent] is [addToQueue] of the completed event. *)
Lemma extends_by_trackEvent page e s :
  ∃ new, extends_by s (trackEvent page e s) new (tracked page e s).
Proof.
  unfold trackEvent, tracked, fullEvent. destruct (isInitialized s); simpl.
  2: { exists []. apply extends_by_refl. }
  destruct (if truthy_str (userId e) then _ else _) as [uid sto].
  match goal with |- context [addToQueue ?fe ?s0] =>
    destruct (extends_by_addToQueue fe s0) as [new Hnew];
    exists new end.
  exact Hnew.
Qed.

Lemma extends_by_cancelBatchTimer s : extends_by s (cancelBatchTimer s) [] [].
Proof.
  apply extends_by_same; unfold cancelBatchTimer;
    destruct (batchTimer s); try done; by destruct (armed _).
Qed.

Lemma extends_by_flush s : ∃ new, extends_by s (flush s) new [].
Proof.
  eexists. unfold flush.
  eapply (extends_by_trans _ _ _ [] [] _ []).
  - apply extends_by_cancelBatchTimer.
  - apply extends_by_sendEvents.
Qed.

Lemma flush_queue s : eventQueue (flush s) = [].
Proof.
  unfold flush, sendEvents.
  by destruct (eventQueue (cancelBatchTimer s)) eqn:Hq.
Qed.

(** What a step does to the history: the events it enqueues, and no
    others, join the queue or a new flush. *)
Lemma extends_by_step l s s' :
  step l s = Some s' → ∃ new, extends_by s s' new (enqueued l s).
Proof.
  destruct l; simpl.
  - intros [= <-]. apply extends_by_trackEvent.
  - intros [= <-]. apply extends_by_trackEvent.
  - intros [= <-]. apply extends_by_trackEvent.
  - intros [= <-]. apply extends_by_trackEvent.
  - intros [= <-]. apply (extends_by_trackEvent _ _ (set_storage _ s)).
  - intros [= <-]. apply (extends_by_trackEvent _ _ (set_storage _ s)).
  - intros [= <-]. exists []. unfold getUserId.
    destruct (StorageManager.getUserId _). by apply extends_by_same.
  - intros [= <-]. exists []. by apply extends_by_same.
  - intros [= <-]. apply extends_by_flush.
  - intros [= <-]. exists []. apply extends_by_same;
      unfold updateConfig; by destruct (truthy_str _).
  - intros [= <-]. unfold destroy.
    destruct (extends_by_flush
                (cancelBatchTimer
                   (set_collector (AutoCollector.stop (collector s)) s)))
      as [new H].
    exists new.
    eapply (extends_by_trans s _ _ [] [] new []); [|exact H].
    exact (extends_by_cancelBatchTimer
             (set_collector (AutoCollector.stop (collector s)) s)).
  - destruct (AutoCollector.pageViewHooked _); [|done].
    destruct (AutoCollector.handleHistoryChange _ _) as [c [e|]];
      intros [= <-].
    + apply (extends_by_trackEvent _ _ (set_collector _ s)).
    + exists []. by apply extends_by_same.
  - destruct (_ || _); [|done]. intros [= <-]. apply extends_by_trackEvent.
  - unfold fire. destruct (list_find _ _) as [[j tm]|]; [|done].
    intros [= <-]. eexists. unfold run_callback.
    destruct (callback tm).
    + apply (extends_by_sendEvents (clearTimeout id s)).
    + apply (extends_by_sendEvents (clearTimeout id s)).
  - unfold settle. destruct (awaiting s !! i); [|done]. intros [= <-].
    exists []. apply extends_by_same; unfold sendEvents_resume;
      by destruct (Reporter.result _) as [[|]|]; case_save.
  - destruct (unloadHooked s); [|done]. intros [= <-]. exists [].
    unfold handleBeforeUnload. destruct (eventQueue s) as [|e q] eqn:Hq.
    { apply extends_by_refl. }
    split; unfold flushes.
    + destruct (Reporter.result _) as [[|]|]; case_save;
        rewrite filter_app, filter_cons_False by done; done.
    + destruct (Reporter.result _) as [[|]|]; case_save; by rewrite app_nil_r.
Qed.

Lemma extends_by_run ls s s' :
  run ls s = Some s' → ∃ new, extends_by s s' new (enqueued_run ls s).
Proof.
  revert s. induction ls as [|l ls IH]; simpl; intros s.
  - intros [= <-]. exists []. apply extends_by_refl.
  - destruct (step l s) as [s1|] eqn:Hstep; [|done]. intros Hrun.
    destruct (extends_by_step _ _ _ Hstep) as (n1 & H1).
    destruct (IH _ Hrun) as (n2 & H2).
    exists (n1 ++ n2). by eapply extends_by_trans.
Qed.

(** An element of a concatenation lies in exactly one of the lists. *)
Lemma concat_split {A} (ls : list (list A)) a x b :
  concat ls = a ++ x :: b →
  ∃ l1 l l2 pre post,
    ls = l1 ++ l :: l2 ∧ l = pre ++ x :: post ∧
    concat l1 ++ pre = a ∧ post ++ concat l2 = b.
Proof.
  revert a. induction ls as [|l ls IH]; intros a; simpl.
  { by destruct a. }
  intros [(k & Hl & Hk)|(k & Ha & Hk)]%app_eq_inv.
  - destruct k as [|y k].
    + simpl in Hk. symmetry in Hk.
      destruct (IH [] Hk)
        as (l1 & l0 & l2 & pre & post & -> & -> & Hpre & Hpost).
      exists (l :: l1), (pre ++ x :: post), l2, pre, post. simpl.
      split; [done|]. split; [done|]. split; [|done].
      rewrite <- app_assoc, Hpre, Hl. by rewrite !app_nil_r.
    + simpl in Hk. injection Hk as <- ->.
      by exists [], l, ls, a, k.
  - destruct (IH k Hk)
      as (l1 & l0 & l2 & pre & post & -> & -> & Hpre & Hpost).
    exists (l :: l1), (pre ++ x :: post), l2, pre, post. simpl.
    split; [done|]. split; [done|]. split; [|done].
    by rewrite <- app_assoc, Hpre.
Qed.

End HistoryFacts.

Section QueueFacts.
Import ArgosTracker.

Lemma addToQueue_awaiting e s :
  ∃ more, awaiting (addToQueue e s) = awaiting s ++ more.
Proof.
  unfold addToQueue.
  set (s1 := set_eventQueue (eventQueue s ++ [e]) s).
  assert (Hsend : ∃ more, awaiting (sendEvents s1) = awaiting s ++ more).
  { unfold sendEvents. destruct (eventQueue s1).
    - exists []. by rewrite app_nil_r.
    - by eexists. }
  destruct (reportMethod (config s1)) as [[| |]|]; try done;
    try (exists []; by rewrite app_nil_r).
  case_bool_decide; [done|]. exists []. rewrite app_nil_r.
  unfold scheduleBatchSend. by destruct (armed (batchTimer s1)).
Qed.

Lemma scheduleBatchSend_armed s :
  armed (batchTimer s) = true → scheduleBatchSend s = s.
Proof. unfold scheduleBatchSend. by intros ->. Qed.

Lemma addToQueue_below e s :
  reportMethod (config s) = Some BATCH →
  Z.of_nat (length (eventQueue s) + 1) < or_num (batchSize (config s)) 10 →
  addToQueue e s = scheduleBatchSend (set_eventQueue (eventQueue s ++ [e]) s).
Proof.
  intros Hmode Hlen. unfold addToQueue. simpl. rewrite Hmode.
  rewrite bool_decide_eq_false_2; [done|]. rewrite length_app. simpl. lia.
Qed.

(** Enqueues below the threshold while the batch timer is armed arm
    nothing. *)
Lemma enqueue_armed events s :
  reportMethod (config s) = Some BATCH →
  armed (batchTimer s) = true →
  Z.of_nat (length (eventQueue s) + length events)
    < or_num (batchSize (config s)) 10 →
  let s' := foldl (λ st e, addToQueue e st) s events in
  timers s' = timers s ∧ batchTimer s' = batchTimer s ∧
  eventQueue s' = eventQueue s ++ events ∧ reports s' = reports s.
Proof.
  revert s. induction events as [|e events IH]; intros s Hmode Harmed Hlen.
  { simpl. by rewrite app_nil_r. }
  simpl in *. rewrite addToQueue_below by (done || lia).
  rewrite scheduleBatchSend_armed by done.
  destruct (IH (set_eventQueue (eventQueue s ++ [e]) s)) as (Ht & Hb & Hq & Hr);
    try done.
  { simpl. rewrite length_app. simpl. lia. }
  simpl in *. rewrite Ht, Hb, Hq, Hr, <-app_assoc. done.
Qed.

End QueueFacts.

(** C2: a flush swaps the queue for an empty one and hands exactly the
    events queued at that moment to [report], the batch in flight. Take any
    run of the tracker from there, an enqueue of [e] by [addToQueue] at any
    point of it, and any run after that, to a state [s']. The enqueue
    changes no awaited call. In [s'] the flush is still in the history with
    the batch it was given, followed by [later] flushes, and the batches of
    the later flushes followed by the queue are exactly the events enqueued
    since the swap, each once and in the order of their enqueues. So the
    occurrence of [e] is in the batch of exactly one later flush, or still
    queued. Whenever the call in flight settles, what is recorded as
    delivered for it is the batch of the swap, or nothing. And after one
    more [flush] nothing is queued and the occurrence of [e] is in the batch
    of exactly one flush [call] after the one in flight, all other events of
    the later batches being the other events enqueued since the swap. *)
Theorem swap_safety (s : ArgosTracker.t) (e : TrackEvent)
    (before after : list ArgosTracker.Label) (s2 s' : ArgosTracker.t) :
  ArgosTracker.eventQueue s ≠ [] →
  ArgosTracker.run before (ArgosTracker.sendEvents s) = Some s2 →
  ArgosTracker.run after (ArgosTracker.addToQueue e s2) = Some s' →
  let flight :=
    ArgosTracker.mkCall false (ArgosTracker.config s)
      (ArgosTracker.eventQueue s) in
  let earlier := ArgosTracker.enqueued_run before (ArgosTracker.sendEvents s) in
  let afterwards :=
    ArgosTracker.enqueued_run after (ArgosTracker.addToQueue e s2) in
  ArgosTracker.eventQueue (ArgosTracker.sendEvents s) = [] ∧
  ArgosTracker.awaiting (ArgosTracker.sendEvents s)
    = ArgosTracker.awaiting s ++ [flight] ∧
  (∃ more, ArgosTracker.awaiting (ArgosTracker.addToQueue e s2)
             = ArgosTracker.awaiting s2 ++ more) ∧
  (∃ later,
     ArgosTracker.flushes s' = ArgosTracker.flushes s ++ flight :: later ∧
     ArgosTracker.batches later ++ ArgosTracker.eventQueue s'
       = earlier ++ e :: afterwards) ∧
  (∀ (i : nat) (net : Reporter.Network),
     ArgosTracker.awaiting s' !! i = Some flight →
     ∃ s3, ArgosTracker.settle i net s' = Some s3 ∧
           ArgosTracker.delivered s3 =
             ArgosTracker.delivered s' ++
               match Reporter.result
                       (Reporter.report (ArgosTracker.config s) net
                          (ArgosTracker.eventQueue s)) with
               | Reporter.Normal true => [ArgosTracker.eventQueue s]
               | _ => []
               end) ∧
  ArgosTracker.eventQueue (ArgosTracker.flush s') = [] ∧
  ∃ calls call calls' pre post,
    ArgosTracker.flushes (ArgosTracker.flush s')
      = ArgosTracker.flushes s ++ flight :: calls ++ call :: calls' ∧
    ArgosTracker.call_events call = pre ++ e :: post ∧
    ArgosTracker.batches calls ++ pre = earlier ∧
    post ++ ArgosTracker.batches calls' = afterwards.
Proof.
  intros Hq Hrun1 Hrun2 flight earlier afterwards.
  assert (H0 : ArgosTracker.extends_by s (ArgosTracker.sendEvents s)
                 [flight] []).
  { pose proof (extends_by_sendEvents s) as H0. subst flight.
    by destruct (ArgosTracker.eventQueue s). }
  assert (Hswap : ArgosTracker.eventQueue (ArgosTracker.sendEvents s) = [] ∧
                  ArgosTracker.awaiting (ArgosTracker.sendEvents s)
                    = ArgosTracker.awaiting s ++ [flight]).
  { by rewrite (sendEvents_swap s Hq). }
  destruct Hswap as [Hq0 Ha0].
  destruct (extends_by_run _ _ _ Hrun1) as (n1 & H1).
  destruct (extends_by_addToQueue e s2) as (n2 & H2).
  destruct (extends_by_run _ _ _ Hrun2) as (n3 & H3).
  destruct (extends_by_flush s') as (n4 & H4).
  fold earlier in H1. fold afterwards in H3.
  pose proof (extends_by_trans _ _ _ _ _ _ _
                (extends_by_trans _ _ _ _ _ _ _
                   (extends_by_trans _ _ _ _ _ _ _ H0 H1) H2) H3) as H.
  pose proof (extends_by_trans _ _ _ _ _ _ _ H H4) as [Hf' Hb'].
  destruct H as [Hf Hb].
  pose proof (flush_queue s') as Hempty.
  clearbody earlier afterwards.
  unfold ArgosTracker.batches in *.
  rewrite !fmap_app, !concat_app in Hb, Hb'. simpl in Hb, Hb'.
  rewrite Hempty in Hb'.
  rewrite !app_nil_r, <- !app_assoc in Hb, Hb'. simpl in Hb, Hb'.
  apply app_inv_head in Hb, Hb'.
  split; [done|]. split; [done|].
  split; [apply addToQueue_awaiting|].
  split.
  { exists (n1 ++ n2 ++ n3). split.
    - rewrite Hf. by rewrite <- !app_assoc.
    - rewrite !fmap_app, !concat_app, <- !app_assoc. exact Hb. }
  split.
  { intros i net Hi. unfold ArgosTracker.settle. rewrite Hi.
    eexists. split; [done|]. simpl. unfold ArgosTracker.sendEvents_resume.
    destruct (Reporter.result _) as [[|]|]; case_save;
      by rewrite ?app_nil_r. }
  split; [exact Hempty|].
  assert (Hall : concat (ArgosTracker.call_events <$> n1 ++ n2 ++ n3 ++ n4)
                 = earlier ++ e :: afterwards).
  { rewrite !fmap_app, !concat_app. etrans; [exact Hb'|].
    by rewrite app_nil_r, <- app_assoc. }
  destruct (concat_split _ _ _ _ Hall)
    as (calls0 & batch & calls0' & pre & post & Hsplit & Hbatch & Hpre & Hpost).
  apply fmap_app_inv in Hsplit as (calls & rest & -> & Hrest & Hcalls).
  symmetry in Hrest. apply fmap_cons_inv in Hrest
    as (call & calls' & -> & -> & ->).
  exists calls, call, calls', pre, post.
  split; [|done].
  rewrite Hf'. rewrite <- !app_assoc. simpl. do 2 f_equal.
  exact Hcalls.
Qed.

Lemma swap_safety_witness :
  let s :=
    ArgosTracker.addToQueue (Sample.event "a" 1) (Sample.tracker BEACON 10) in
  let s2 := ArgosTracker.track (Sample.page 2) "b" None
              (ArgosTracker.sendEvents s) in
  let e := Sample.event "c" 3 in
  let s' := ArgosTracker.flush (ArgosTracker.addToQueue e s2) in
  let flight :=
    ArgosTracker.mkCall false (ArgosTracker.config s)
      (ArgosTracker.eventQueue s) in
  ArgosTracker.eventQueue s ≠ [] ∧
  ArgosTracker.run [ArgosTracker.Track (Sample.page 2) "b" None]
    (ArgosTracker.sendEvents s) = Some s2 ∧
  ArgosTracker.run [ArgosTracker.Flush] (ArgosTracker.addToQueue e s2)
    = Some s' ∧
  ∃ later,
    ArgosTracker.flushes s' = ArgosTracker.flushes s ++ flight :: later ∧
    ArgosTracker.batches later ++ ArgosTracker.eventQueue s'
      = ArgosTracker.enqueued_run
          [ArgosTracker.Track (Sample.page 2) "b" None]
          (ArgosTracker.sendEvents s)
        ++ e :: ArgosTracker.enqueued_run [ArgosTracker.Flush]
                  (ArgosTracker.addToQueue e s2).
Proof.
  intros s s2 e s' flight.
  assert (Hq : ArgosTracker.eventQueue s ≠ [])
    by (intros H; vm_compute in H; discriminate H).
  assert (Hrun1 : ArgosTracker.run
                    [ArgosTracker.Track (Sample.page 2) "b" None]
                    (ArgosTracker.sendEvents s) = Some s2)
    by by vm_compute.
  assert (Hrun2 : ArgosTracker.run [ArgosTracker.Flush]
                    (ArgosTracker.addToQueue e s2) = Some s')
    by by vm_compute.
  do 3 (split; [done|]).
  exact (proj1 (proj2 (proj2 (proj2
           (swap_safety s e [ArgosTracker.Track (Sample.page 2) "b" None]
              [ArgosTracker.Flush] s2 s' Hq Hrun1 Hrun2))))).
Defined.

(** C9: in every state a tracker can reach, at most one batch timer is
    armed. And arming is idempotent: in batch mode, when none is armed, a
    run of enqueues that stays below the batch size arms exactly one timer,
    the first enqueue's, and reports nothing. *)
Theorem single_batch_timer (cfg : TrackerConfig) (uuid : string)
    (ls : option StorageManager.LocalStorage) (page : Page)
    (labels : list ArgosTracker.Label) (s : ArgosTracker.t) :
  ArgosTracker.run labels (ArgosTracker.new cfg uuid ls page) = Some s →
  (length (ArgosTracker.batch_timers s) ≤ 1)%nat ∧
  ∀ events : list TrackEvent,
    reportMethod (ArgosTracker.config s) = Some BATCH →
    ArgosTracker.batch_timers s = [] →
    events ≠ [] →
    Z.of_nat (length (ArgosTracker.eventQueue s) + length events)
      < or_num (batchSize (ArgosTracker.config s)) 10 →
    let s' := foldl (λ st e, ArgosTracker.addToQueue e st) s events in
    ArgosTracker.timers s' =
      ArgosTracker.timers s ++
        [ArgosTracker.mkTimer (ArgosTracker.nextTimerId s)
           ArgosTracker.BatchSend
           (or_num (batchInterval (ArgosTracker.config s)) 5000)] ∧
    ArgosTracker.batchTimer s' = Some (ArgosTracker.nextTimerId s) ∧
    ArgosTracker.eventQueue s' = ArgosTracker.eventQueue s ++ events ∧
    ArgosTracker.reports s' = ArgosTracker.reports s.
Proof.
  intros Hrun.
  assert (Hwf : ArgosTracker.wf s) by (eapply wf_run; [apply wf_new|exact Hrun]).
  split.
  { destruct Hwf as [_ _ _ H4].
    destruct (ArgosTracker.batchTimer s); [destruct H4 as [ms ->]|rewrite H4];
      simpl; lia. }
  intros events Hmode Hnone Hne Hlen.
  destruct events as [|e events]; [done|]. simpl.
  assert (Hb : ArgosTracker.batchTimer s = None).
  { destruct Hwf as [_ _ _ H4]. destruct (ArgosTracker.batchTimer s); [|done].
    destruct H4 as [ms H4]. rewrite Hnone in H4. discriminate H4. }
  rewrite addToQueue_below by (done || simpl in Hlen; lia).
  set (s1 := ArgosTracker.scheduleBatchSend _).
  assert (Hs1 :
    ArgosTracker.timers s1 =
      ArgosTracker.timers s ++
        [ArgosTracker.mkTimer (ArgosTracker.nextTimerId s)
           ArgosTracker.BatchSend
           (or_num (batchInterval (ArgosTracker.config s)) 5000)] ∧
    ArgosTracker.batchTimer s1 = Some (ArgosTracker.nextTimerId s) ∧
    ArgosTracker.eventQueue s1 = ArgosTracker.eventQueue s ++ [e] ∧
    ArgosTracker.reports s1 = ArgosTracker.reports s ∧
    ArgosTracker.config s1 = ArgosTracker.config s).
  { unfold s1, ArgosTracker.scheduleBatchSend. simpl. rewrite Hb. done. }
  destruct Hs1 as (Ht1 & Hb1 & Hq1 & Hr1 & Hc1).
  destruct (enqueue_armed events s1) as (Ht & Hbt & Hq & Hr).
  - by rewrite Hc1.
  - rewrite Hb1. simpl. pose proof (ArgosTracker.wf_next s Hwf).
    case_decide; [lia|done].
  - rewrite Hc1, Hq1, length_app. simpl in *. lia.
  - simpl in Ht, Hbt, Hq, Hr.
    rewrite Ht, Hbt, Hq, Hr, Ht1, Hb1, Hq1, Hr1, <-app_assoc. done.
Qed.

Lemma single_batch_timer_witness :
  let s := Sample.tracker BATCH 10 in
  let s' :=
    foldl (λ st e, ArgosTracker.addToQueue e st) s
      [Sample.event "a" 1; Sample.event "b" 2; Sample.event "c" 3] in
  ArgosTracker.run [] (Sample.tracker BATCH 10) = Some s ∧
  (length (ArgosTracker.batch_timers s) ≤ 1)%nat ∧
  ArgosTracker.timers s' =
    ArgosTracker.timers s ++
      [ArgosTracker.mkTimer (ArgosTracker.nextTimerId s) ArgosTracker.BatchSend
         (or_num (batchInterval (ArgosTracker.config s)) 5000)].
Proof.
  intros s s'. split; [reflexivity|].
  destruct (single_batch_timer (Sample.cfg BATCH 10) "uuid-1"
              (Some Sample.empty_store) (Sample.page 0) [] s eq_refl)
    as [Hone Harm].
  split; [exact Hone|].
  refine (proj1 (Harm [Sample.event "a" 1; Sample.event "b" 2;
                       Sample.event "c" 3] eq_refl eq_refl _ _)).
  - discriminate.
  - vm_compute. reflexivity.
Defined.

Lemma batch_trigger_witness :
  let s := Sample.tracker BATCH 3 in
  let s3 :=
    ArgosTracker.addToQueue (Sample.event "c" 3)
      (ArgosTracker.addToQueue (Sample.event "b" 2)
         (ArgosTracker.addToQueue (Sample.event "a" 1) s)) in
  (reportMethod (ArgosTracker.config s) = Some BATCH ∧
   batchSize (ArgosTracker.config s) = Some 3 ∧
   ArgosTracker.eventQueue s = []) ∧
  ArgosTracker.reports s3 =
    ArgosTracker.reports s ++
      [ArgosTracker.mkCall false (ArgosTracker.config s)
         [Sample.event "a" 1; Sample.event "b" 2; Sample.event "c" 3]].
Proof.
  intros s s3. split; [repeat split; reflexivity|].
  exact (proj1 (batch_trigger s (Sample.event "a" 1) (Sample.event "b" 2)
                  (Sample.event "c" 3) eq_refl eq_refl eq_refl)).
Defined.

(** ** JSON round trips *)

Section JsonFacts.

Lemma stringify_parse (j : Json) : JSON.stringify (JSON.parse j) = JSON.Text j.
Proof.
  revert j. fix IH 1. intros [| | | |items|fields]; simpl; try done.
  - assert (H : (fix go (vs : list JsValue) : option (list Json) :=
               match vs with
               | [] => Some []
               | v :: rest =>
                   match JSON.stringify v, go rest with
                   | JSON.Throws, _ | _, None => None
                   | JSON.Omitted, Some js => Some (JsonNull :: js)
                   | JSON.Text j, Some js => Some (j :: js)
                   end
               end) (map JSON.parse items) = Some items).
    { induction items as [|i items IHl]; simpl; [done|].
      by rewrite IH, IHl. }
    by rewrite H.
  - assert (H : (fix go (fs : list (string * JsValue))
               : option (list (string * Json)) :=
               match fs with
               | [] => Some []
               | (k, v) :: rest =>
                   match JSON.stringify v, go rest with
                   | JSON.Throws, _ | _, None => None
                   | JSON.Omitted, Some js => Some js
                   | JSON.Text j, Some js => Some ((k, j) :: js)
                   end
               end)
              ((fix go (fs : list (string * Json)) : list (string * JsValue) :=
               match fs with
               | [] => []
               | (k, v) :: rest => (k, JSON.parse v) :: go rest
               end) fields) = Some fields).
    { induction fields as [|[k v] fields IHl]; simpl; [done|].
      by rewrite IH, IHl. }
    by rewrite H.
Qed.

Lemma stringify_parse_object (m : gmap string Json) :
  JSON.stringify_object (JSON.parse_object m) = Some m.
Proof.
  unfold JSON.stringify_object, JSON.parse_object.
  rewrite decide_True.
  - f_equal. apply map_eq. intros k. rewrite lookup_omap, lookup_fmap.
    destruct (m !! k) as [j|]; simpl; [|done].
    unfold JSON.text. by rewrite stringify_parse.
  - apply map_Forall_fmap. intros k j _. simpl.
    unfold JSON.throws. by rewrite stringify_parse.
Qed.

(** What was read from a text is written back as it stood there. *)
Lemma stringify_parse_event (e : StoredEvent) :
  stringify_event (parse_event e) = Some e.
Proof.
  destruct e as [ty name [props|] ts uid sid url ttl ua scr dev dur cf];
    unfold stringify_event, parse_event; simpl; [|done].
  by rewrite stringify_parse_object.
Qed.

Lemma mapM_app_Some {A B} (f : A → option B) l1 l2 k1 k2 :
  mapM f l1 = Some k1 → mapM f l2 = Some k2 →
  mapM f (l1 ++ l2) = Some (k1 ++ k2).
Proof.
  intros H1 H2. apply mapM_Some_2, Forall2_app; by apply mapM_Some_1.
Qed.

Lemma mapM_app_None {A B} (f : A → option B) l1 l2 :
  mapM f l2 = None → mapM f (l1 ++ l2) = None.
Proof.
  intros H2. apply mapM_None_2, Exists_app. right. by apply mapM_None_1.
Qed.

Lemma reread_parsed (stored : list StoredEvent) :
  reread (parse_event <$> stored) = Some (parse_event <$> stored).
Proof.
  unfold reread. rewrite (mapM_fmap_Some _ _ _ stringify_parse_event). done.
Qed.

Lemma reread_Some events events' :
  reread events = Some events' →
  ∃ stored, mapM stringify_event events = Some stored ∧
            events' = parse_event <$> stored.
Proof.
  unfold reread. destruct (mapM _ _) as [stored|]; [|done].
  intros [= <-]. by exists stored.
Qed.

Lemma reread_None events :
  reread events = None → mapM stringify_event events = None.
Proof. unfold reread. by destruct (mapM _ _). Qed.

Lemma length_reread events events' :
  reread events = Some events' → length events' = length events.
Proof.
  intros (stored & Hs & ->)%reread_Some.
  rewrite length_fmap. symmetry. by eapply length_mapM.
Qed.

(** Appending to what was read from a text: the text written for the
    result. *)
Lemma safeStringify_append stored events :
  safeStringify_events ((parse_event <$> stored) ++ events) =
    match mapM stringify_event events with
    | Some more => EventsText (stored ++ more)
    | None => EmptyObjectText
    end.
Proof.
  unfold safeStringify_events.
  destruct (mapM stringify_event events) as [more|] eqn:Hmore.
  - by rewrite (mapM_app_Some _ _ _ stored more
                  (mapM_fmap_Some _ _ _ stringify_parse_event) Hmore).
  - by rewrite (mapM_app_None _ _ _ Hmore).
Qed.

End JsonFacts.

(** ** The durable overflow *)

Section StorageFacts.
Import StorageManager.

(** The overflow is an array exactly when the key is absent or holds the
    text of one. *)
Lemma getPendingEvents_array st existing :
  getPendingEvents st = PendingArray existing →
  (getItem_PENDING_EVENTS st = None ∧ existing = []) ∨
  (∃ stored, getItem_PENDING_EVENTS st = Some (EventsText stored) ∧
             existing = parse_event <$> stored).
Proof.
  unfold getPendingEvents.
  destruct (getItem_PENDING_EVENTS st) as [[stored|]|]; simpl.
  - intros [= <-]. right. by exists stored.
  - done.
  - intros [= <-]. by left.
Qed.

Lemma getPendingEvents_setItem text st ls :
  localStorage st = Some ls →
  getPendingEvents (setItem_PENDING_EVENTS text st) = safeParse_events text.
Proof.
  intros Hls. unfold getPendingEvents, getItem_PENDING_EVENTS,
    setItem_PENDING_EVENTS, with_localStorage. simpl. by rewrite Hls.
Qed.

(** A save on a working store whose overflow is an array. *)
Lemma savePendingEvents_array events st ls existing :
  localStorage st = Some ls →
  getPendingEvents st = PendingArray existing →
  ∃ st', savePendingEvents events st = Some st' ∧
         is_Some (localStorage st') ∧
         sm_sessionId st' = sm_sessionId st ∧ sm_userId st' = sm_userId st ∧
         getItem_SESSION_ID st' = getItem_SESSION_ID st ∧
         getItem_USER_ID st' = getItem_USER_ID st ∧
         getPendingEvents st' =
           match reread events with
           | Some events' => PendingArray (existing ++ events')
           | None => EmptyObject
           end.
Proof.
  intros Hls Harr. unfold savePendingEvents. rewrite Harr.
  eexists. split; [done|].
  split; [simpl; rewrite Hls; by eexists|].
  split; [done|]. split; [done|].
  split; [unfold getItem_SESSION_ID; simpl; by rewrite Hls|].
  split; [unfold getItem_USER_ID; simpl; by rewrite Hls|].
  rewrite (getPendingEvents_setItem _ _ _ Hls).
  destruct (getPendingEvents_array _ _ Harr) as [[_ ->]|(stored & _ & ->)].
  - change ([] ++ events) with ((parse_event <$> []) ++ events).
    rewrite safeStringify_append. unfold reread.
    by destruct (mapM stringify_event events).
  - rewrite safeStringify_append. unfold reread.
    destruct (mapM stringify_event events) as [more|]; simpl; [|done].
    by rewrite fmap_app.
Qed.

(** A save on the text ['{}'] throws. *)
Lemma savePendingEvents_object events st :
  getPendingEvents st = EmptyObject → savePendingEvents events st = None.
Proof. unfold savePendingEvents. by intros ->. Qed.

Lemma getPendingEvents_unavailable st :
  localStorage st = None → getPendingEvents st = PendingArray [].
Proof.
  intros Hls. unfold getPendingEvents, getItem_PENDING_EVENTS. by rewrite Hls.
Qed.

Lemma savePendingEvents_unavailable events st :
  localStorage st = None → savePendingEvents events st = Some st.
Proof.
  intros Hls. unfold savePendingEvents.
  rewrite (getPendingEvents_unavailable _ Hls).
  destruct st as [sid uid ls]. simpl in *. by subst ls.
Qed.

Lemma getPendingEvents_clear st :
  getPendingEvents (clearPendingEvents st) = PendingArray [].
Proof.
  unfold clearPendingEvents, removeItem_PENDING_EVENTS, with_localStorage,
    getPendingEvents, getItem_PENDING_EVENTS. simpl.
  by destruct (localStorage st).
Qed.

Lemma localStorage_clear st :
  is_Some (localStorage st) → is_Some (localStorage (clearPendingEvents st)).
Proof. intros [ls Hls]. simpl. rewrite Hls. by eexists. Qed.

Lemma getPendingEvents_setUserId uid st :
  getPendingEvents (setUserId uid st) = getPendingEvents st.
Proof.
  unfold getPendingEvents, getItem_PENDING_EVENTS. simpl.
  by destruct (localStorage st).
Qed.

Lemma getPendingEvents_new uuid ls :
  getPendingEvents (new uuid (Some ls)) =
    match argos_pending_events ls with
    | Some text => safeParse_events text
    | None => PendingArray []
    end.
Proof.
  unfold new, getUserId, getItem_SESSION_ID, getItem_USER_ID. simpl.
  destruct (truthy_str (argos_session_id ls)); simpl;
    destruct (truthy_str (argos_user_id ls)); done.
Qed.

End StorageFacts.

Section RestoreFacts.
Import ArgosTracker.

Lemma trackEvent_uninitialized page e s :
  isInitialized s = false → trackEvent page e s = s.
Proof. unfold trackEvent. by intros ->. Qed.

(** What [new] leaves behind when the store holds undelivered events. *)
Lemma new_restores cfg uuid ls page e0 pending :
  StorageManager.argos_pending_events ls = Some (EventsText (e0 :: pending)) →
  let s := new cfg uuid (Some ls) page in
  eventQueue s = parse_event <$> e0 :: pending ∧
  StorageManager.getPendingEvents (storage s) = PendingArray [] ∧
  is_Some (StorageManager.localStorage (storage s)) ∧
  timers s = [mkTimer 1 RestoreSend 1000] ∧
  reports s = [] ∧ awaiting s = [] ∧ delivered s = [] ∧
  config s = with_defaults cfg.
Proof.
  intros Hpending. unfold new, init. simpl.
  set (sto := if truthy_str (cfg_userId cfg) then _ else _).
  assert (Hsto : StorageManager.getPendingEvents (storage sto)
                   = PendingArray (parse_event <$> e0 :: pending)
                 ∧ eventQueue sto = [] ∧ timers sto = [] ∧ nextTimerId sto = 1
                 ∧ reports sto = [] ∧ awaiting sto = [] ∧ delivered sto = []
                 ∧ isInitialized sto = false ∧ config sto = with_defaults cfg
                 ∧ is_Some (StorageManager.localStorage (storage sto))).
  { unfold sto. destruct (truthy_str (cfg_userId cfg)); simpl;
      rewrite ?getPendingEvents_setUserId, getPendingEvents_new, Hpending;
      repeat split; try done.
    all: unfold StorageManager.new, StorageManager.getUserId,
           StorageManager.getItem_SESSION_ID, StorageManager.getItem_USER_ID;
         simpl;
         destruct (truthy_str (StorageManager.argos_session_id ls)); simpl;
         destruct (truthy_str (StorageManager.argos_user_id ls)); simpl;
         by eexists. }
  clearbody sto.
  destruct Hsto as (Hp & Hq & Ht & Hn & Hr & Ha & Hd & Hi & Hc & Hls).
  destruct (AutoCollector.start (config sto) page (collector sto)) as [c ev].
  set (s3 := match ev with Some e => _ | None => _ end).
  assert (Hs3 : s3 = set_collector c sto).
  { unfold s3. destruct ev; [|done]. unfold handleAutoEvent.
    by apply trackEvent_uninitialized. }
  rewrite Hs3. unfold restorePendingEvents, setupBeforeUnload. simpl.
  rewrite Hp. simpl. rewrite Hq, Ht, Hn, Hr, Ha, Hd, Hc. simpl.
  rewrite getPendingEvents_clear.
  repeat split; try done. by apply localStorage_clear.
Qed.

(** What a settled or failed attempt leaves of the tracker, its store
    apart. *)
Lemma sendEvents_resume_frame events answer s :
  let s' := sendEvents_resume events answer s in
  eventQueue s' = eventQueue s ∧ awaiting s' = awaiting s ∧
  reports s' = reports s ∧ config s' = config s ∧
  delivered s' =
    delivered s ++ match answer with
                   | Reporter.Normal true => [events]
                   | _ => []
                   end ∧
  storage s' =
    match answer with
    | Reporter.Normal true => storage s
    | _ => default (storage s)
             (StorageManager.savePendingEvents events (storage s))
    end.
Proof.
  unfold sendEvents_resume.
  destruct answer as [[|]|]; case_save; by rewrite ?app_nil_r.
Qed.

(** What the unload listener leaves. *)
Lemma handleBeforeUnload_state net s :
  eventQueue s ≠ [] →
  let s' := handleBeforeUnload net s in
  let tempConfig := set_reportMethod BEACON (config s) in
  eventQueue s' = eventQueue s ∧ config s' = config s ∧
  reports s' = reports s ++ [mkCall true tempConfig (eventQueue s)] ∧
  delivered s' =
    delivered s ++
      match Reporter.result (Reporter.report tempConfig net (eventQueue s)) with
      | Reporter.Normal true => [eventQueue s]
      | _ => []
      end ∧
  storage s' =
    default (storage s)
      (StorageManager.savePendingEvents (eventQueue s) (storage s)).
Proof.
  intros Hq. unfold handleBeforeUnload.
  destruct (eventQueue s) as [|e q] eqn:Heq; [done|].
  destruct (Reporter.result _) as [[|]|]; simpl; rewrite ?Heq; case_save;
    by rewrite ?Heq, ?app_nil_r.
Qed.

(** A batch that can be serialised makes a body with one record for each
    of its events. *)
Lemma formatEvent_stringifies cfg (e : TrackEvent) :
  is_Some (stringify_event e) →
  is_Some (JSON.stringify_object (Reporter.formatEvent cfg e)).
Proof.
  intros He.
  destruct (JSON.stringify_object (Reporter.formatEvent cfg e)) as [r|] eqn:Hr;
    [by eexists|].
  apply stringify_object_throws in Hr as (k & v & Hk & Hv).
  rewrite formatEvent_lookup in Hk. unfold stringify_event in He.
  destruct (properties e) as [props|]; simpl in Hk.
  - destruct (props !! k) as [w|] eqn:Hw.
    + injection Hk as ->.
      destruct (JSON.stringify_object props) as [fields|] eqn:Hprops;
        [|by destruct He].
      assert (Hnone : JSON.stringify_object props = None).
      { apply stringify_object_throws. by exists k, v. }
      by rewrite Hnone in Hprops.
    + exfalso. revert Hk Hv. unfold Reporter.canonical.
      rewrite !lookup_insert_Some, lookup_empty.
      intros Hk Hv.
      repeat (destruct Hk as [[_ <-]|[_ Hk]];
              [revert Hv; unfold opt_str, opt_num;
               repeat case_match; done|]).
      done.
  - exfalso. revert Hk Hv. unfold Reporter.canonical.
    rewrite !lookup_insert_Some, lookup_empty.
    intros Hk Hv.
    repeat (destruct Hk as [[_ <-]|[_ Hk]];
            [revert Hv; unfold opt_str, opt_num;
             repeat case_match; done|]).
    done.
Qed.

Lemma formatPayload_reread cfg events events' :
  reread events = Some events' →
  ∃ records, Reporter.formatPayload cfg events = RecordsBody records ∧
             length records = length events.
Proof.
  intros (stored & Hstored & _)%reread_Some.
  unfold Reporter.formatPayload, safeStringify_payload, Reporter.payload.
  assert (Hall : is_Some (mapM JSON.stringify_object
                            (Reporter.formatEvent cfg <$> events))).
  { apply mapM_is_Some_2, Forall_fmap, Forall_forall. intros e He. simpl.
    apply formatEvent_stringifies.
    apply mapM_Some_1 in Hstored.
    apply list_elem_of_lookup in He as [i Hi].
    destruct (Forall2_lookup_l _ _ _ _ _ Hstored Hi) as (se & _ & Hse).
    by eexists. }
  destruct Hall as [records Hrecords]. rewrite Hrecords.
  exists records. split; [done|].
  apply length_mapM in Hrecords. by rewrite length_fmap in Hrecords.
Qed.

End RestoreFacts.

(** C6: a tracker started on a store that holds N undelivered events has
    all N of them, in order, on its queue, has removed the durable copy, has
    reported nothing yet and has armed one timer with a delay of 1000 ms.
    When that timer fires the N events go out as one batch, in a body with N
    records, and whatever the network does each of them is then either in
    a delivered batch or back in the durable overflow, once. *)
Theorem restore_on_start (cfg : TrackerConfig) (uuid : string)
    (ls : StorageManager.LocalStorage) (page : Page)
    (stored : list StoredEvent) :
  StorageManager.argos_pending_events ls = Some (EventsText stored) →
  stored ≠ [] →
  let pending := parse_event <$> stored in
  let s := ArgosTracker.new cfg uuid (Some ls) page in
  let call := ArgosTracker.mkCall false (ArgosTracker.config s) pending in
  ArgosTracker.eventQueue s = pending ∧
  StorageManager.getPendingEvents (ArgosTracker.storage s) = PendingArray [] ∧
  ArgosTracker.timers s =
    [ArgosTracker.mkTimer 1 ArgosTracker.RestoreSend 1000] ∧
  ArgosTracker.reports s = [] ∧
  ∃ s1, ArgosTracker.fire 1 s = Some s1 ∧
        ArgosTracker.eventQueue s1 = [] ∧
        ArgosTracker.reports s1 = [call] ∧
        ArgosTracker.awaiting s1 = [call] ∧
        (∃ records,
           Reporter.formatPayload (ArgosTracker.config s) pending
             = RecordsBody records ∧
           length records = length stored) ∧
        ∀ net, ∃ s2,
          ArgosTracker.settle 0 net s1 = Some s2 ∧
          ArgosTracker.eventQueue s2 = [] ∧
          ArgosTracker.awaiting s2 = [] ∧
          ((ArgosTracker.delivered s2 = [pending] ∧
            StorageManager.getPendingEvents (ArgosTracker.storage s2)
              = PendingArray []) ∨
           (ArgosTracker.delivered s2 = [] ∧
            StorageManager.getPendingEvents (ArgosTracker.storage s2)
              = PendingArray pending)).
Proof.
  intros Hpending Hne pending s call.
  destruct stored as [|e0 stored]; [done|].
  destruct (new_restores cfg uuid ls page e0 stored Hpending)
    as (Hq & Hp & [ls' Hls] & Ht & Hr & Ha & Hd & Hc).
  fold s pending in Hq, Hp, Hls, Ht, Hr, Ha, Hd, Hc.
  assert (Hre : reread pending = Some pending) by apply reread_parsed.
  assert (Hlen : length pending = length (e0 :: stored)) by apply length_fmap.
  assert (Hpne : pending ≠ []) by done.
  clearbody pending.
  do 4 (split; [done|]).
  unfold ArgosTracker.fire. rewrite Ht. simpl.
  eexists. split; [reflexivity|]. unfold ArgosTracker.sendEvents. simpl.
  rewrite Hq. destruct pending as [|p0 pending]; [done|].
  simpl. rewrite Hr, Ha. do 3 (split; [done|]).
  split.
  { destruct (formatPayload_reread (ArgosTracker.config s) _ _ Hre)
      as (records & Hbody & Hlen').
    exists records. split; [done|]. by rewrite Hlen', Hlen. }
  intros net. unfold ArgosTracker.settle. simpl.
  eexists. split; [reflexivity|].
  match goal with
  | |- context [ArgosTracker.sendEvents_resume ?ev ?ans ?st] =>
      destruct (sendEvents_resume_frame ev ans st)
        as (Hq2 & Ha2 & _ & _ & Hd2 & Hs2);
      set (s2 := ArgosTracker.sendEvents_resume ev ans st) in *;
      set (answer := ans) in *
  end.
  split; [by rewrite Hq2|]. split; [by rewrite Ha2|].
  rewrite Hd2, Hs2. simpl. rewrite Hd.
  destruct (savePendingEvents_array (p0 :: pending)
              (ArgosTracker.storage s) ls' [] Hls Hp)
    as (st' & Hsave & _ & _ & _ & _ & _ & Hread).
  rewrite Hre in Hread. rewrite Hsave.
  destruct answer as [[|]|]; simpl.
  - by left.
  - by right.
  - by right.
Qed.

Lemma restore_on_start_witness :
  let ls :=
    StorageManager.mkLocalStorage (Some "session-1") None
      (Some (EventsText [Sample.stored_event "a" 1; Sample.stored_event "b" 2]))
  in
  (StorageManager.argos_pending_events ls
     = Some (EventsText [Sample.stored_event "a" 1; Sample.stored_event "b" 2])
   ∧ [Sample.stored_event "a" 1; Sample.stored_event "b" 2] ≠ []) ∧
  ArgosTracker.eventQueue Sample.tracker_with_overflow
    = [Sample.event "a" 1; Sample.event "b" 2].
Proof.
  intros ls. split; [split; [reflexivity|discriminate]|].
  exact (proj1 (restore_on_start (Sample.cfg BATCH 10) "uuid-1" ls
                  (Sample.page 0)
                  [Sample.stored_event "a" 1; Sample.stored_event "b" 2]
                  eq_refl ltac:(discriminate))).
Defined.

(** C4, as stated, fails: on a page without [window.localStorage] the write
    of [savePendingEvents] is a no-op, so the events of a batch whose
    delivery failed are in no overflow afterwards (and not delivered). *)
Lemma failed_batch_lost_without_store :
  let s :=
    ArgosTracker.track (Sample.page 1) "a" None
      (Sample.tracker_without_store IMMEDIATE) in
  ∃ call s',
    ArgosTracker.awaiting s !! 0%nat = Some call ∧
    ArgosTracker.call_events call ≠ [] ∧
    reread (ArgosTracker.call_events call)
      = Some (ArgosTracker.call_events call) ∧
    Reporter.result
      (Reporter.report (ArgosTracker.call_config call) Sample.network_down
         (ArgosTracker.call_events call)) = Reporter.Normal false ∧
    ArgosTracker.settle 0 Sample.network_down s = Some s' ∧
    StorageManager.getPendingEvents (ArgosTracker.storage s)
      = PendingArray [] ∧
    StorageManager.getPendingEvents (ArgosTracker.storage s')
      = PendingArray [] ∧
    ArgosTracker.delivered s' = [].
Proof.
  intros s. eexists _, _.
  split; [vm_compute; reflexivity|].
  split; [discriminate|].
  split; [vm_compute; reflexivity|].
  split; [vm_compute; reflexivity|].
  split; [vm_compute; reflexivity|].
  split; [vm_compute; reflexivity|].
  split; vm_compute; reflexivity.
Qed.

(** C4, amended: when the key-value store is available, the overflow read
    from it is an array and the batch can be serialised, a batch whose
    delivery did not report success is appended to the durable overflow, in
    its order and as [JSON.parse] reads it back, after the events already
    there, and is not recorded as delivered. This holds for the batch of a
    flush when its awaited [report] settles, and for the batch the unload
    handler hands to its beacon reporter. A batch that cannot be serialised
    leaves the text ['{}'] in place of the overflow instead. *)
Theorem failure_rebuffer (s : ArgosTracker.t) (ls : StorageManager.LocalStorage)
    (existing : list TrackEvent) :
  StorageManager.localStorage (ArgosTracker.storage s) = Some ls →
  StorageManager.getPendingEvents (ArgosTracker.storage s)
    = PendingArray existing →
  (∀ (i : nat) (call : ArgosTracker.ReportCall) (net : Reporter.Network),
     ArgosTracker.awaiting s !! i = Some call →
     Reporter.result
       (Reporter.report (ArgosTracker.call_config call) net
          (ArgosTracker.call_events call)) ≠ Reporter.Normal true →
     ∃ s', ArgosTracker.settle i net s = Some s' ∧
           StorageManager.getPendingEvents (ArgosTracker.storage s') =
             match reread (ArgosTracker.call_events call) with
             | Some batch => PendingArray (existing ++ batch)
             | None => EmptyObject
             end ∧
           ArgosTracker.delivered s' = ArgosTracker.delivered s) ∧
  (∀ net : Reporter.Network,
     ArgosTracker.eventQueue s ≠ [] →
     Reporter.result
       (Reporter.report (set_reportMethod BEACON (ArgosTracker.config s)) net
          (ArgosTracker.eventQueue s)) ≠ Reporter.Normal true →
     let s' := ArgosTracker.handleBeforeUnload net s in
     StorageManager.getPendingEvents (ArgosTracker.storage s') =
       match reread (ArgosTracker.eventQueue s) with
       | Some batch => PendingArray (existing ++ batch)
       | None => EmptyObject
       end ∧
     ArgosTracker.delivered s' = ArgosTracker.delivered s).
Proof.
  intros Hls Harr. split.
  - intros i call net Hcall Hfail. unfold ArgosTracker.settle. rewrite Hcall.
    eexists. split; [reflexivity|].
    set (s1 := ArgosTracker.set_awaiting _ s).
    destruct (sendEvents_resume_frame (ArgosTracker.call_events call)
                (Reporter.result
                   (Reporter.report (ArgosTracker.call_config call) net
                      (ArgosTracker.call_events call))) s1)
      as (_ & _ & _ & _ & Hd & Hs).
    rewrite Hd, Hs.
    destruct (savePendingEvents_array (ArgosTracker.call_events call)
                (ArgosTracker.storage s) ls existing Hls Harr)
      as (st' & Hsave & _ & _ & _ & _ & _ & Hread).
    destruct (Reporter.result _) as [[|]|]; [done| |]; simpl;
      by rewrite Hsave, app_nil_r.
  - intros net Hq Hfail s'.
    destruct (handleBeforeUnload_state net s Hq) as (_ & _ & _ & Hd & Hs).
    fold s' in Hd, Hs. rewrite Hd, Hs.
    destruct (savePendingEvents_array (ArgosTracker.eventQueue s)
                (ArgosTracker.storage s) ls existing Hls Harr)
      as (st' & Hsave & _ & _ & _ & _ & _ & Hread).
    rewrite Hsave. simpl.
    destruct (Reporter.result _) as [[|]|]; [done| |]; by rewrite app_nil_r.
Qed.

Lemma failure_rebuffer_witness :
  let s :=
    ArgosTracker.track (Sample.page 1) "a" None (Sample.tracker IMMEDIATE 10) in
  ∃ ls call s',
    StorageManager.localStorage (ArgosTracker.storage s) = Some ls ∧
    StorageManager.getPendingEvents (ArgosTracker.storage s)
      = PendingArray [] ∧
    ArgosTracker.awaiting s !! 0%nat = Some call ∧
    ArgosTracker.settle 0 Sample.network_down s = Some s' ∧
    StorageManager.getPendingEvents (ArgosTracker.storage s') =
      match reread (ArgosTracker.call_events call) with
      | Some batch => PendingArray ([] ++ batch)
      | None => EmptyObject
      end ∧
    ArgosTracker.delivered s' = ArgosTracker.delivered s.
Proof.
  intros s.
  assert (Hls : ∃ ls, StorageManager.localStorage (ArgosTracker.storage s)
                      = Some ls) by (vm_compute; eauto).
  destruct Hls as [ls Hls].
  assert (Harr : StorageManager.getPendingEvents (ArgosTracker.storage s)
                 = PendingArray []) by (by vm_compute).
  assert (Hcall : ∃ call, ArgosTracker.awaiting s !! 0%nat = Some call)
    by (vm_compute; eauto).
  destruct Hcall as [call Hcall].
  assert (Hfail : Reporter.result
            (Reporter.report (ArgosTracker.call_config call)
               Sample.network_down (ArgosTracker.call_events call))
            ≠ Reporter.Normal true).
  { vm_compute in Hcall. injection Hcall as <-. vm_compute. discriminate. }
  destruct (proj1 (failure_rebuffer s ls [] Hls Harr) 0%nat call
              Sample.network_down Hcall Hfail)
    as (s' & Hsettle & Hsaved & Hdelivered).
  exists ls, call, s'. repeat split; assumption.
Defined.

(** C7: when the page goes away with events on the queue, the handler hands
    a copy of the queue to a reporter in beacon mode, which issues one
    request with the body [formatPayload] makes of those events, and it then
    calls [savePendingEvents] on the same events, whatever the beacon
    reporter answers: the store afterwards is the one that call leaves (the
    one before it when the call throws). With the store available, the
    overflow an array and the events serialisable, the body has one record
    for each event and the events are at the end of the durable overflow. *)
Theorem teardown_redundancy (s : ArgosTracker.t) (net : Reporter.Network) :
  ArgosTracker.eventQueue s ≠ [] →
  let s' := ArgosTracker.handleBeforeUnload net s in
  let tempConfig := set_reportMethod BEACON (ArgosTracker.config s) in
  let batch := ArgosTracker.eventQueue s in
  ArgosTracker.reports s' =
    ArgosTracker.reports s ++ [ArgosTracker.mkCall true tempConfig batch] ∧
  reportMethod tempConfig = Some BEACON ∧
  Reporter.calls (Reporter.report tempConfig net batch) =
    [match Reporter.sendBeacon net with
     | Some _ =>
         Reporter.BeaconCall (reportUrl tempConfig)
           (Reporter.formatPayload tempConfig batch)
     | None =>
         Reporter.FetchCall (reportUrl tempConfig)
           (Reporter.request_headers tempConfig)
           (default 10000 (timeout tempConfig))
           (Reporter.formatPayload tempConfig batch)
     end] ∧
  ArgosTracker.storage s' =
    default (ArgosTracker.storage s)
      (StorageManager.savePendingEvents batch (ArgosTracker.storage s)) ∧
  (∀ ls existing batch',
     StorageManager.localStorage (ArgosTracker.storage s) = Some ls →
     StorageManager.getPendingEvents (ArgosTracker.storage s)
       = PendingArray existing →
     reread batch = Some batch' →
     (∃ records,
        Reporter.formatPayload tempConfig batch = RecordsBody records ∧
        length records = length batch) ∧
     StorageManager.getPendingEvents (ArgosTracker.storage s')
       = PendingArray (existing ++ batch')) ∧
  ArgosTracker.eventQueue s' = batch.
Proof.
  intros Hq s' tempConfig batch.
  destruct (handleBeforeUnload_state net s Hq) as (Hqueue & _ & Hrep & _ & Hsto).
  fold s' in Hqueue, Hrep, Hsto.
  split; [done|]. split; [done|]. split.
  { rewrite report_result by done. simpl. rewrite sendBeacon_result.
    destruct (Reporter.sendBeacon net); [done|]. by rewrite sendFetch_result. }
  split; [done|]. split; [|done].
  intros ls existing batch' Hls Harr Hre.
  split; [by apply formatPayload_reread with batch'|].
  destruct (savePendingEvents_array batch (ArgosTracker.storage s) ls existing
              Hls Harr) as (st' & Hsave & _ & _ & _ & _ & _ & Hread).
  rewrite Hsto. fold batch. rewrite Hsave. simpl. by rewrite Hread, Hre.
Qed.

Lemma teardown_redundancy_witness :
  let s :=
    ArgosTracker.track (Sample.page 2) "b" None
      (ArgosTracker.track (Sample.page 1) "a" None (Sample.tracker BATCH 10)) in
  ArgosTracker.eventQueue s ≠ [] ∧
  ArgosTracker.storage (ArgosTracker.handleBeforeUnload Sample.network_down s) =
    default (ArgosTracker.storage s)
      (StorageManager.savePendingEvents (ArgosTracker.eventQueue s)
         (ArgosTracker.storage s)).
Proof.
  intros s.
  assert (Hq : ArgosTracker.eventQueue s ≠ [])
    by (intros H; vm_compute in H; discriminate H).
  split; [exact Hq|].
  exact (proj1 (proj2 (proj2 (proj2
           (teardown_redundancy s Sample.network_down Hq))))).
Defined.

(** C10: the unload handler leaves the queue, the armed timers and the
    awaited flushes as they were. If the tracker lives on, a later flush
    hands the same events to [report] once more, after the beacon call and
    next to the copy in the durable overflow. *)
Theorem teardown_keeps_queue (s : ArgosTracker.t) (net : Reporter.Network) :
  let s' := ArgosTracker.handleBeforeUnload net s in
  ArgosTracker.eventQueue s' = ArgosTracker.eventQueue s ∧
  ArgosTracker.awaiting s' = ArgosTracker.awaiting s ∧
  ArgosTracker.same_window s s' ∧
  ArgosTracker.flushes s' = ArgosTracker.flushes s ∧
  (ArgosTracker.eventQueue s ≠ [] →
   ArgosTracker.reports (ArgosTracker.flush s') =
     ArgosTracker.reports s ++
       [ArgosTracker.mkCall true
          (set_reportMethod BEACON (ArgosTracker.config s))
          (ArgosTracker.eventQueue s);
        ArgosTracker.mkCall false (ArgosTracker.config s)
          (ArgosTracker.eventQueue s)] ∧
   ArgosTracker.awaiting (ArgosTracker.flush s') =
     ArgosTracker.awaiting s ++
       [ArgosTracker.mkCall false (ArgosTracker.config s)
          (ArgosTracker.eventQueue s)]).
Proof.
  intros s'.
  assert (H : ArgosTracker.eventQueue s' = ArgosTracker.eventQueue s ∧
              ArgosTracker.awaiting s' = ArgosTracker.awaiting s ∧
              ArgosTracker.config s' = ArgosTracker.config s ∧
              ArgosTracker.flushes s' = ArgosTracker.flushes s ∧
              (ArgosTracker.eventQueue s ≠ [] →
               ArgosTracker.reports s' =
                 ArgosTracker.reports s ++
                   [ArgosTracker.mkCall true
                      (set_reportMethod BEACON (ArgosTracker.config s))
                      (ArgosTracker.eventQueue s)])).
  { unfold s', ArgosTracker.handleBeforeUnload, ArgosTracker.flushes.
    destruct (ArgosTracker.eventQueue s) as [|e q] eqn:Hq; [done|].
    destruct (Reporter.result _) as [[|]|]; case_save;
      rewrite filter_app, filter_cons_False, filter_nil, app_nil_r by done;
      by rewrite ?Hq. }
  destruct H as (Hq & Ha & Hc & Hf & Hr).
  split; [done|]. split; [done|].
  split; [apply handleBeforeUnload_window|].
  split; [done|].
  intros Hne. specialize (Hr Hne).
  assert (Hw : ArgosTracker.eventQueue (ArgosTracker.cancelBatchTimer s')
               = ArgosTracker.eventQueue s
             ∧ ArgosTracker.reports (ArgosTracker.cancelBatchTimer s')
               = ArgosTracker.reports s'
             ∧ ArgosTracker.awaiting (ArgosTracker.cancelBatchTimer s')
               = ArgosTracker.awaiting s
             ∧ ArgosTracker.config (ArgosTracker.cancelBatchTimer s')
               = ArgosTracker.config s).
  { unfold ArgosTracker.cancelBatchTimer.
    destruct (ArgosTracker.batchTimer s'); [|done].
    by destruct (ArgosTracker.armed _). }
  destruct Hw as (Hq' & Hr' & Ha' & Hc').
  unfold ArgosTracker.flush. rewrite sendEvents_swap by by rewrite Hq'.
  simpl. rewrite Hq', Hr', Ha', Hc', Hr, <-app_assoc. done.
Qed.

Lemma teardown_keeps_queue_witness :
  let s :=
    ArgosTracker.track (Sample.page 1) "a" None (Sample.tracker BATCH 10) in
  let s' := ArgosTracker.handleBeforeUnload Sample.network_up s in
  ArgosTracker.eventQueue s ≠ [] ∧
  ArgosTracker.eventQueue s' = ArgosTracker.eventQueue s ∧
  ArgosTracker.awaiting (ArgosTracker.flush s') =
    ArgosTracker.awaiting s ++
      [ArgosTracker.mkCall false (ArgosTracker.config s)
         (ArgosTracker.eventQueue s)].
Proof.
  intros s s'.
  assert (Hq : ArgosTracker.eventQueue s ≠ [])
    by (intros H; vm_compute in H; discriminate H).
  destruct (teardown_keeps_queue s Sample.network_up)
    as (Hsame & _ & _ & _ & Hlater).
  split; [exact Hq|]. split; [exact Hsame|]. exact (proj2 (Hlater Hq)).
Defined.

(** ** Page-view dedup *)

(** C3, as stated, fails: page views tracked through the tracker's own
    [trackPageView] are not deduplicated. Two calls on the same URL 50 ms
    apart put two page-view events on the queue. *)
Lemma manual_page_views_not_deduplicated :
  ∃ s',
    ArgosTracker.run
      [ArgosTracker.TrackPageView (Sample.page 1000) None;
       ArgosTracker.TrackPageView (Sample.page 1050) None]
      (Sample.tracker BEACON 10) = Some s' ∧
    eventType <$> ArgosTracker.eventQueue s' = [PAGE_VIEW; PAGE_VIEW] ∧
    timestamp <$> ArgosTracker.eventQueue s' = [Some 1000; Some 1050] ∧
    pageUrl <$> ArgosTracker.eventQueue s' =
      [Some "https://example.com/home"; Some "https://example.com/home"].
Proof.
  eexists. split; [reflexivity|]. vm_compute. repeat split.
Qed.

(** C3, amended: the dedup is the automatic collector's. After the
    collector has created a page view, its next page view is discarded when
    it has the same URL and comes less than 100 ms after the created one:
    no event reaches the callback, and a tracker whose history hook runs
    then keeps its queue, its reports and its store as they were. When the
    URL differs or 100 ms or more have passed, the event is created and
    becomes the new most recent page view. *)
Theorem auto_page_view_dedup (c c1 : AutoCollector.t) (page1 page2 : Page)
    (e1 : TrackEvent) :
  AutoCollector.trackPageView page1 c = (c1, Some e1) →
  e1 = AutoCollector.page_view_event page1 ∧
  (href page2 = href page1 ∧ now page2 - now page1 < 100 →
   AutoCollector.trackPageView page2 c1 = (c1, None) ∧
   ∀ s : ArgosTracker.t,
     ArgosTracker.collector s = c1 →
     AutoCollector.pageViewHooked c1 = true →
     ∃ s', ArgosTracker.step (ArgosTracker.HistoryChange page2) s = Some s' ∧
           ArgosTracker.eventQueue s' = ArgosTracker.eventQueue s ∧
           ArgosTracker.reports s' = ArgosTracker.reports s ∧
           ArgosTracker.awaiting s' = ArgosTracker.awaiting s ∧
           ArgosTracker.storage s' = ArgosTracker.storage s) ∧
  (¬ (href page2 = href page1 ∧ now page2 - now page1 < 100) →
   ∃ c2, AutoCollector.trackPageView page2 c1 =
           (c2, Some (AutoCollector.page_view_event page2)) ∧
         AutoCollector.lastPageViewUrl c2 = href page2 ∧
         AutoCollector.lastPageViewTime c2 = now page2).
Proof.
  unfold AutoCollector.trackPageView at 1.
  case_decide as Hfirst; [done|]. intros [= Hc1 <-].
  assert (Hurl1 : AutoCollector.lastPageViewUrl c1 = href page1)
    by by rewrite <-Hc1.
  assert (Htime1 : AutoCollector.lastPageViewTime c1 = now page1)
    by by rewrite <-Hc1.
  clear Hc1 Hfirst. split; [done|]. split.
  - intros [Hurl Ht].
    assert (Hskip : AutoCollector.trackPageView page2 c1 = (c1, None)).
    { unfold AutoCollector.trackPageView.
      rewrite decide_True; [done|]. by rewrite Hurl1, Htime1, Hurl. }
    split; [exact Hskip|].
    intros s Hc Hhook. cbn [ArgosTracker.step]. rewrite Hc, Hhook.
    unfold AutoCollector.handleHistoryChange. rewrite Hskip.
    eexists. split; [reflexivity|]. done.
  - intros Hfresh. unfold AutoCollector.trackPageView.
    rewrite decide_False.
    + eexists. split; [reflexivity|]. done.
    + rewrite Hurl1, Htime1. intros [Hurl Ht]. apply Hfresh.
      by rewrite Hurl.
Qed.

Lemma auto_page_view_dedup_witness :
  let c1 := (AutoCollector.trackPageView (Sample.page 1000) AutoCollector.new).1 in
  AutoCollector.trackPageView (Sample.page 1000) AutoCollector.new
    = (c1, Some (AutoCollector.page_view_event (Sample.page 1000))) ∧
  AutoCollector.trackPageView (Sample.page 1050) c1 = (c1, None) ∧
  ∃ c2, AutoCollector.trackPageView (Sample.page 1150) c1 =
          (c2, Some (AutoCollector.page_view_event (Sample.page 1150))) ∧
        AutoCollector.lastPageViewUrl c2 = href (Sample.page 1150) ∧
        AutoCollector.lastPageViewTime c2 = now (Sample.page 1150).
Proof.
  intros c1. split; [reflexivity|]. split.
  - refine (proj1 (proj1 (proj2
              (auto_page_view_dedup AutoCollector.new c1 (Sample.page 1000)
                 (Sample.page 1050) _ eq_refl)) _)).
    split; [reflexivity|simpl; lia].
  - refine (proj2 (proj2
              (auto_page_view_dedup AutoCollector.new c1 (Sample.page 1000)
                 (Sample.page 1150) _ eq_refl)) _).
    simpl. lia.
Defined.

(** * Further properties *)

(** ** The storage manager *)

Section SessionFacts.
Import StorageManager.

Lemma truthy_str_Some s : s ≠ "" → truthy_str (Some s) = true.
Proof. intros Hs. unfold truthy_str. by rewrite decide_False. Qed.

Lemma truthy_str_true o :
  truthy_str o = true → ∃ s, o = Some s ∧ s ≠ "".
Proof.
  unfold truthy_str. destruct o as [s|]; [|done].
  case_decide; [done|]. eauto.
Qed.

Lemma new_sessionId uuid ls :
  sm_sessionId (new uuid ls) =
    if truthy_str (ls ≫= argos_session_id)
    then default "" (ls ≫= argos_session_id) else uuid.
Proof.
  unfold new, getItem_SESSION_ID, getUserId, getItem_USER_ID. simpl.
  destruct (truthy_str (ls ≫= argos_session_id)); simpl;
    by destruct (truthy_str _).
Qed.

Lemma new_localStorage_session uuid ls0 :
  argos_session_id <$> localStorage (new uuid (Some ls0)) =
    Some (Some (sm_sessionId (new uuid (Some ls0)))).
Proof.
  rewrite new_sessionId.
  unfold new, getItem_SESSION_ID, getUserId, getItem_USER_ID. simpl.
  destruct (truthy_str (argos_session_id ls0)) eqn:Hs; simpl.
  - apply truthy_str_true in Hs as (s & Hs & _).
    destruct (truthy_str (argos_user_id ls0)); simpl; by rewrite Hs.
  - by destruct (truthy_str (argos_user_id ls0)).
Qed.

End SessionFacts.

(** X1: the session survives a reload. A storage manager created on a page
    with a working store persists the session id it uses, and a manager
    created later on the store it left behind uses the same id and
    generates none of its own. Without [window.localStorage] every manager
    uses the id it generates. *)
Theorem session_survives_reload (uuid1 uuid2 : string)
    (ls0 : StorageManager.LocalStorage) :
  uuid1 ≠ "" →
  let first := StorageManager.new uuid1 (Some ls0) in
  let second := StorageManager.new uuid2 (StorageManager.localStorage first) in
  StorageManager.getSessionId second = StorageManager.getSessionId first ∧
  StorageManager.localStorage second = StorageManager.localStorage first ∧
  StorageManager.getSessionId (StorageManager.new uuid2 None) = uuid2.
Proof.
  intros Huuid first second.
  assert (Hsid : StorageManager.sm_sessionId first ≠ "").
  { unfold first. rewrite new_sessionId. simpl.
    destruct (truthy_str _) eqn:Hs; [|done].
    apply truthy_str_true in Hs as (s & -> & Hne). done. }
  pose proof (new_localStorage_session uuid1 ls0) as Hstored.
  fold first in Hstored.
  destruct (StorageManager.localStorage first) as [ls1|] eqn:Hls1; [|done].
  simpl in Hstored. injection Hstored as Hstored.
  split; [|split].
  - unfold second, StorageManager.getSessionId. rewrite new_sessionId.
    simpl. rewrite Hstored. by rewrite truthy_str_Some.
  - unfold second, StorageManager.new, StorageManager.getItem_SESSION_ID,
      StorageManager.getUserId, StorageManager.getItem_USER_ID. simpl.
    rewrite Hstored, truthy_str_Some by done. simpl.
    by destruct (truthy_str _).
  - unfold StorageManager.getSessionId. by rewrite new_sessionId.
Qed.

Lemma session_survives_reload_witness :
  let first := StorageManager.new "uuid-1" (Some Sample.empty_store) in
  "uuid-1" ≠ "" ∧
  StorageManager.getSessionId
    (StorageManager.new "uuid-2" (StorageManager.localStorage first))
    = StorageManager.getSessionId first.
Proof.
  intros first.
  assert (H : "uuid-1" ≠ "") by discriminate.
  split; [exact H|].
  exact (proj1 (session_survives_reload "uuid-1" "uuid-2" Sample.empty_store H)).
Defined.

Section UserIdFacts.
Import StorageManager.

Lemma new_getUserId uuid ls :
  (getUserId (new uuid ls)).1 =
    if truthy_str (ls ≫= argos_user_id) then ls ≫= argos_user_id else None.
Proof.
  unfold new, getUserId at 2, getItem_SESSION_ID, getItem_USER_ID. simpl.
  destruct ls as [ls|]; simpl.
  - destruct (truthy_str (argos_session_id ls)); simpl;
      destruct (truthy_str (argos_user_id ls)) eqn:Hu; simpl;
      unfold getUserId, getItem_USER_ID; simpl; by rewrite Hu.
  - done.
Qed.

End UserIdFacts.

(** X2: the user id is a read-through cache over the store. After
    [setUserId(uid)], [getUserId()] returns [uid] whether or not the store
    works, except that the empty string reads back as no user id; with a
    working store a manager created later on the same store gets the same
    answer. The session id and the overflow are not touched. *)
Theorem user_id_round_trip (uid uuid : string) (st : StorageManager.t) :
  let st1 := StorageManager.setUserId uid st in
  let expected := if decide (uid = "") then None else Some uid in
  (StorageManager.getUserId st1).1 = expected ∧
  (is_Some (StorageManager.localStorage st) →
   (StorageManager.getUserId
      (StorageManager.new uuid (StorageManager.localStorage st1))).1
     = expected) ∧
  StorageManager.getSessionId st1 = StorageManager.getSessionId st ∧
  StorageManager.getPendingEvents st1 = StorageManager.getPendingEvents st.
Proof.
  intros st1 expected. split; [|split; [|split]].
  - subst st1 expected.
    unfold StorageManager.getUserId, StorageManager.setUserId,
      StorageManager.getItem_USER_ID. simpl.
    destruct (decide (uid = "")) as [->|Hne]; [|done].
    by destruct (StorageManager.localStorage st).
  - intros [ls Hls]. rewrite new_getUserId. subst st1 expected.
    unfold StorageManager.setUserId. simpl. rewrite Hls. simpl.
    by destruct (decide (uid = "")).
  - done.
  - apply getPendingEvents_setUserId.
Qed.

Lemma user_id_round_trip_witness :
  let st := StorageManager.new "uuid-1" (Some Sample.empty_store) in
  (StorageManager.getUserId
     (StorageManager.new "uuid-2"
        (StorageManager.localStorage (StorageManager.setUserId "alice" st)))).1
    = Some "alice".
Proof.
  intros st.
  destruct (user_id_round_trip "alice" "uuid-2" st) as (_ & Hlater & _).
  apply Hlater. by eexists.
Defined.


(** X3: after [clearUserId()] there is no user id, in memory or in the
    store: [getUserId()] returns [undefined], and so it does for a manager
    created later on the same store. *)
Theorem clearUserId_forgets (uuid : string) (st : StorageManager.t) :
  let st1 := StorageManager.clearUserId st in
  (StorageManager.getUserId st1).1 = None ∧
  (StorageManager.getUserId
     (StorageManager.new uuid (StorageManager.localStorage st1))).1 = None ∧
  StorageManager.getSessionId st1 = StorageManager.getSessionId st ∧
  StorageManager.getPendingEvents st1 = StorageManager.getPendingEvents st.
Proof.
  intros st1. subst st1. rewrite new_getUserId.
  unfold StorageManager.clearUserId, StorageManager.getUserId,
    StorageManager.getItem_USER_ID, StorageManager.getPendingEvents,
    StorageManager.getItem_PENDING_EVENTS. simpl.
  by destruct (StorageManager.localStorage st).
Qed.

Section OverflowFacts.
Import StorageManager.

Lemma slice_nonneg {A} (count : Z) (l : list A) :
  0 ≤ count → slice count l = drop (Z.to_nat count) l.
Proof. intros H. unfold slice. by rewrite decide_False by lia. Qed.

Lemma slice_negative {A} (count : Z) (l : list A) :
  count < 0 →
  slice count l = drop (length l - Z.to_nat (- count)) l.
Proof.
  intros H. unfold slice. rewrite decide_True by done. f_equal. lia.
Qed.

Lemma slice_fmap {A B} (f : A → B) (count : Z) (l : list A) :
  slice count (f <$> l) = f <$> slice count l.
Proof. unfold slice. rewrite length_fmap. case_decide; by rewrite fmap_drop. Qed.

Lemma safeStringify_parsed stored :
  safeStringify_events (parse_event <$> stored) = EventsText stored.
Proof.
  unfold safeStringify_events.
  by rewrite (mapM_fmap_Some _ _ _ stringify_parse_event).
Qed.

Lemma mapM_app {A B} (f : A → option B) l1 l2 :
  mapM f (l1 ++ l2) =
    match mapM f l1, mapM f l2 with
    | Some k1, Some k2 => Some (k1 ++ k2)
    | _, _ => None
    end.
Proof.
  destruct (mapM f l1) as [k1|] eqn:H1, (mapM f l2) as [k2|] eqn:H2.
  - by apply mapM_app_Some.
  - by apply mapM_app_None.
  - apply mapM_None_2, Exists_app. left. by apply mapM_None_1.
  - by apply mapM_app_None.
Qed.

(** What [removePendingEvents] leaves on a working store whose overflow is
    an array. *)
Lemma getPendingEvents_remove count st ls events :
  localStorage st = Some ls →
  getPendingEvents st = PendingArray events →
  ∃ st', removePendingEvents count st = Some st' ∧
         getPendingEvents st' = PendingArray (slice count events) ∧
         (slice count events = [] → getItem_PENDING_EVENTS st' = None) ∧
         getItem_SESSION_ID st' = getItem_SESSION_ID st ∧
         getItem_USER_ID st' = getItem_USER_ID st.
Proof.
  intros Hls Harr. unfold removePendingEvents. rewrite Harr.
  assert (Hstored : ∃ stored, events = parse_event <$> stored).
  { destruct (getPendingEvents_array _ _ Harr) as [[_ ->]|(stored & _ & ->)];
      [by exists []|by exists stored]. }
  destruct Hstored as [stored ->]. rewrite slice_fmap.
  destruct (slice count stored) as [|e rest] eqn:Hslice; simpl.
  - eexists. split; [done|]. split; [apply getPendingEvents_clear|].
    unfold clearPendingEvents, removeItem_PENDING_EVENTS,
      getItem_PENDING_EVENTS, getItem_SESSION_ID, getItem_USER_ID,
      with_localStorage. simpl. by rewrite Hls.
  - eexists. split; [done|].
    change (parse_event e :: list_fmap _ _ parse_event rest)
      with (parse_event <$> e :: rest).
    rewrite safeStringify_parsed, (getPendingEvents_setItem _ _ _ Hls).
    split; [done|]. split; [done|].
    unfold getItem_SESSION_ID, getItem_USER_ID. simpl. by rewrite Hls.
Qed.

End OverflowFacts.

(** X4: [removePendingEvents(count)] on a working store. When the overflow
    read from the store is an array: a count from 0 up removes that many
    events from its front and keeps the rest in order; a count that reaches
    its length removes the key itself instead of leaving an empty array; a
    negative count keeps only the last [-count] events (all of them when
    there are fewer); and the two ids in the store stay as they are. When
    the store holds the text ['{}'], the call throws. *)
Theorem removePendingEvents_prefix (count : Z) (st : StorageManager.t)
    (ls : StorageManager.LocalStorage) :
  StorageManager.localStorage st = Some ls →
  (∀ events,
     StorageManager.getPendingEvents st = PendingArray events →
     ∃ st',
       StorageManager.removePendingEvents count st = Some st' ∧
       (0 ≤ count →
        StorageManager.getPendingEvents st'
          = PendingArray (drop (Z.to_nat count) events)) ∧
       (Z.of_nat (length events) ≤ count →
        StorageManager.getItem_PENDING_EVENTS st' = None) ∧
       (count < 0 →
        ∃ dropped kept,
          events = dropped ++ kept ∧
          StorageManager.getPendingEvents st' = PendingArray kept ∧
          length kept = Nat.min (Z.to_nat (- count)) (length events)) ∧
       StorageManager.getItem_SESSION_ID st'
         = StorageManager.getItem_SESSION_ID st ∧
       StorageManager.getItem_USER_ID st'
         = StorageManager.getItem_USER_ID st) ∧
  (StorageManager.getPendingEvents st = EmptyObject →
   StorageManager.removePendingEvents count st = None).
Proof.
  intros Hls. split.
  - intros events Harr.
    destruct (getPendingEvents_remove count st ls events Hls Harr)
      as (st' & Hrem & Hget & Hkey & Hsid & Huid).
    exists st'. split; [done|]. split; [|split; [|split]].
    + intros Hcount. by rewrite Hget, slice_nonneg.
    + intros Hcount. apply Hkey. rewrite slice_nonneg by lia.
      apply drop_ge. lia.
    + intros Hcount. rewrite slice_negative in Hget by done.
      exists (take (length events - Z.to_nat (- count)) events),
             (drop (length events - Z.to_nat (- count)) events).
      split; [by rewrite take_drop|]. split; [done|].
      rewrite length_drop. lia.
    + done.
  - intros Hobj. unfold StorageManager.removePendingEvents. by rewrite Hobj.
Qed.

Lemma removePendingEvents_prefix_witness :
  let st0 := StorageManager.new "uuid-1" (Some Sample.empty_store) in
  let st :=
    default st0
      (StorageManager.savePendingEvents
         [Sample.event "a" 1; Sample.event "b" 2; Sample.event "c" 3] st0) in
  ∃ st',
    StorageManager.removePendingEvents 2 st = Some st' ∧
    StorageManager.getPendingEvents st' = PendingArray [Sample.event "c" 3].
Proof.
  intros st0 st.
  assert (Hls : ∃ ls, StorageManager.localStorage st = Some ls)
    by (vm_compute; eauto).
  destruct Hls as [ls Hls].
  destruct (proj1 (removePendingEvents_prefix 2 st ls Hls)
              [Sample.event "a" 1; Sample.event "b" 2; Sample.event "c" 3])
    as (st' & Hrem & Hget & _); [by vm_compute|].
  exists st'. split; [exact Hrem|]. apply Hget. lia.
Defined.

(** X5: [clear()] removes the three keys from the store and forgets the
    user id, and it starts a new session that it does not persist: the
    manager goes on with the id it generated, the store holds no session id,
    and a manager created later on that store generates another one. *)
Theorem clear_starts_unpersisted_session (uuid uuid' : string)
    (st : StorageManager.t) :
  let st' := StorageManager.clear uuid st in
  StorageManager.getSessionId st' = uuid ∧
  (StorageManager.getUserId st').1 = None ∧
  StorageManager.getPendingEvents st' = PendingArray [] ∧
  StorageManager.getItem_SESSION_ID st' = None ∧
  StorageManager.getItem_USER_ID st' = None ∧
  StorageManager.getItem_PENDING_EVENTS st' = None ∧
  StorageManager.getSessionId
    (StorageManager.new uuid' (StorageManager.localStorage st')) = uuid'.
Proof.
  intros st'. subst st'. unfold StorageManager.getSessionId.
  rewrite new_sessionId.
  unfold StorageManager.clear, StorageManager.getUserId,
    StorageManager.getPendingEvents, StorageManager.getItem_SESSION_ID,
    StorageManager.getItem_USER_ID, StorageManager.getItem_PENDING_EVENTS.
  simpl. by destruct (StorageManager.localStorage st).
Qed.

Section AppendFacts.
Import StorageManager.

Lemma setItem_setItem text1 text2 st :
  setItem_PENDING_EVENTS text2 (setItem_PENDING_EVENTS text1 st)
    = setItem_PENDING_EVENTS text2 st.
Proof.
  destruct st as [sid uid [ls|]]; unfold setItem_PENDING_EVENTS,
    with_localStorage; simpl; done.
Qed.

Lemma getUserId_setItem text st :
  (getUserId (setItem_PENDING_EVENTS text st)).1 = (getUserId st).1.
Proof.
  unfold getUserId, getItem_USER_ID. simpl.
  destruct (truthy_str (sm_userId st)); [done|].
  destruct (localStorage st) as [ls|]; simpl; [|done].
  by destruct (truthy_str _).
Qed.

End AppendFacts.

(** X6: appends to the overflow compose as long as the first batch can be
    serialised. On a working store whose overflow is an array, saving [a]
    and then [b] leaves the storage manager exactly as saving [a ++ b] does,
    provided [JSON.stringify] does not throw on [a]. When it does throw, the
    first save leaves the text ['{}'], on which the second save throws,
    whereas the one save of [a ++ b] completes. Without a store every save
    completes and changes nothing. A save that completes touches neither
    id. *)
Theorem savePendingEvents_app (a b : list TrackEvent) (st : StorageManager.t) :
  (∀ ls existing,
     StorageManager.localStorage st = Some ls →
     StorageManager.getPendingEvents st = PendingArray existing →
     ∃ st1,
       StorageManager.savePendingEvents a st = Some st1 ∧
       is_Some (StorageManager.savePendingEvents (a ++ b) st) ∧
       (is_Some (reread a) →
        StorageManager.savePendingEvents b st1
          = StorageManager.savePendingEvents (a ++ b) st) ∧
       (reread a = None →
        StorageManager.getPendingEvents st1 = EmptyObject ∧
        StorageManager.savePendingEvents b st1 = None)) ∧
  (StorageManager.localStorage st = None →
   StorageManager.savePendingEvents a st = Some st) ∧
  (∀ st1,
     StorageManager.savePendingEvents a st = Some st1 →
     StorageManager.getItem_SESSION_ID st1
       = StorageManager.getItem_SESSION_ID st ∧
     StorageManager.getItem_USER_ID st1 = StorageManager.getItem_USER_ID st ∧
     (StorageManager.getUserId st1).1 = (StorageManager.getUserId st).1).
Proof.
  split; [|split].
  - intros ls existing Hls Harr.
    destruct (savePendingEvents_array a st ls existing Hls Harr)
      as (st1 & Hsave & [ls1 Hls1] & _ & _ & _ & _ & Hread).
    exists st1. split; [done|].
    split; [unfold StorageManager.savePendingEvents; by rewrite Harr|].
    split.
    + intros [a' Ha]. rewrite Ha in Hread.
      unfold StorageManager.savePendingEvents in *.
      rewrite Harr in Hsave. injection Hsave as <-.
      rewrite Hread, Harr, setItem_setItem. do 2 f_equal.
      apply reread_Some in Ha as (sa & Hsa & ->).
      assert (Hex : ∃ stored, existing = parse_event <$> stored).
      { destruct (getPendingEvents_array _ _ Harr)
          as [[_ ->]|(stored & _ & ->)]; [by exists []|by exists stored]. }
      destruct Hex as [stored ->].
      rewrite <- fmap_app, !safeStringify_append, mapM_app, Hsa.
      destruct (mapM stringify_event b); [|done]. by rewrite app_assoc.
    + intros Ha. rewrite Ha in Hread. split; [done|].
      by apply savePendingEvents_object.
  - apply savePendingEvents_unavailable.
  - intros st1. unfold StorageManager.savePendingEvents.
    destruct (StorageManager.getPendingEvents st); [|done].
    intros [= <-]. split; [|split].
    + unfold StorageManager.getItem_SESSION_ID. simpl.
      by destruct (StorageManager.localStorage st).
    + unfold StorageManager.getItem_USER_ID. simpl.
      by destruct (StorageManager.localStorage st).
    + apply getUserId_setItem.
Qed.

Lemma savePendingEvents_app_witness :
  let st := StorageManager.new "uuid-1" (Some Sample.empty_store) in
  let a := [Sample.event "a" 1] in
  let b := [Sample.event "b" 2] in
  ∃ st1,
    StorageManager.savePendingEvents a st = Some st1 ∧
    StorageManager.savePendingEvents b st1
      = StorageManager.savePendingEvents (a ++ b) st.
Proof.
  intros st a b.
  assert (Hls : ∃ ls, StorageManager.localStorage st = Some ls)
    by (vm_compute; eauto).
  destruct Hls as [ls Hls].
  assert (Harr : StorageManager.getPendingEvents st = PendingArray [])
    by by vm_compute.
  destruct (proj1 (savePendingEvents_app a b st) ls [] Hls Harr)
    as (st1 & Hsave & _ & Hsame & _).
  exists st1. split; [exact Hsave|]. apply Hsame. by vm_compute; eexists.
Defined.

(** ** The reporter, further *)

(** X7: one [report], one request. An empty batch makes no request. A batch
    with events makes exactly one, to the report URL, with the text
    [formatPayload] returns as its body: through [sendBeacon] when the mode
    is beacon and the browser has it, through [fetch] otherwise. In
    particular a beacon the browser rejects is not sent again through
    [fetch]. That text is an array with one record for each event of the
    batch, in order, the record being what [JSON.stringify] writes for the
    object built from the event, when no value in the batch makes
    [JSON.stringify] throw; when a value of some event does, the text is
    ['{}'] and carries no event. *)
Theorem report_one_request (cfg : TrackerConfig) (net : Reporter.Network)
    (events : list TrackEvent) :
  Reporter.calls (Reporter.report cfg net events) =
    match events with
    | [] => []
    | _ =>
        [match reportMethod cfg, Reporter.sendBeacon net with
         | Some BEACON, Some _ =>
             Reporter.BeaconCall (reportUrl cfg)
               (Reporter.formatPayload cfg events)
         | _, _ =>
             Reporter.FetchCall (reportUrl cfg) (Reporter.request_headers cfg)
               (default 10000 (timeout cfg))
               (Reporter.formatPayload cfg events)
         end]
    end ∧
  match Reporter.formatPayload cfg events with
  | RecordsBody records =>
      length records = length events ∧
      ∀ (i : nat) e, events !! i = Some e →
        records !! i = JSON.stringify_object (Reporter.formatEvent cfg e)
  | EmptyObjectBody =>
      ∃ e k v, e ∈ events ∧ Reporter.formatEvent cfg e !! k = Some v ∧
               JSON.throws v = true
  end.
Proof.
  split.
  - destruct events as [|e events]; [done|].
    rewrite report_result by done.
    destruct (reportMethod cfg) as [[| |]|];
      rewrite ?sendBeacon_result, ?sendFetch_result; try done;
      destruct (Reporter.sendBeacon net);
      by rewrite ?sendFetch_result.
  - destruct (Reporter.formatPayload cfg events) as [records|] eqn:Hbody.
    + split.
      * revert Hbody.
        unfold Reporter.formatPayload, safeStringify_payload, Reporter.payload.
        destruct (mapM _ _) as [rs|] eqn:Hrs; [|done]. intros [= <-].
        apply length_mapM in Hrs. by rewrite length_fmap in Hrs.
      * intros i e He.
        destruct (formatPayload_records cfg events records i e Hbody He)
          as (record & -> & ->). done.
    + revert Hbody.
      unfold Reporter.formatPayload, safeStringify_payload, Reporter.payload.
      destruct (mapM _ _) as [rs|] eqn:Hrs; [done|]. intros _.
      apply mapM_None_1, Exists_exists in Hrs as (fields & Hin & Hnone).
      apply list_elem_of_fmap in Hin as (e & -> & He).
      apply stringify_object_throws in Hnone as (k & v & Hk & Hv).
      by exists e, k, v.
Qed.



(** X9: the event type, the page title, the screen resolution, the duration
    and [click_for] of an event are not sent. Two events that agree on the
    other fields have the same record on the wire. *)
Theorem formatEvent_ignores (cfg : TrackerConfig) (e e' : TrackEvent) :
  eventName e = eventName e' → properties e = properties e' →
  timestamp e = timestamp e' → userId e = userId e' →
  sessionId e = sessionId e' → pageUrl e = pageUrl e' →
  userAgent e = userAgent e' → deviceType e = deviceType e' →
  Reporter.formatEvent cfg e = Reporter.formatEvent cfg e'.
Proof.
  intros Hn Hp Ht Hu Hs Hurl Hua Hd.
  unfold Reporter.formatEvent, Reporter.canonical.
  by rewrite Hn, Hp, Ht, Hu, Hs, Hurl, Hua, Hd.
Qed.

Lemma formatEvent_ignores_witness :
  Reporter.formatEvent (Sample.cfg BATCH 3) (Sample.event "a" 1) =
  Reporter.formatEvent (Sample.cfg BATCH 3)
    {| eventType := CLICK; eventName := "a"; properties := None;
       timestamp := Some 1; userId := Some "test-user";
       sessionId := Some "session-1";
       pageUrl := Some "https://example.com/home"; pageTitle := Some "Other";
       userAgent := Some "Mozilla/5.0"; screenResolution := Some "800x600";
       deviceType := Some "desktop"; duration := Some 5;
       click_for := Some "nav-link" |}.
Proof.
  apply formatEvent_ignores; reflexivity.
Defined.

(** X10: what is [undefined] is left out of the text. No field of a record
    in the request body has the value [undefined]; an event without a user
    id (and without a custom property of that name) is sent without a
    [user_id] field, and one without a device type is sent with platform
    ['desktop']. *)
Theorem wire_record_defined (cfg : TrackerConfig) (e : TrackEvent) (k : string) :
  Reporter.wire_record (Reporter.formatEvent cfg e) !! k ≠ Some JUndefined ∧
  (userId e = None → default ∅ (properties e) !! "user_id" = None →
   Reporter.wire_record (Reporter.formatEvent cfg e) !! "user_id" = None) ∧
  (truthy_str (deviceType e) = false →
   default ∅ (properties e) !! "platform" = None →
   Reporter.wire_record (Reporter.formatEvent cfg e) !! "platform"
     = Some (JStr "desktop")).
Proof.
  split; [|split].
  - rewrite wire_record_lookup.
    destruct (Reporter.formatEvent cfg e !! k) as [v|]; [|done].
    case_decide; [congruence|done].
  - intros Hu Hp. rewrite wire_record_lookup, formatEvent_lookup.
    destruct (properties e) as [props|]; simpl in *; rewrite ?Hp;
      unfold Reporter.canonical; rewrite Hu; by simplify_map_eq.
  - intros Hd Hp. rewrite wire_record_lookup, formatEvent_lookup.
    assert (Hdesk : or_str (deviceType e) "desktop" = "desktop").
    { unfold or_str, truthy_str in *. destruct (deviceType e); [|done].
      by case_decide. }
    destruct (properties e) as [props|]; simpl in *; rewrite ?Hp;
      unfold Reporter.canonical; rewrite Hdesk; by simplify_map_eq.
Qed.

Lemma wire_record_defined_witness :
  Reporter.wire_record
    (Reporter.formatEvent (Sample.cfg BATCH 10)
       (ArgosTracker.partial_event CUSTOM "opened" None)) !! "user_id" = None.
Proof.
  destruct (wire_record_defined (Sample.cfg BATCH 10)
              (ArgosTracker.partial_event CUSTOM "opened" None) "user_id")
    as (_ & Habsent & _).
  apply Habsent; reflexivity.
Defined.


(** ** The collector, further *)

Section CollectorFacts.
Import AutoCollector.

Lemma trackPageViews_spaced pages c :
  spaced (lastPageViewUrl c) (lastPageViewTime c) (trackPageViews pages c).1 ∧
  (trackPageViews pages c).1 `sublist_of` pages.
Proof.
  revert c. induction pages as [|page pages IH]; intros c; simpl.
  { split; [done|constructor]. }
  unfold trackPageView. case_decide as Hdup.
  - destruct (IH c) as [Hs Hsub].
    destruct (trackPageViews pages c) as [created c2]. simpl in *.
    split; [done|]. by constructor.
  - match goal with |- context [trackPageViews pages ?c1] =>
      destruct (IH c1) as [Hs Hsub];
      destruct (trackPageViews pages c1) as [created c2] end.
    simpl in *. split; [|by constructor]. split; [|done].
    intros Hurl. destruct (decide (100 ≤ now page - lastPageViewTime c));
      [done|]. destruct Hdup. split; [done|lia].
Qed.

Lemma spaced_adjacent url time created i p1 p2 :
  spaced url time created →
  created !! i = Some p1 → created !! S i = Some p2 →
  href p1 = href p2 → 100 ≤ now p2 - now p1.
Proof.
  revert url time i. induction created as [|p created IH]; [done|].
  intros url time i [_ Hrest] H1 H2 Hurl. destruct i as [|i].
  - simpl in H1. injection H1 as ->. destruct created as [|q created]; [done|].
    simpl in H2. injection H2 as ->. destruct Hrest as [Hq _]. by apply Hq.
  - by eapply IH.
Qed.

End CollectorFacts.

(** X11: the page views the collector creates are spaced. Over any run of
    [trackPageView] calls, with any clock, the visits that produce an event
    are a subsequence of the calls, and two page views created one after the
    other for the same URL are 100 ms or more apart. *)
Theorem auto_page_views_spaced (pages : list Page) (c : AutoCollector.t)
    (i : nat) (p1 p2 : Page) :
  let created := (AutoCollector.trackPageViews pages c).1 in
  created `sublist_of` pages ∧
  (created !! i = Some p1 → created !! S i = Some p2 →
   href p1 = href p2 → 100 ≤ now p2 - now p1).
Proof.
  intros created. destruct (trackPageViews_spaced pages c) as [Hs Hsub].
  split; [done|]. by apply spaced_adjacent with (1 := Hs).
Qed.

Lemma auto_page_views_spaced_witness :
  100 ≤ now (Sample.page 1200) - now (Sample.page 1000).
Proof.
  destruct (auto_page_views_spaced
              [Sample.page 1000; Sample.page 1050; Sample.page 1200]
              AutoCollector.new 0 (Sample.page 1000) (Sample.page 1200))
    as [_ Hgap].
  apply Hgap; reflexivity.
Defined.


(** ** The tracker, further *)

Section ConstructionFacts.
Import ArgosTracker.

Lemma getPendingEvents_new_any uuid ls :
  StorageManager.getPendingEvents (StorageManager.new uuid ls) =
    found_overflow ls.
Proof.
  destruct ls as [ls|]; [apply getPendingEvents_new|].
  unfold StorageManager.new, StorageManager.getUserId,
    StorageManager.getItem_SESSION_ID, StorageManager.getItem_USER_ID. done.
Qed.

(** The tracker [new] returns. *)
Lemma new_state cfg uuid ls page :
  let s := new cfg uuid ls page in
  let pending := events_of (found_overflow ls) in
  eventQueue s = pending ∧ reports s = [] ∧ awaiting s = [] ∧
  delivered s = [] ∧ isInitialized s = true ∧ batchTimer s = None ∧
  unloadHooked s = true ∧ config s = with_defaults cfg ∧
  timers s = match pending with
             | [] => []
             | _ => [mkTimer 1 RestoreSend 1000]
             end ∧
  collector s = (AutoCollector.start (with_defaults cfg) page AutoCollector.new).1 ∧
  StorageManager.getPendingEvents (storage s) =
    match found_overflow ls with
    | PendingArray _ => PendingArray []
    | EmptyObject => EmptyObject
    end.
Proof.
  intros s pending. subst s pending. unfold new, init. simpl.
  set (sto := if truthy_str (cfg_userId cfg) then _ else _).
  assert (Hsto : StorageManager.getPendingEvents (storage sto)
                   = found_overflow ls
                 ∧ eventQueue sto = [] ∧ timers sto = [] ∧ nextTimerId sto = 1
                 ∧ reports sto = [] ∧ awaiting sto = [] ∧ delivered sto = []
                 ∧ isInitialized sto = false ∧ config sto = with_defaults cfg
                 ∧ batchTimer sto = None ∧ collector sto = AutoCollector.new).
  { unfold sto. destruct (truthy_str (cfg_userId cfg)); simpl;
      by rewrite ?getPendingEvents_setUserId, getPendingEvents_new_any. }
  clearbody sto.
  destruct Hsto as (Hp & Hq & Ht & Hn & Hr & Ha & Hd & Hi & Hc & Hb & Hcol).
  rewrite Hc, Hcol.
  destruct (AutoCollector.start (with_defaults cfg) page AutoCollector.new)
    as [c ev].
  set (s3 := match ev with Some e => _ | None => _ end).
  assert (Hs3 : s3 = set_collector c sto).
  { unfold s3. destruct ev; [|done]. unfold handleAutoEvent.
    by apply trackEvent_uninitialized. }
  rewrite Hs3. unfold restorePendingEvents, setupBeforeUnload. simpl.
  rewrite Hp. destruct (found_overflow ls) as [[|e0 pending']|]; simpl.
  - by rewrite Hq, Ht, Hr, Ha, Hd, Hc, Hb, Hp.
  - rewrite Hq, Ht, Hn, Hr, Ha, Hd, Hc, Hb, getPendingEvents_clear. done.
  - by rewrite Hq, Ht, Hr, Ha, Hd, Hc, Hb, Hp.
Qed.

Lemma new_collector cfg uuid ls page :
  autoTrackPageView cfg ≠ Some false →
  ¬ (href page = "" ∧ now page < 100) →
  let c := collector (new cfg uuid ls page) in
  AutoCollector.isCollecting c = true ∧
  AutoCollector.pageViewHooked c = true ∧
  AutoCollector.lastPageViewUrl c = href page ∧
  AutoCollector.lastPageViewTime c = now page.
Proof.
  intros Hauto Hfirst c. subst c.
  destruct (new_state cfg uuid ls page)
    as (_ & _ & _ & _ & _ & _ & _ & _ & _ & -> & _).
  unfold AutoCollector.start. simpl.
  assert (Htrue : AutoCollector.is_true
                    (spread (Some DEFAULT_CONFIG.autoTrackPageView)
                       (autoTrackPageView cfg)) = true).
  { destruct (autoTrackPageView cfg) as [[|]|]; done. }
  rewrite Htrue. unfold AutoCollector.trackPageView. simpl.
  rewrite decide_False; [done|].
  intros [Hurl Htime]. apply Hfirst. split; [done|lia].
Qed.

End ConstructionFacts.

(** X12: what [new ArgosTracker(config)] leaves on the queue is exactly the
    overflow found in the store, whatever the configuration: the events of
    the array under the pending-events key, and none when the key is absent
    or holds ['{}']. Nothing has been reported, the array has been removed
    from the store (the text ['{}'] stays), and the page view the collector
    creates while it starts is not queued, because it reaches [trackEvent]
    before [isInitialized] is set. The collector has nevertheless recorded
    that page view as its most recent one. *)
Theorem construction_queues_only_overflow (cfg : TrackerConfig) (uuid : string)
    (ls : option StorageManager.LocalStorage) (page : Page) :
  let s := ArgosTracker.new cfg uuid ls page in
  ArgosTracker.eventQueue s = events_of (found_overflow ls) ∧
  ArgosTracker.reports s = [] ∧
  ArgosTracker.isInitialized s = true ∧
  StorageManager.getPendingEvents (ArgosTracker.storage s) =
    match found_overflow ls with
    | PendingArray _ => PendingArray []
    | EmptyObject => EmptyObject
    end ∧
  (autoTrackPageView cfg ≠ Some false →
   ¬ (href page = "" ∧ now page < 100) →
   AutoCollector.isCollecting (ArgosTracker.collector s) = true ∧
   AutoCollector.pageViewHooked (ArgosTracker.collector s) = true ∧
   AutoCollector.lastPageViewUrl (ArgosTracker.collector s) = href page ∧
   AutoCollector.lastPageViewTime (ArgosTracker.collector s) = now page).
Proof.
  intros s.
  destruct (new_state cfg uuid ls page)
    as (Hq & Hr & _ & _ & Hi & _ & _ & _ & _ & Hcol & Hp).
  fold s in Hq, Hr, Hi, Hcol, Hp.
  do 4 (split; [done|]). intros Hauto Hfirst.
  by apply new_collector.
Qed.

Lemma construction_queues_only_overflow_witness :
  let s := Sample.tracker_with_overflow in
  ArgosTracker.eventQueue s = [Sample.event "a" 1; Sample.event "b" 2] ∧
  ArgosTracker.reports s = [].
Proof.
  intros s.
  destruct (construction_queues_only_overflow (Sample.cfg BATCH 10) "uuid-1"
              (Some (StorageManager.mkLocalStorage (Some "session-1") None
                       (Some (EventsText [Sample.stored_event "a" 1;
                                          Sample.stored_event "b" 2]))))
              (Sample.page 0)) as (Hq & Hr & _).
  split; [exact Hq|exact Hr].
Defined.

(** X13: the page view dropped at construction still counts for the dedup.
    With automatic page views on, a history change to the URL the tracker
    was constructed on, less than 100 ms after the construction, creates no
    event: no page view of that URL has reached the queue or a report. *)
Theorem first_history_change_deduplicated (cfg : TrackerConfig) (uuid : string)
    (ls : option StorageManager.LocalStorage) (page page2 : Page) :
  autoTrackPageView cfg ≠ Some false →
  ¬ (href page = "" ∧ now page < 100) →
  href page2 = href page → now page2 - now page < 100 →
  let s := ArgosTracker.new cfg uuid ls page in
  ∃ s', ArgosTracker.step (ArgosTracker.HistoryChange page2) s = Some s' ∧
        ArgosTracker.eventQueue s' = events_of (found_overflow ls) ∧
        ArgosTracker.reports s' = [].
Proof.
  intros Hauto Hfirst Hurl Htime s.
  destruct (new_collector cfg uuid ls page Hauto Hfirst)
    as (_ & Hhook & Hlast & Hlasttime).
  destruct (new_state cfg uuid ls page) as (Hq & Hr & _).
  fold s in Hhook, Hlast, Hlasttime, Hq, Hr.
  cbn [ArgosTracker.step]. rewrite Hhook.
  unfold AutoCollector.handleHistoryChange, AutoCollector.trackPageView.
  rewrite decide_True by (by rewrite Hlast, Hlasttime, Hurl).
  eexists. split; [reflexivity|]. done.
Qed.

Lemma first_history_change_deduplicated_witness :
  ∃ s', ArgosTracker.step (ArgosTracker.HistoryChange (Sample.page 1050))
          (ArgosTracker.new
             (mkConfig "https://api.example.com/track" "test-app" None None
                None None None None None None None None)
             "uuid-1" (Some Sample.empty_store) (Sample.page 1000)) = Some s' ∧
        ArgosTracker.eventQueue s' = [] ∧ ArgosTracker.reports s' = [].
Proof.
  apply (first_history_change_deduplicated
           (mkConfig "https://api.example.com/track" "test-app" None None
              None None None None None None None None)
           "uuid-1" (Some Sample.empty_store) (Sample.page 1000)
           (Sample.page 1050)).
  - discriminate.
  - intros [Hurl _]. discriminate Hurl.
  - reflexivity.
  - simpl. lia.
Defined.

(** ** Queueing policies *)

Section PolicyFacts.
Import ArgosTracker.

Lemma addToQueue_at_threshold e s :
  reportMethod (config s) = Some BATCH →
  or_num (batchSize (config s)) 10 ≤ Z.of_nat (length (eventQueue s) + 1) →
  addToQueue e s = sendEvents (set_eventQueue (eventQueue s ++ [e]) s).
Proof.
  intros Hmode Hlen. unfold addToQueue. simpl. rewrite Hmode.
  rewrite bool_decide_eq_true_2; [done|]. rewrite length_app. simpl. lia.
Qed.

Lemma scheduleBatchSend_frame s :
  let s' := scheduleBatchSend s in
  eventQueue s' = eventQueue s ∧ reports s' = reports s ∧
  awaiting s' = awaiting s ∧ config s' = config s ∧
  storage s' = storage s ∧ delivered s' = delivered s ∧
  isInitialized s' = isInitialized s ∧ collector s' = collector s ∧
  unloadHooked s' = unloadHooked s.
Proof. unfold scheduleBatchSend. by destruct (armed (batchTimer s)). Qed.

Lemma length_batches (k : Z) (new : list ReportCall) :
  Forall (λ c, Z.of_nat (length (call_events c)) = k) new →
  Z.of_nat (length (batches new)) = k * Z.of_nat (length new).
Proof.
  induction 1 as [|c new Hc _ IH]; [simpl; lia|].
  change (batches (c :: new)) with (call_events c ++ batches new).
  rewrite length_app, Nat2Z.inj_add, IH, Hc. simpl length. lia.
Qed.

Lemma batch_enqueue events : ∀ s (k : Z),
  reportMethod (config s) = Some BATCH →
  k = or_num (batchSize (config s)) 10 → 1 ≤ k →
  Z.of_nat (length (eventQueue s)) < k →
  let s' := foldl (λ st e, addToQueue e st) s events in
  ∃ new,
    reports s' = reports s ++ new ∧
    awaiting s' = awaiting s ++ new ∧
    Forall (λ c, teardown c = false ∧ call_config c = config s ∧
                 Z.of_nat (length (call_events c)) = k) new ∧
    batches new ++ eventQueue s' = eventQueue s ++ events ∧
    Z.of_nat (length (eventQueue s')) < k ∧
    config s' = config s.
Proof.
  induction events as [|e events IH]; intros s k Hmode Hk Hpos Hlen; simpl.
  { exists []. by rewrite !app_nil_r. }
  destruct (decide (k ≤ Z.of_nat (length (eventQueue s) + 1))) as [Hfull|Hless].
  - rewrite addToQueue_at_threshold by (done || lia).
    rewrite sendEvents_swap by (simpl; by destruct (eventQueue s)).
    simpl. set (s1 := set_reports _ _).
    destruct (IH s1 k Hmode Hk Hpos) as (new & Hr & Ha & Hall & Hb & Hl & Hc).
    { simpl. lia. }
    simpl in Hr, Ha, Hall, Hb, Hl, Hc.
    exists (mkCall false (config s) (eventQueue s ++ [e]) :: new).
    rewrite Hr, Ha, Hc, <-!app_assoc. repeat split; try done.
    + constructor; [|done]. simpl. repeat split.
      rewrite length_app. simpl. lia.
    + change (batches (mkCall false (config s) (eventQueue s ++ [e]) :: new))
        with ((eventQueue s ++ [e]) ++ batches new).
      rewrite <-!app_assoc. simpl. do 2 f_equal. exact Hb.
  - rewrite addToQueue_below by (done || lia).
    set (s1 := scheduleBatchSend _).
    pose proof (scheduleBatchSend_frame
                  (set_eventQueue (eventQueue s ++ [e]) s))
      as (Hq1 & Hr1 & Ha1 & Hc1 & _).
    fold s1 in Hq1, Hr1, Ha1, Hc1. simpl in Hq1, Hr1, Ha1, Hc1.
    destruct (IH s1 k) as (new & Hr & Ha & Hall & Hb & Hl & Hc).
    { by rewrite Hc1. }
    { by rewrite Hc1. }
    { done. }
    { rewrite Hq1, length_app. simpl. lia. }
    simpl in Hr, Ha, Hall, Hb, Hl, Hc. exists new.
    rewrite Hr, Ha, Hc, Hr1, Ha1, Hc1. repeat split; try done.
    + by rewrite Hc1 in Hall.
    + by rewrite Hb, Hq1, <-app_assoc.
Qed.

End PolicyFacts.

(** X14: size-triggered flushes carry full batches. In batch mode with an
    effective batch size [k] of at least 1 ([batchSize], or 10 when it is 0
    or missing) and fewer than [k] events queued, enqueueing any number of
    events makes one [report] call for every [k] events, each with exactly
    [k] events; the calls in order followed by what stays queued are the old
    queue followed by the new events; and fewer than [k] events stay
    queued. *)
Theorem batch_flushes_full_batches (s : ArgosTracker.t)
    (events : list TrackEvent) :
  reportMethod (ArgosTracker.config s) = Some BATCH →
  let k := or_num (batchSize (ArgosTracker.config s)) 10 in
  1 ≤ k →
  Z.of_nat (length (ArgosTracker.eventQueue s)) < k →
  let s' := foldl (λ st e, ArgosTracker.addToQueue e st) s events in
  ∃ new,
    ArgosTracker.reports s' = ArgosTracker.reports s ++ new ∧
    Forall (λ c, ArgosTracker.teardown c = false ∧
                 Z.of_nat (length (ArgosTracker.call_events c)) = k) new ∧
    ArgosTracker.batches new ++ ArgosTracker.eventQueue s' =
      ArgosTracker.eventQueue s ++ events ∧
    Z.of_nat (length (ArgosTracker.eventQueue s')) < k ∧
    Z.of_nat (length new) =
      Z.of_nat (length (ArgosTracker.eventQueue s) + length events) / k.
Proof.
  intros Hmode k Hpos Hlen s'.
  destruct (batch_enqueue events s k Hmode eq_refl Hpos Hlen)
    as (new & Hr & _ & Hall & Hb & Hl & _).
  fold s' in Hr, Hb, Hl. exists new.
  assert (Hall' : Forall (λ c, Z.of_nat (length (ArgosTracker.call_events c)) = k) new).
  { eapply Forall_impl; [exact Hall|]. by intros c (_ & _ & ?). }
  split; [done|]. split.
  { eapply Forall_impl; [exact Hall|]. by intros c (? & _ & ?). }
  split; [done|]. split; [done|].
  apply (f_equal length) in Hb. rewrite !length_app in Hb.
  pose proof (length_batches k new Hall') as Hlen_new.
  apply Z.div_unique with (r := Z.of_nat (length (ArgosTracker.eventQueue s'))).
  - left. lia.
  - lia.
Qed.

Lemma batch_flushes_full_batches_witness :
  let s := Sample.tracker BATCH 3 in
  let events :=
    [Sample.event "a" 1; Sample.event "b" 2; Sample.event "c" 3;
     Sample.event "d" 4; Sample.event "e" 5; Sample.event "f" 6;
     Sample.event "g" 7] in
  let s' := foldl (λ st e, ArgosTracker.addToQueue e st) s events in
  ∃ new,
    ArgosTracker.reports s' = ArgosTracker.reports s ++ new ∧
    Z.of_nat (length new) = 2.
Proof.
  intros s events s'.
  destruct (batch_flushes_full_batches s events eq_refl ltac:(vm_compute; discriminate)
              ltac:(vm_compute; reflexivity))
    as (new & Hr & _ & _ & _ & Hn).
  exists new. split; [exact Hr|]. rewrite Hn. reflexivity.
Defined.

(** X15: outside the immediate and batch modes nothing is sent on enqueue.
    In beacon mode, or with no report method, enqueueing any number of
    events only lengthens the queue: no [report] call, no timer, no write to
    the store. *)
Theorem beacon_mode_only_queues (s : ArgosTracker.t) (events : list TrackEvent) :
  reportMethod (ArgosTracker.config s) ≠ Some IMMEDIATE →
  reportMethod (ArgosTracker.config s) ≠ Some BATCH →
  let s' := foldl (λ st e, ArgosTracker.addToQueue e st) s events in
  ArgosTracker.eventQueue s' = ArgosTracker.eventQueue s ++ events ∧
  ArgosTracker.reports s' = ArgosTracker.reports s ∧
  ArgosTracker.awaiting s' = ArgosTracker.awaiting s ∧
  ArgosTracker.timers s' = ArgosTracker.timers s ∧
  ArgosTracker.batchTimer s' = ArgosTracker.batchTimer s ∧
  ArgosTracker.storage s' = ArgosTracker.storage s.
Proof.
  revert s. induction events as [|e events IH]; intros s Himm Hbatch; simpl.
  { by rewrite app_nil_r. }
  assert (Hadd : ArgosTracker.addToQueue e s =
            ArgosTracker.set_eventQueue (ArgosTracker.eventQueue s ++ [e]) s).
  { unfold ArgosTracker.addToQueue. simpl.
    by destruct (reportMethod (ArgosTracker.config s)) as [[| |]|]. }
  rewrite Hadd.
  destruct (IH (ArgosTracker.set_eventQueue
                  (ArgosTracker.eventQueue s ++ [e]) s))
    as (Hq & Hr & Ha & Ht & Hb & Hs); [done|done|].
  simpl in *. by rewrite Hq, Hr, Ha, Ht, Hb, Hs, <-app_assoc.
Qed.

Lemma beacon_mode_only_queues_witness :
  let s := Sample.tracker BEACON 3 in
  let s' :=
    foldl (λ st e, ArgosTracker.addToQueue e st) s
      [Sample.event "a" 1; Sample.event "b" 2; Sample.event "c" 3;
       Sample.event "d" 4] in
  ArgosTracker.reports s' = ArgosTracker.reports s ∧
  ArgosTracker.timers s' = ArgosTracker.timers s.
Proof.
  intros s s'.
  destruct (beacon_mode_only_queues s
              [Sample.event "a" 1; Sample.event "b" 2; Sample.event "c" 3;
               Sample.event "d" 4])
    as (_ & Hr & _ & Ht & _); [discriminate|discriminate|].
  split; [exact Hr|exact Ht].
Defined.

(** X16: in immediate mode every enqueue is a flush. The first enqueue
    sends whatever was queued (restored events, say) together with its
    event; every later one sends its event alone; the queue is empty after
    each, and no timer is armed. *)
Theorem immediate_mode_sends_each (s : ArgosTracker.t) (e : TrackEvent)
    (events : list TrackEvent) :
  reportMethod (ArgosTracker.config s) = Some IMMEDIATE →
  let s' := foldl (λ st e, ArgosTracker.addToQueue e st) s (e :: events) in
  let call := ArgosTracker.mkCall false (ArgosTracker.config s) in
  ArgosTracker.reports s' =
    ArgosTracker.reports s ++
      call (ArgosTracker.eventQueue s ++ [e]) :: ((λ e', call [e']) <$> events) ∧
  ArgosTracker.eventQueue s' = [] ∧
  ArgosTracker.timers s' = ArgosTracker.timers s ∧
  ArgosTracker.batchTimer s' = ArgosTracker.batchTimer s.
Proof.
  intros Hmode s' call. subst s'.
  assert (Hstep : ∀ s0 e0, reportMethod (ArgosTracker.config s0) = Some IMMEDIATE →
            ArgosTracker.addToQueue e0 s0 =
              ArgosTracker.set_reports
                (ArgosTracker.reports s0 ++
                   [ArgosTracker.mkCall false (ArgosTracker.config s0)
                      (ArgosTracker.eventQueue s0 ++ [e0])])
                (ArgosTracker.set_awaiting
                   (ArgosTracker.awaiting s0 ++
                      [ArgosTracker.mkCall false (ArgosTracker.config s0)
                         (ArgosTracker.eventQueue s0 ++ [e0])])
                   (ArgosTracker.set_eventQueue []
                      (ArgosTracker.set_eventQueue
                         (ArgosTracker.eventQueue s0 ++ [e0]) s0)))).
  { intros s0 e0 Hm. unfold ArgosTracker.addToQueue. simpl. rewrite Hm.
    rewrite sendEvents_swap; [done|]. simpl.
    by destruct (ArgosTracker.eventQueue s0). }
  simpl. rewrite Hstep by done.
  set (s1 := ArgosTracker.set_reports _ _).
  assert (H1 : ArgosTracker.eventQueue s1 = [] ∧
               ArgosTracker.config s1 = ArgosTracker.config s ∧
               ArgosTracker.timers s1 = ArgosTracker.timers s ∧
               ArgosTracker.batchTimer s1 = ArgosTracker.batchTimer s ∧
               ArgosTracker.reports s1 =
                 ArgosTracker.reports s ++
                   [call (ArgosTracker.eventQueue s ++ [e])]) by done.
  clearbody s1. destruct H1 as (Hq1 & Hc1 & Ht1 & Hb1 & Hr1).
  rewrite <-Ht1, <-Hb1.
  replace (ArgosTracker.reports s ++
             call (ArgosTracker.eventQueue s ++ [e])
               :: ((λ e', call [e']) <$> events))
    with (ArgosTracker.reports s1 ++ ((λ e', call [e']) <$> events))
    by (by rewrite Hr1, <-app_assoc).
  subst call. rewrite <-Hc1. rewrite <-Hc1 in Hmode.
  clear Hr1 Ht1 Hb1 Hc1 s e. revert s1 Hq1 Hmode.
  induction events as [|e events IH]; intros s1 Hq1 Hmode; simpl.
  { by rewrite app_nil_r. }
  rewrite Hstep by done. rewrite Hq1. simpl.
  match goal with |- context [foldl _ ?s2 events] =>
    destruct (IH s2) as (Hr & Hq & Ht & Hb) end; [done|done|].
  simpl in *. rewrite Hr, Hq, Ht, Hb, <-app_assoc. done.
Qed.

Lemma immediate_mode_sends_each_witness :
  let s := Sample.tracker IMMEDIATE 10 in
  let s' :=
    foldl (λ st e, ArgosTracker.addToQueue e st) s
      [Sample.event "a" 1; Sample.event "b" 2] in
  ArgosTracker.eventQueue s' = [].
Proof.
  intros s s'.
  exact (proj1 (proj2 (immediate_mode_sends_each s (Sample.event "a" 1)
                         [Sample.event "b" 2] eq_refl))).
Defined.

(** ** Flush, destroy and the shape of reports *)

Section FlushFacts.
Import ArgosTracker.

Lemma cancelBatchTimer_disarms s :
  wf s →
  batchTimer (cancelBatchTimer s) = None ∧
  batch_timers (cancelBatchTimer s) = [] ∧
  eventQueue (cancelBatchTimer s) = eventQueue s ∧
  reports (cancelBatchTimer s) = reports s ∧
  awaiting (cancelBatchTimer s) = awaiting s ∧
  config (cancelBatchTimer s) = config s ∧
  storage (cancelBatchTimer s) = storage s ∧
  delivered (cancelBatchTimer s) = delivered s ∧
  collector (cancelBatchTimer s) = collector s ∧
  unloadHooked (cancelBatchTimer s) = unloadHooked s.
Proof.
  intros Hwf. pose proof (wf_cancelBatchTimer s Hwf) as Hwf'.
  assert (Hnone : batchTimer (cancelBatchTimer s) = None).
  { unfold cancelBatchTimer. destruct (batchTimer s) as [id|] eqn:Hb; [|done].
    destruct (armed (Some id)) eqn:Harmed; [done|].
    rewrite <-Hb in Harmed. apply (wf_armed s Hwf) in Harmed. congruence. }
  split; [done|]. split.
  { pose proof (wf_batch _ Hwf') as H. by rewrite Hnone in H. }
  unfold cancelBatchTimer. destruct (batchTimer s); [|done].
  by destruct (armed _).
Qed.

Lemma sendEvents_frame s :
  batchTimer (sendEvents s) = batchTimer s ∧
  timers (sendEvents s) = timers s ∧
  storage (sendEvents s) = storage s ∧
  delivered (sendEvents s) = delivered s ∧
  config (sendEvents s) = config s ∧
  collector (sendEvents s) = collector s ∧
  isInitialized (sendEvents s) = isInitialized s ∧
  unloadHooked (sendEvents s) = unloadHooked s ∧
  eventQueue (sendEvents s) = [] ∧
  reports (sendEvents s) =
    reports s ++ match eventQueue s with
                 | [] => []
                 | _ => [mkCall false (config s) (eventQueue s)]
                 end.
Proof.
  unfold sendEvents. destruct (eventQueue s) eqn:Hq; simpl;
    by rewrite ?app_nil_r.
Qed.

Lemma flush_state s :
  wf s →
  eventQueue (flush s) = [] ∧ batchTimer (flush s) = None ∧
  batch_timers (flush s) = [] ∧
  reports (flush s) =
    reports s ++ match eventQueue s with
                 | [] => []
                 | _ => [mkCall false (config s) (eventQueue s)]
                 end ∧
  storage (flush s) = storage s ∧ delivered (flush s) = delivered s ∧
  collector (flush s) = collector s ∧ unloadHooked (flush s) = unloadHooked s.
Proof.
  intros Hwf.
  destruct (cancelBatchTimer_disarms s Hwf)
    as (Hb & Hbt & Hq & Hr & Ha & Hc & Hs & Hd & Hcol & Hu).
  destruct (sendEvents_frame (cancelBatchTimer s))
    as (Hb' & Ht' & Hs' & Hd' & Hc' & Hcol' & Hi' & Hu' & Hq' & Hr').
  unfold flush, batch_timers.
  rewrite Hq', Hb', Ht', Hs', Hd', Hr', Hcol', Hu', Hb, Hq, Hr, Hc, Hs, Hd,
    Hcol, Hu.
  by fold (batch_timers (cancelBatchTimer s)).
Qed.

Lemma nonempty_frame s s' :
  reports s' = reports s → awaiting s' = awaiting s →
  nonempty_reports s → nonempty_reports s'.
Proof. unfold nonempty_reports. by intros -> ->. Qed.

Lemma nonempty_sendEvents s : nonempty_reports s → nonempty_reports (sendEvents s).
Proof.
  intros [Hr Ha]. unfold sendEvents. destruct (eventQueue s) eqn:Hq; [done|].
  split; simpl; apply Forall_app; (split; [done|]); by repeat constructor.
Qed.

Lemma nonempty_addToQueue e s : nonempty_reports s → nonempty_reports (addToQueue e s).
Proof.
  intros Hne. unfold addToQueue.
  set (s1 := set_eventQueue (eventQueue s ++ [e]) s).
  assert (H1 : nonempty_reports s1) by by apply (nonempty_frame s).
  destruct (reportMethod (config s1)) as [[| |]|]; try done;
    try by apply nonempty_sendEvents.
  case_bool_decide; [by apply nonempty_sendEvents|].
  apply (nonempty_frame s1); [..|done];
    by destruct (scheduleBatchSend_frame s1) as (_ & ? & ? & _).
Qed.

Lemma nonempty_trackEvent page e s :
  nonempty_reports s → nonempty_reports (trackEvent page e s).
Proof.
  intros Hne. unfold trackEvent. destruct (negb (isInitialized s)); [done|].
  destruct (if truthy_str (userId e) then _ else _) as [uid sto].
  apply nonempty_addToQueue. by apply (nonempty_frame s).
Qed.

Lemma nonempty_cancelBatchTimer s :
  nonempty_reports s → nonempty_reports (cancelBatchTimer s).
Proof.
  apply nonempty_frame; unfold cancelBatchTimer;
    destruct (batchTimer s); try done; by destruct (armed _).
Qed.

Lemma nonempty_flush s : nonempty_reports s → nonempty_reports (flush s).
Proof. intros H. by apply nonempty_sendEvents, nonempty_cancelBatchTimer. Qed.

Lemma nonempty_step l s s' :
  nonempty_reports s → step l s = Some s' → nonempty_reports s'.
Proof.
  intros Hne. destruct l; simpl.
  - intros [= <-]. by apply nonempty_trackEvent.
  - intros [= <-]. by apply nonempty_trackEvent.
  - intros [= <-]. by apply nonempty_trackEvent.
  - intros [= <-]. by apply nonempty_trackEvent.
  - intros [= <-]. by apply nonempty_trackEvent, (nonempty_frame s).
  - intros [= <-]. by apply nonempty_trackEvent, (nonempty_frame s).
  - intros [= <-]. unfold getUserId.
    destruct (StorageManager.getUserId _). by apply (nonempty_frame s).
  - intros [= <-]. by apply (nonempty_frame s).
  - intros [= <-]. by apply nonempty_flush.
  - intros [= <-]. apply (nonempty_frame s); [..|done];
      unfold updateConfig; by destruct (truthy_str _).
  - intros [= <-]. unfold destroy.
    apply (nonempty_frame
             (flush (cancelBatchTimer
                       (set_collector (AutoCollector.stop (collector s)) s))));
      [done|done|].
    by apply nonempty_flush, nonempty_cancelBatchTimer, (nonempty_frame s).
  - destruct (AutoCollector.pageViewHooked _); [|done].
    destruct (AutoCollector.handleHistoryChange _ _) as [c [e|]];
      intros [= <-].
    + by apply nonempty_trackEvent, (nonempty_frame s).
    + by apply (nonempty_frame s).
  - destruct (_ || _); [|done]. intros [= <-]. by apply nonempty_trackEvent.
  - unfold fire. destruct (list_find _ _) as [[j tm]|]; [|done].
    intros [= <-]. unfold run_callback.
    assert (H1 : nonempty_reports (sendEvents (clearTimeout id s)))
      by by apply nonempty_sendEvents, (nonempty_frame s).
    destruct (callback tm); [|done]. by apply (nonempty_frame (sendEvents (clearTimeout id s))).
  - unfold settle. destruct (awaiting s !! i) as [call|] eqn:Hcall; [|done].
    intros [= <-]. destruct Hne as [Hr Ha].
    assert (Hdel : Forall (λ c, call_events c ≠ []) (delete i (awaiting s))).
    { by apply Forall_delete. }
    unfold sendEvents_resume.
    destruct (Reporter.result _) as [[|]|]; case_save; by split.
  - destruct (unloadHooked s); [|done]. intros [= <-].
    unfold handleBeforeUnload. destruct (eventQueue s) as [|e q] eqn:Hq; [done|].
    destruct Hne as [Hr Ha].
    destruct (Reporter.result _) as [[|]|]; case_save; split; simpl; try done;
      apply Forall_app; (split; [done|]); by repeat constructor.
Qed.

End FlushFacts.

(** X17: [flush()] on a tracker in any state it can reach: afterwards the
    queue is empty and no batch timer is armed; the events that were queued
    have gone to one [report] call, in order; and when there were none there
    is no [report] call and no write to the store, but an armed batch timer
    is cancelled all the same. *)
Theorem flush_empties_and_disarms (cfg : TrackerConfig) (uuid : string)
    (ls : option StorageManager.LocalStorage) (page : Page)
    (labels : list ArgosTracker.Label) (s : ArgosTracker.t) :
  ArgosTracker.run labels (ArgosTracker.new cfg uuid ls page) = Some s →
  let s' := ArgosTracker.flush s in
  ArgosTracker.eventQueue s' = [] ∧
  ArgosTracker.batchTimer s' = None ∧
  ArgosTracker.batch_timers s' = [] ∧
  ArgosTracker.reports s' =
    ArgosTracker.reports s ++
      match ArgosTracker.eventQueue s with
      | [] => []
      | _ => [ArgosTracker.mkCall false (ArgosTracker.config s)
                (ArgosTracker.eventQueue s)]
      end ∧
  ArgosTracker.storage s' = ArgosTracker.storage s.
Proof.
  intros Hrun s'.
  assert (Hwf : ArgosTracker.wf s) by (eapply wf_run; [apply wf_new|exact Hrun]).
  destruct (flush_state s Hwf) as (Hq & Hb & Hbt & Hr & Hs & _).
  done.
Qed.

Lemma flush_empties_and_disarms_witness :
  let s0 := Sample.tracker BATCH 10 in
  let s := ArgosTracker.track (Sample.page 1) "a" None s0 in
  ArgosTracker.run [ArgosTracker.Track (Sample.page 1) "a" None] s0 = Some s ∧
  ArgosTracker.batch_timers s ≠ [] ∧
  ArgosTracker.batch_timers (ArgosTracker.flush s) = [] ∧
  ArgosTracker.eventQueue (ArgosTracker.flush s) = [].
Proof.
  intros s0 s. split; [reflexivity|]. split; [vm_compute; discriminate|].
  destruct (flush_empties_and_disarms (Sample.cfg BATCH 10) "uuid-1"
              (Some Sample.empty_store) (Sample.page 0)
              [ArgosTracker.Track (Sample.page 1) "a" None] s eq_refl)
    as (Hq & _ & Hbt & _).
  split; [exact Hbt|exact Hq].
Defined.

(** X18: [destroy()] on a tracker in any state it can reach flushes what is
    queued in one last [report] call, cancels the batch timer, and turns the
    tracker off: every later tracking call and every later event from the
    collector is dropped without a trace. The unload listeners stay
    registered. *)
Theorem destroy_stops_tracking (cfg : TrackerConfig) (uuid : string)
    (ls : option StorageManager.LocalStorage) (page : Page)
    (labels : list ArgosTracker.Label) (s : ArgosTracker.t) :
  ArgosTracker.run labels (ArgosTracker.new cfg uuid ls page) = Some s →
  let s' := ArgosTracker.destroy s in
  ArgosTracker.eventQueue s' = [] ∧
  ArgosTracker.batch_timers s' = [] ∧
  ArgosTracker.reports s' =
    ArgosTracker.reports s ++
      match ArgosTracker.eventQueue s with
      | [] => []
      | _ => [ArgosTracker.mkCall false (ArgosTracker.config s)
                (ArgosTracker.eventQueue s)]
      end ∧
  ArgosTracker.unloadHooked s' = ArgosTracker.unloadHooked s ∧
  (∀ page' name props,
     ArgosTracker.track page' name props s' = s' ∧
     ArgosTracker.trackUserAction page' name props s' = s') ∧
  (∀ page' props, ArgosTracker.trackPageView page' props s' = s') ∧
  (∀ page' event, ArgosTracker.handleAutoEvent page' event s' = s').
Proof.
  intros Hrun s'.
  assert (Hwf : ArgosTracker.wf s) by (eapply wf_run; [apply wf_new|exact Hrun]).
  set (s1 := ArgosTracker.set_collector
               (AutoCollector.stop (ArgosTracker.collector s)) s).
  assert (Hwf1 : ArgosTracker.wf (ArgosTracker.cancelBatchTimer s1))
    by by apply wf_cancelBatchTimer, wf_set_collector.
  destruct (cancelBatchTimer_disarms s1 (wf_set_collector _ _ Hwf))
    as (_ & _ & Hq1 & Hr1 & _ & Hc1 & _ & _ & _ & Hu1).
  destruct (flush_state _ Hwf1) as (Hq & _ & Hbt & Hr & _ & _ & _ & Hu).
  assert (Hoff : ArgosTracker.isInitialized s' = false) by done.
  split; [exact Hq|]. split; [exact Hbt|]. split.
  { unfold s', ArgosTracker.destroy. cbn [ArgosTracker.reports
      ArgosTracker.set_isInitialized]. fold s1. rewrite Hr, Hq1, Hr1, Hc1. done. }
  split.
  { unfold s', ArgosTracker.destroy. cbn [ArgosTracker.unloadHooked
      ArgosTracker.set_isInitialized]. fold s1. by rewrite Hu, Hu1. }
  repeat split; intros;
    unfold ArgosTracker.track, ArgosTracker.trackUserAction,
      ArgosTracker.trackPageView, ArgosTracker.handleAutoEvent;
    by apply trackEvent_uninitialized.
Qed.

Lemma destroy_stops_tracking_witness :
  let s0 := Sample.tracker BATCH 10 in
  let s := ArgosTracker.track (Sample.page 1) "a" None s0 in
  let s' := ArgosTracker.destroy s in
  ArgosTracker.run [ArgosTracker.Track (Sample.page 1) "a" None] s0 = Some s ∧
  ArgosTracker.eventQueue s' = [] ∧
  ArgosTracker.track (Sample.page 2) "b" None s' = s'.
Proof.
  intros s0 s s'. split; [reflexivity|].
  destruct (destroy_stops_tracking (Sample.cfg BATCH 10) "uuid-1"
              (Some Sample.empty_store) (Sample.page 0)
              [ArgosTracker.Track (Sample.page 1) "a" None] s eq_refl)
    as (Hq & _ & _ & _ & Htrack & _).
  split; [exact Hq|]. exact (proj1 (Htrack (Sample.page 2) "b" None)).
Defined.

Section ReportShape.
Import ArgosTracker.

Lemma nonempty_run ls s s' :
  nonempty_reports s → run ls s = Some s' → nonempty_reports s'.
Proof.
  revert s. induction ls as [|l ls IH]; simpl; intros s Hne.
  - by intros [= <-].
  - destruct (step l s) as [s1|] eqn:Hstep; [|done].
    apply IH. by eapply nonempty_step.
Qed.

End ReportShape.

(** X19: the tracker never reports an empty batch. In every state a tracker
    can reach, every [report] call it has made, from a flush or from the
    unload handler, carries at least one event, and so does every call it is
    still waiting for. *)
Theorem reports_carry_events (cfg : TrackerConfig) (uuid : string)
    (ls : option StorageManager.LocalStorage) (page : Page)
    (labels : list ArgosTracker.Label) (s : ArgosTracker.t) :
  ArgosTracker.run labels (ArgosTracker.new cfg uuid ls page) = Some s →
  Forall (λ c, ArgosTracker.call_events c ≠ []) (ArgosTracker.reports s) ∧
  Forall (λ c, ArgosTracker.call_events c ≠ []) (ArgosTracker.awaiting s).
Proof.
  intros Hrun. eapply (nonempty_run labels); [|exact Hrun].
  destruct (new_state cfg uuid ls page) as (_ & Hr & Ha & _).
  unfold nonempty_reports. by rewrite Hr, Ha.
Qed.

Lemma reports_carry_events_witness :
  let s0 := Sample.tracker IMMEDIATE 10 in
  let s := ArgosTracker.flush (ArgosTracker.track (Sample.page 1) "a" None s0) in
  ArgosTracker.run
    [ArgosTracker.Track (Sample.page 1) "a" None; ArgosTracker.Flush] s0
    = Some s ∧
  Forall (λ c, ArgosTracker.call_events c ≠ []) (ArgosTracker.reports s).
Proof.
  intros s0 s. split; [reflexivity|].
  exact (proj1 (reports_carry_events (Sample.cfg IMMEDIATE 10) "uuid-1"
                  (Some Sample.empty_store) (Sample.page 0)
                  [ArgosTracker.Track (Sample.page 1) "a" None;
                   ArgosTracker.Flush] s eq_refl)).
Defined.

(** ** Nothing flushed is lost *)

Section AccountingFacts.
Import ArgosTracker.

Lemma reread_serialisable events :
  Forall serialisable events → is_Some (reread events).
Proof.
  intros Hall. unfold reread.
  destruct (mapM_is_Some_2 stringify_event events Hall) as [stored ->].
  by eexists.
Qed.

Lemma continues_refl v : continues v v.
Proof. destruct v; simpl; [exists []; by rewrite app_nil_r|done]. Qed.

Lemma continues_trans v1 v2 v3 :
  continues v1 v2 → continues v2 v3 → continues v1 v3.
Proof.
  destruct v1 as [o1|], v2 as [o2|], v3 as [o3|]; simpl; try done.
  intros [m1 ->] [m2 ->]. exists (m1 ++ m2). by rewrite app_assoc.
Qed.

Lemma continues_after_save batch v : continues v (after_save batch v).
Proof.
  destruct v as [o|]; simpl; [|done].
  destruct (reread batch); [by eexists|done].
Qed.

Lemma after_save_array batch o :
  Forall serialisable batch →
  ∃ batch', reread batch = Some batch' ∧
            after_save batch (PendingArray o) = PendingArray (o ++ batch').
Proof.
  intros [batch' H]%reread_serialisable. exists batch'. simpl. by rewrite H.
Qed.

(** What a save, caught when it throws, leaves of the store. *)
Lemma save_storage events st :
  let st' := default st (StorageManager.savePendingEvents events st) in
  (is_Some (StorageManager.localStorage st) ↔
   is_Some (StorageManager.localStorage st')) ∧
  StorageManager.getPendingEvents st' =
    match StorageManager.localStorage st with
    | Some _ => after_save events (StorageManager.getPendingEvents st)
    | None => StorageManager.getPendingEvents st
    end.
Proof.
  destruct (StorageManager.localStorage st) as [ls|] eqn:Hls.
  - destruct (StorageManager.getPendingEvents st) as [o|] eqn:Hp.
    + destruct (savePendingEvents_array events st ls o Hls Hp)
        as (st' & -> & Hls' & _ & _ & _ & _ & Hread).
      simpl. rewrite Hread. split; [|done]. split; [done|by eexists].
    + rewrite (savePendingEvents_object _ _ Hp). simpl. by rewrite Hls, Hp.
  - rewrite (savePendingEvents_unavailable _ _ Hls). simpl. by rewrite Hls.
Qed.

Lemma still_refl s : still s s.
Proof. done. Qed.

Lemma still_trans s1 s2 s3 : still s1 s2 → still s2 s3 → still s1 s3.
Proof.
  intros (Hd1 & Ha1 & Ho1) (Hd2 & Ha2 & Ho2).
  split; [by rewrite Hd2|]. split; [by rewrite Ha1|by rewrite Ho2].
Qed.

(** A change that leaves the delivered batches alone and, in the store,
    touches at most the two ids. *)
Lemma still_ids s s' :
  delivered s' = delivered s →
  (is_Some (StorageManager.localStorage (storage s)) ↔
   is_Some (StorageManager.localStorage (storage s'))) →
  StorageManager.getPendingEvents (storage s') =
    StorageManager.getPendingEvents (storage s) →
  still s s'.
Proof. done. Qed.

Lemma still_persists s s' : still s s' → persists s s'.
Proof.
  intros (Hd & Ha & Ho). split; [done|]. rewrite Ho, Hd.
  split; [apply continues_refl|]. exists []. by rewrite app_nil_r.
Qed.

Lemma persists_trans s1 s2 s3 : persists s1 s2 → persists s2 s3 → persists s1 s3.
Proof.
  intros (Ha1 & Ho1 & [d1 Hd1]) (Ha2 & Ho2 & [d2 Hd2]).
  split; [by rewrite Ha1|]. split.
  - by eapply continues_trans.
  - exists (d1 ++ d2). by rewrite Hd2, Hd1, app_assoc.
Qed.

Lemma getUserId_store st :
  StorageManager.localStorage (StorageManager.getUserId st).2
    = StorageManager.localStorage st.
Proof.
  unfold StorageManager.getUserId. destruct (truthy_str _); [done|].
  by destruct (truthy_str _).
Qed.

Lemma getUserId_overflow st :
  StorageManager.getPendingEvents (StorageManager.getUserId st).2
    = StorageManager.getPendingEvents st.
Proof.
  unfold StorageManager.getPendingEvents, StorageManager.getItem_PENDING_EVENTS.
  by rewrite getUserId_store.
Qed.

Lemma addToQueue_frame e s :
  storage (addToQueue e s) = storage s ∧ delivered (addToQueue e s) = delivered s.
Proof.
  unfold addToQueue. set (s1 := set_eventQueue _ s).
  assert (Hsend : storage (sendEvents s1) = storage s
                  ∧ delivered (sendEvents s1) = delivered s).
  { by destruct (sendEvents_frame s1) as (_ & _ & -> & -> & _). }
  destruct (reportMethod (config s1)) as [[| |]|]; try done.
  case_bool_decide; [done|].
  by destruct (scheduleBatchSend_frame s1) as (_ & _ & _ & _ & -> & -> & _).
Qed.

Lemma still_trackEvent page e s : still s (trackEvent page e s).
Proof.
  unfold trackEvent. destruct (negb (isInitialized s)); [apply still_refl|].
  destruct (truthy_str (userId e)).
  - match goal with |- context [addToQueue ?fe ?s0] =>
      destruct (addToQueue_frame fe s0) as [Hs Hd] end.
    apply still_ids; by rewrite ?Hs, ?Hd.
  - destruct (StorageManager.getUserId (storage s)) as [uid sto] eqn:Hget.
    match goal with |- context [addToQueue ?fe ?s0] =>
      destruct (addToQueue_frame fe s0) as [Hs Hd] end.
    assert (Hsto : sto = (StorageManager.getUserId (storage s)).2)
      by by rewrite Hget.
    apply still_ids; rewrite ?Hs, ?Hd; simpl; try done.
    + by rewrite Hsto, getUserId_store.
    + by rewrite Hsto, getUserId_overflow.
Qed.

Lemma still_cancelBatchTimer s : still s (cancelBatchTimer s).
Proof.
  apply still_ids; unfold cancelBatchTimer;
    destruct (batchTimer s); try done; by destruct (armed _).
Qed.

Lemma still_sendEvents s : still s (sendEvents s).
Proof.
  destruct (sendEvents_frame s) as (_ & _ & Hs & Hd & _).
  apply still_ids; by rewrite ?Hs, ?Hd.
Qed.

Lemma still_flush s : still s (flush s).
Proof.
  eapply still_trans; [apply still_cancelBatchTimer|].
  apply still_sendEvents.
Qed.

(** Every step but a settled promise and an unload leaves the delivered
    batches and the overflow alone. *)
Lemma still_step l s s' :
  (∀ i net, l ≠ Settle i net) → (∀ net, l ≠ Unload net) →
  step l s = Some s' → still s s'.
Proof.
  intros Hsettle Hunload. destruct l; simpl.
  - intros [= <-]. apply still_trackEvent.
  - intros [= <-]. apply still_trackEvent.
  - intros [= <-]. apply still_trackEvent.
  - intros [= <-]. apply still_trackEvent.
  - intros [= <-]. eapply still_trans; [|apply still_trackEvent].
    apply still_ids; simpl; try done.
    + by destruct (StorageManager.localStorage (storage s)).
    + apply getPendingEvents_setUserId.
  - intros [= <-]. eapply still_trans; [|apply still_trackEvent].
    apply still_ids; simpl; try done.
    + by destruct (StorageManager.localStorage (storage s)).
    + unfold StorageManager.getPendingEvents,
        StorageManager.getItem_PENDING_EVENTS. simpl.
      by destruct (StorageManager.localStorage (storage s)).
  - intros [= <-]. unfold getUserId.
    destruct (StorageManager.getUserId (storage s)) as [uid sto] eqn:Hget.
    assert (Hsto : sto = (StorageManager.getUserId (storage s)).2)
      by by rewrite Hget.
    apply still_ids; simpl; try done.
    + by rewrite Hsto, getUserId_store.
    + by rewrite Hsto, getUserId_overflow.
  - intros [= <-]. apply still_ids; simpl; try done.
    + by destruct (StorageManager.localStorage (storage s)).
    + unfold StorageManager.getPendingEvents,
        StorageManager.getItem_PENDING_EVENTS. simpl.
      by destruct (StorageManager.localStorage (storage s)).
  - intros [= <-]. apply still_flush.
  - intros [= <-]. unfold updateConfig.
    destruct (truthy_str _); [|by apply still_ids].
    apply still_ids; simpl; try done.
    + by destruct (StorageManager.localStorage (storage s)).
    + apply getPendingEvents_setUserId.
  - intros [= <-]. unfold destroy.
    eapply still_trans; [|apply still_ids; [| |]].
    + eapply still_trans;
        [|apply (still_flush
                    (cancelBatchTimer
                       (set_collector (AutoCollector.stop (collector s)) s)))].
      eapply still_trans;
        [|apply (still_cancelBatchTimer
                    (set_collector (AutoCollector.stop (collector s)) s))].
      by apply still_ids.
    + done.
    + done.
    + done.
  - destruct (AutoCollector.pageViewHooked _); [|done].
    destruct (AutoCollector.handleHistoryChange _ _) as [c [e|]];
      intros [= <-].
    + eapply still_trans; [|apply still_trackEvent]. by apply still_ids.
    + by apply still_ids.
  - destruct (_ || _); [|done]. intros [= <-]. apply still_trackEvent.
  - unfold fire. destruct (list_find _ _) as [[j tm]|]; [|done].
    intros [= <-]. unfold run_callback.
    assert (H1 : still s (sendEvents (clearTimeout id s))).
    { eapply still_trans; [|apply still_sendEvents]. by apply still_ids. }
    destruct (callback tm); [|done].
    eapply still_trans; [exact H1|]. by apply still_ids.
  - by destruct (Hsettle i net).
  - by destruct (Hunload net).
Qed.

(** What a settled promise leaves. *)
Lemma settle_state i net s s' :
  settle i net s = Some s' →
  ∃ call answer,
    awaiting s !! i = Some call ∧
    eventQueue s' = eventQueue s ∧
    awaiting s' = delete i (awaiting s) ∧
    reports s' = reports s ∧
    delivered s' =
      delivered s ++ match answer with
                     | Reporter.Normal true => [call_events call]
                     | _ => []
                     end ∧
    (available s ↔ available s') ∧
    overflow s' =
      match answer, StorageManager.localStorage (storage s) with
      | Reporter.Normal true, _ | _, None => overflow s
      | _, Some _ => after_save (call_events call) (overflow s)
      end.
Proof.
  unfold settle. destruct (awaiting s !! i) as [call|] eqn:Hcall; [|done].
  intros [= <-].
  match goal with
  | |- context [sendEvents_resume ?ev ?ans ?st] =>
      destruct (sendEvents_resume_frame ev ans st)
        as (Hq & Ha & Hr & _ & Hd & Hs);
      exists call, ans
  end.
  unfold available, overflow. rewrite Hq, Ha, Hr, Hd, Hs. simpl.
  do 5 (split; [done|]).
  destruct (save_storage (call_events call) (storage s)) as [Hav Hov].
  destruct (Reporter.result _) as [[|]|]; simpl.
  - by destruct (StorageManager.localStorage (storage s)).
  - split; [done|]. rewrite Hov.
    by destruct (StorageManager.localStorage (storage s)).
  - split; [done|]. rewrite Hov.
    by destruct (StorageManager.localStorage (storage s)).
Qed.

(** What the unload listener leaves of the store and the delivered
    batches. *)
Lemma unload_state net s :
  let s' := handleBeforeUnload net s in
  eventQueue s' = eventQueue s ∧ awaiting s' = awaiting s ∧
  flushes s' = flushes s ∧
  (∃ more, delivered s' = delivered s ++ more) ∧
  (available s ↔ available s') ∧
  overflow s' =
    match eventQueue s, StorageManager.localStorage (storage s) with
    | [], _ | _, None => overflow s
    | _, Some _ => after_save (eventQueue s) (overflow s)
    end.
Proof.
  destruct (eventQueue s) as [|e q] eqn:Hq.
  { unfold handleBeforeUnload. rewrite Hq. simpl. rewrite Hq.
    do 3 (split; [done|]). split; [|done]. exists []. by rewrite app_nil_r. }
  assert (Hne : eventQueue s ≠ []) by by rewrite Hq.
  destruct (handleBeforeUnload_state net s Hne) as (Hq' & _ & Hr & Hd & Hs).
  simpl. rewrite Hq', Hd. unfold available, overflow, flushes.
  rewrite Hs, Hr, Hq. split; [done|].
  split.
  { assert (Hsave : ∀ ev s2,
              awaiting (default s2 (storage_savePendingEvents ev s2))
                = awaiting s2) by (intros; by case_save).
    unfold handleBeforeUnload. rewrite Hq. lazy zeta. rewrite Hsave.
    clear. by destruct (Reporter.result _) as [[|]|]. }
  split.
  { by rewrite filter_app, filter_cons_False, filter_nil, app_nil_r. }
  split; [by eexists|].
  destruct (save_storage (e :: q) (storage s)) as [Hav Hov].
  split; [done|]. rewrite Hov.
  by destruct (StorageManager.localStorage (storage s)).
Qed.

Lemma persists_step l s s' : step l s = Some s' → persists s s'.
Proof.
  intros Hstep.
  assert (Hcase : (∃ i net, l = Settle i net) ∨ (∃ net, l = Unload net) ∨
                  ((∀ i net, l ≠ Settle i net) ∧ ∀ net, l ≠ Unload net)).
  { destruct l; try (by right; right);
      [left; by eexists _, _|right; left; by eexists]. }
  destruct Hcase as [(i & net & ->)|[(net & ->)|[Hs Hu]]].
  - simpl in Hstep.
    destruct (settle_state _ _ _ _ Hstep)
      as (call & answer & _ & _ & _ & _ & Hd & Ha & Ho).
    split; [done|]. split; [|by eexists]. rewrite Ho.
    destruct answer as [[|]|], (StorageManager.localStorage (storage s));
      (apply continues_refl || apply continues_after_save).
  - simpl in Hstep. destruct (unloadHooked s); [|done].
    injection Hstep as <-.
    destruct (unload_state net s) as (_ & _ & _ & Hd & Ha & Ho).
    split; [done|]. split; [|done]. rewrite Ho.
    destruct (eventQueue s), (StorageManager.localStorage (storage s));
      (apply continues_refl || apply continues_after_save).
  - by apply still_persists, (still_step l).
Qed.

Lemma persists_run ls s s' : run ls s = Some s' → persists s s'.
Proof.
  revert s. induction ls as [|l ls IH]; simpl; intros s.
  - intros [= <-]. apply still_persists, still_refl.
  - destruct (step l s) as [s1|] eqn:Hstep; [|done]. intros Hrun.
    eapply persists_trans; [by eapply persists_step|by apply IH].
Qed.

End AccountingFacts.

Section LedgerFacts.
Import ArgosTracker.

Lemma grows_refl s : grows s s.
Proof. exists []. by rewrite !app_nil_r. Qed.

Lemma grows_trans s1 s2 s3 : grows s1 s2 → grows s2 s3 → grows s1 s3.
Proof.
  intros (m1 & Ha1 & Hf1) (m2 & Ha2 & Hf2). exists (m1 ++ m2).
  by rewrite Ha2, Ha1, Hf2, Hf1, !app_assoc.
Qed.

Lemma grows_frame s s' :
  awaiting s' = awaiting s → reports s' = reports s → grows s s'.
Proof.
  intros Ha Hr. exists []. unfold flushes. by rewrite Ha, Hr, !app_nil_r.
Qed.

Lemma grows_sendEvents s : grows s (sendEvents s).
Proof.
  unfold sendEvents. destruct (eventQueue s) as [|e q]; [apply grows_refl|].
  eexists. split; [done|]. unfold flushes. simpl.
  rewrite filter_app. f_equal.
Qed.

Lemma grows_addToQueue e s : grows s (addToQueue e s).
Proof.
  unfold addToQueue. set (s1 := set_eventQueue _ s).
  assert (H1 : grows s s1) by by apply grows_frame.
  assert (Hsend : grows s (sendEvents s1))
    by (eapply grows_trans; [exact H1|apply grows_sendEvents]).
  destruct (reportMethod (config s1)) as [[| |]|]; try done.
  case_bool_decide; [done|].
  destruct (scheduleBatchSend_frame s1) as (_ & Hr & Ha & _).
  eapply grows_trans; [exact H1|]. by apply grows_frame.
Qed.

Lemma grows_trackEvent page e s : grows s (trackEvent page e s).
Proof.
  unfold trackEvent. destruct (negb (isInitialized s)); [apply grows_refl|].
  destruct (truthy_str (userId e)).
  - eapply grows_trans; [|apply grows_addToQueue]. by apply grows_frame.
  - destruct (StorageManager.getUserId (storage s)) as [uid sto].
    eapply grows_trans; [|apply grows_addToQueue]. by apply grows_frame.
Qed.

Lemma grows_cancelBatchTimer s : grows s (cancelBatchTimer s).
Proof.
  apply grows_frame; unfold cancelBatchTimer;
    destruct (batchTimer s); try done; by destruct (armed _).
Qed.

Lemma grows_flush s : grows s (flush s).
Proof.
  eapply grows_trans; [apply grows_cancelBatchTimer|apply grows_sendEvents].
Qed.

(** Every step but a settled promise only adds awaited flushes. *)
Lemma grows_step l s s' :
  (∀ i net, l ≠ Settle i net) → step l s = Some s' → grows s s'.
Proof.
  intros Hl. destruct l; simpl.
  - intros [= <-]. apply grows_trackEvent.
  - intros [= <-]. apply grows_trackEvent.
  - intros [= <-]. apply grows_trackEvent.
  - intros [= <-]. apply grows_trackEvent.
  - intros [= <-]. eapply grows_trans; [|apply grows_trackEvent].
    by apply grows_frame.
  - intros [= <-]. eapply grows_trans; [|apply grows_trackEvent].
    by apply grows_frame.
  - intros [= <-]. unfold getUserId.
    destruct (StorageManager.getUserId _). by apply grows_frame.
  - intros [= <-]. by apply grows_frame.
  - intros [= <-]. apply grows_flush.
  - intros [= <-]. apply grows_frame; unfold updateConfig;
      by destruct (truthy_str _).
  - intros [= <-]. unfold destroy.
    eapply grows_trans;
      [|apply (grows_frame
                 (flush (cancelBatchTimer
                    (set_collector (AutoCollector.stop (collector s)) s))));
        done].
    eapply grows_trans; [|apply grows_flush].
    eapply grows_trans; [|apply grows_cancelBatchTimer]. by apply grows_frame.
  - destruct (AutoCollector.pageViewHooked _); [|done].
    destruct (AutoCollector.handleHistoryChange _ _) as [c [e|]];
      intros [= <-].
    + eapply grows_trans; [|apply grows_trackEvent]. by apply grows_frame.
    + by apply grows_frame.
  - destruct (_ || _); [|done]. intros [= <-]. apply grows_trackEvent.
  - unfold fire. destruct (list_find _ _) as [[j tm]|]; [|done].
    intros [= <-]. unfold run_callback.
    assert (H1 : grows s (sendEvents (clearTimeout id s))).
    { eapply grows_trans; [|apply grows_sendEvents]. by apply grows_frame. }
    destruct (callback tm); [|done].
    eapply grows_trans; [exact H1|]. by apply grows_frame.
  - by destruct (Hl i net).
  - destruct (unloadHooked s); [|done]. intros [= <-].
    destruct (unload_state net s) as (_ & Ha & Hf & _).
    exists []. by rewrite Ha, Hf, !app_nil_r.
Qed.

(** A step of a clean tracker that enqueues only events that can be written
    leaves a clean tracker, whose overflow starts with the one before. *)
Lemma clean_step l s s' :
  clean s → Forall serialisable (enqueued l s) → step l s = Some s' →
  clean s' ∧
  ∀ o, overflow s = PendingArray o →
       ∃ more, overflow s' = PendingArray (o ++ more).
Proof.
  intros (Hq & Ha & [o0 Ho]) Henq Hstep.
  destruct (extends_by_step _ _ _ Hstep) as (new & Hf & Hb).
  assert (Hall : Forall serialisable (batches new ++ eventQueue s')).
  { rewrite Hb. by apply Forall_app. }
  apply Forall_app in Hall as [Hnew Hq'].
  assert (Hnew' : Forall (λ c, Forall serialisable (call_events c)) new).
  { unfold batches in Hnew. apply Forall_concat in Hnew.
    apply (proj1 (Forall_fmap _ _ _)) in Hnew. exact Hnew. }
  assert (Hcase : (∃ i net, l = Settle i net) ∨ (∃ net, l = Unload net) ∨
                  ((∀ i net, l ≠ Settle i net) ∧ ∀ net, l ≠ Unload net)).
  { destruct l; try (by right; right);
      [left; by eexists _, _|right; left; by eexists]. }
  destruct Hcase as [(i & net & ->)|[(net & ->)|[Hs Hu]]].
  - simpl in Hstep.
    destruct (settle_state _ _ _ _ Hstep)
      as (call & answer & Hcall & _ & Ha' & _ & _ & _ & Ho').
    assert (Hser : Forall serialisable (call_events call)).
    { eapply (Forall_lookup_1 _ _ _ _ Ha Hcall). }
    destruct (after_save_array (call_events call) o0 Hser)
      as (batch' & _ & Hsave).
    assert (Hext : ∃ more, overflow s' = PendingArray (o0 ++ more)).
    { rewrite Ho', Ho.
      destruct answer as [[|]|], (StorageManager.localStorage (storage s));
        rewrite ?Hsave; (by eexists) || (exists []; by rewrite app_nil_r). }
    split.
    + split; [done|]. split; [rewrite Ha'; by apply Forall_delete|].
      destruct Hext as [more ->]. by eexists.
    + intros o Ho2. rewrite Ho in Ho2. by injection Ho2 as <-.
  - simpl in Hstep. destruct (unloadHooked s); [|done].
    injection Hstep as <-.
    destruct (unload_state net s) as (_ & Ha' & _ & _ & _ & Ho').
    destruct (after_save_array (eventQueue s) o0 Hq) as (batch' & _ & Hsave).
    assert (Hext : ∃ more, overflow (handleBeforeUnload net s)
                           = PendingArray (o0 ++ more)).
    { rewrite Ho', Ho.
      destruct (eventQueue s), (StorageManager.localStorage (storage s));
        rewrite ?Hsave; (by eexists) || (exists []; by rewrite app_nil_r). }
    split.
    + split; [done|]. split; [by rewrite Ha'|].
      destruct Hext as [more ->]. by eexists.
    + intros o Ho2. rewrite Ho in Ho2. by injection Ho2 as <-.
  - destruct (still_step l s s' Hs Hu Hstep) as (_ & _ & Ho').
    destruct (grows_step l s s' Hs Hstep) as (more & Ha' & Hf').
    rewrite Hf in Hf'. apply app_inv_head in Hf'. subst more.
    split.
    + split; [done|]. split; [rewrite Ha'; by apply Forall_app|].
      exists o0. by rewrite Ho'.
    + intros o Ho2. exists []. by rewrite Ho', app_nil_r.
Qed.

Lemma clean_run ls s s' :
  clean s → Forall serialisable (enqueued_run ls s) → run ls s = Some s' →
  clean s' ∧
  ∀ o, overflow s = PendingArray o →
       ∃ more, overflow s' = PendingArray (o ++ more).
Proof.
  revert s. induction ls as [|l ls IH]; simpl; intros s Hclean.
  - intros _ [= <-]. split; [done|]. intros o Ho. exists [].
    by rewrite app_nil_r.
  - destruct (step l s) as [s1|] eqn:Hstep; [|done].
    intros [Hl Hls]%Forall_app Hrun.
    destruct (clean_step l s s1 Hclean Hl Hstep) as [Hclean1 Hext1].
    destruct (IH s1 Hclean1 Hls Hrun) as [Hclean' Hext'].
    split; [done|]. intros o Ho.
    destruct (Hext1 o Ho) as [m1 Ho1]. destruct (Hext' _ Ho1) as [m2 Ho2].
    exists (m1 ++ m2). by rewrite Ho2, app_assoc.
Qed.

Lemma saved_extends batch s s' :
  (∀ o, overflow s = PendingArray o →
        ∃ more, overflow s' = PendingArray (o ++ more)) →
  saved batch s → saved batch s'.
Proof.
  intros Hext (batch' & pre & post & Hre & Ho).
  destruct (Hext _ Ho) as [more Ho'].
  exists batch', pre, (post ++ more). split; [done|].
  by rewrite Ho', <- !app_assoc.
Qed.

Lemma elem_of_delete_or {A} (l : list A) (i : nat) (x : A) :
  x ∈ l → x ∈ delete i l ∨ l !! i = Some x.
Proof.
  revert i. induction l as [|y l IH]; intros i Hin; [by apply elem_of_nil in Hin|].
  apply elem_of_cons in Hin as [->|Hin].
  - destruct i; [by right|]. left. simpl. apply elem_of_cons. by left.
  - destruct i as [|i]; [by left|].
    destruct (IH i Hin) as [H|H]; [|by right].
    left. simpl. apply elem_of_cons. by right.
Qed.

(** With the store there, a step of a clean tracker leaves every flush
    accounted for. *)
Lemma ledger_step l s s' :
  available s → clean s → Forall serialisable (enqueued l s) →
  step l s = Some s' →
  (∀ c, c ∈ flushes s → accounted s c) →
  (∀ c, c ∈ flushes s' → accounted s' c).
Proof.
  intros Hav Hclean Henq Hstep Hacc c Hin.
  destruct (clean_step l s s' Hclean Henq Hstep) as [_ Hext].
  destruct (persists_step l s s' Hstep) as (_ & _ & [dmore Hd]).
  assert (Hcase : (∃ i net, l = Settle i net) ∨ ∀ i net, l ≠ Settle i net).
  { destruct l; try (by right); left; by eexists _, _. }
  destruct Hcase as [(i & net & ->)|Hl].
  - simpl in Hstep.
    destruct (settle_state _ _ _ _ Hstep)
      as (call & answer & Hcall & _ & Ha' & Hr' & Hd' & _ & Ho').
    assert (Hf : flushes s' = flushes s) by (unfold flushes; by rewrite Hr').
    rewrite Hf in Hin.
    destruct (Hacc c Hin) as [Haw|[Hdel|Hsaved]].
    + destruct (elem_of_delete_or _ i _ Haw) as [Hstay|Hi].
      * left. by rewrite Ha'.
      * rewrite Hcall in Hi. injection Hi as ->. right.
        destruct Hclean as (_ & Ha & [o0 Ho]).
        assert (Hser : Forall serialisable (call_events c)).
        { eapply (Forall_lookup_1 _ _ _ _ Ha Hcall). }
        destruct (after_save_array (call_events c) o0 Hser)
          as (batch' & Hre & Hsave).
        destruct Hav as [ls Hls]. rewrite Hls, Ho, Hsave in Ho'.
        assert (Hsaved : saved (call_events c) s' ∨ answer = Reporter.Normal true).
        { destruct answer as [[|]|]; [by right| |];
            left; exists batch', o0, []; by rewrite app_nil_r. }
        destruct Hsaved as [Hsaved| ->]; [by right|].
        left. rewrite Hd'. apply elem_of_app. right.
        by apply list_elem_of_singleton.
    + right; left. rewrite Hd. apply elem_of_app. by left.
    + right; right. by apply saved_extends with s.
  - destruct (grows_step l s s' Hl Hstep) as (more & Ha & Hf).
    rewrite Hf in Hin. apply elem_of_app in Hin as [Hin|Hin].
    + destruct (Hacc c Hin) as [Haw|[Hdel|Hsaved]].
      * left. rewrite Ha. apply elem_of_app. by left.
      * right; left. rewrite Hd. apply elem_of_app. by left.
      * right; right. by apply saved_extends with s.
    + left. rewrite Ha. apply elem_of_app. by right.
Qed.

Lemma ledger_run ls s s' :
  available s → clean s → Forall serialisable (enqueued_run ls s) →
  run ls s = Some s' →
  (∀ c, c ∈ flushes s → accounted s c) →
  (∀ c, c ∈ flushes s' → accounted s' c).
Proof.
  revert s. induction ls as [|l ls IH]; simpl; intros s Hav Hclean.
  - by intros _ [= <-].
  - destruct (step l s) as [s1|] eqn:Hstep; [|done].
    intros [Hl Hls]%Forall_app Hrun Hacc.
    destruct (clean_step l s s1 Hclean Hl Hstep) as [Hclean1 _].
    apply (IH s1); [|done|done|done|by apply (ledger_step l s)].
    by apply (persists_step l s s1 Hstep).
Qed.

Lemma new_store_available uuid ls :
  is_Some (StorageManager.localStorage (StorageManager.new uuid (Some ls))).
Proof.
  unfold StorageManager.new.
  destruct (truthy_str _); simpl;
    match goal with |- context [StorageManager.getUserId ?st] =>
      pose proof (getUserId_store st) as Hst;
      destruct (StorageManager.getUserId st) as [uid st3]
    end; simpl in *; rewrite Hst; by eexists.
Qed.

Lemma new_available cfg uuid ls page :
  available (new cfg uuid (Some ls) page).
Proof.
  unfold available, new, init. simpl.
  set (sto := if truthy_str (cfg_userId cfg) then _ else _).
  assert (Hsto : available sto).
  { unfold sto, available. destruct (new_store_available uuid ls) as [x Hx].
    destruct (truthy_str (cfg_userId cfg)); simpl; rewrite Hx; by eexists. }
  clearbody sto.
  destruct (AutoCollector.start _ _ _) as [c [e|]]; simpl.
  - set (s2 := set_collector c sto).
    assert (H2 : available s2) by done.
    destruct (still_trackEvent page e s2) as (_ & [H3 _] & _).
    specialize (H3 H2). unfold handleAutoEvent.
    set (s3 := trackEvent page e s2) in *. clearbody s3.
    unfold restorePendingEvents. simpl.
    destruct (StorageManager.getPendingEvents _) as [[|e0 pending]|];
      [done| |done].
    simpl. unfold available in H3. by destruct H3 as [x ->].
  - unfold restorePendingEvents. simpl.
    destruct (StorageManager.getPendingEvents _) as [[|e0 pending]|];
      [done| |done].
    simpl. unfold available in Hsto. by destruct Hsto as [x ->].
Qed.

(** A tracker constructed on a store whose overflow is an array is clean. *)
Lemma new_clean cfg uuid ls page :
  (∃ events, found_overflow ls = PendingArray events) →
  clean (new cfg uuid ls page).
Proof.
  intros [events Hfound].
  destruct (new_state cfg uuid ls page)
    as (Hq & _ & Ha & _ & _ & _ & _ & _ & _ & _ & Hp).
  rewrite Hfound in Hq, Hp. simpl in Hq.
  split; [|split].
  - rewrite Hq. unfold found_overflow in Hfound.
    destruct (ls ≫= StorageManager.argos_pending_events) as [[stored|]|];
      simpl in Hfound; [| done |].
    + injection Hfound as <-. apply Forall_fmap, Forall_forall.
      intros se _. simpl. unfold serialisable.
      rewrite stringify_parse_event. by eexists.
    + injection Hfound as <-. constructor.
  - rewrite Ha. constructor.
  - by exists [].
Qed.

End LedgerFacts.

(** X20: once a tracker is running, the durable overflow is only ever
    continued. Over any run of calls, collector events, timers, settled
    promises and unloads, on a page whose store is present and completes
    every call or on a page without one: the store does not come or go, the
    batches answered [true] only grow at their end, and the overflow
    afterwards is an array that starts with the array before, or is ['{}'];
    once it is ['{}'] it stays ['{}']. When moreover the overflow is an
    array at the start and [JSON.stringify] can write every event the
    tracker holds at the start, queued or awaited, and every event enqueued
    during the run, the overflow afterwards is an array, the one before
    followed by further events: nothing persisted is removed, reordered or
    rewritten. *)
Theorem overflow_append_only (labels : list ArgosTracker.Label)
    (s s' : ArgosTracker.t) :
  ArgosTracker.run labels s = Some s' →
  continues (StorageManager.getPendingEvents (ArgosTracker.storage s))
    (StorageManager.getPendingEvents (ArgosTracker.storage s')) ∧
  (∃ more, ArgosTracker.delivered s' = ArgosTracker.delivered s ++ more) ∧
  (is_Some (StorageManager.localStorage (ArgosTracker.storage s)) ↔
   is_Some (StorageManager.localStorage (ArgosTracker.storage s'))) ∧
  (clean s →
   Forall serialisable (ArgosTracker.enqueued_run labels s) →
   ∃ events more,
     StorageManager.getPendingEvents (ArgosTracker.storage s)
       = PendingArray events ∧
     StorageManager.getPendingEvents (ArgosTracker.storage s')
       = PendingArray (events ++ more)).
Proof.
  intros Hrun. destruct (persists_run _ _ _ Hrun) as (Ha & Ho & Hd).
  do 3 (split; [done|]). intros Hclean Henq.
  destruct (clean_run _ _ _ Hclean Henq Hrun) as [_ Hext].
  destruct Hclean as (_ & _ & [events Hevents]).
  destruct (Hext _ Hevents) as [more Hmore]. by exists events, more.
Qed.

Lemma overflow_append_only_witness :
  let s := ArgosTracker.track (Sample.page 1) "a" None
             (Sample.tracker BEACON 10) in
  let s' := ArgosTracker.handleBeforeUnload Sample.network_down s in
  (∃ more, ArgosTracker.delivered s' = ArgosTracker.delivered s ++ more) ∧
  (is_Some (StorageManager.localStorage (ArgosTracker.storage s)) ↔
   is_Some (StorageManager.localStorage (ArgosTracker.storage s'))) ∧
  ∃ events more,
    StorageManager.getPendingEvents (ArgosTracker.storage s)
      = PendingArray events ∧
    StorageManager.getPendingEvents (ArgosTracker.storage s')
      = PendingArray (events ++ more).
Proof.
  intros s s'.
  destruct (overflow_append_only [ArgosTracker.Unload Sample.network_down]
              s s') as (_ & Hd & Ha & Hext); [by vm_compute|].
  do 2 (split; [done|]). apply Hext.
  - split; [|split].
    + apply (bool_decide_unpack _). by vm_compute.
    + apply (bool_decide_unpack _). by vm_compute.
    + eexists. by vm_compute.
  - apply (bool_decide_unpack _). by vm_compute.
Defined.

(** X21: with a store behind it, the tracker loses no batch it flushed. The
    store is present and completes every call, and does not hold ['{}']
    under the pending-events key when the tracker is constructed; and
    [JSON.stringify] can write every event enqueued during the run. Then in
    every state reached from [new ArgosTracker], each [report] call of
    [sendEvents] is in one of three places: its promise is still awaited; or
    it was answered [true] and its batch is among the delivered ones; or its
    batch lies in the durable overflow, whole and in its original order, as
    [JSON.parse] reads it back. *)
Theorem flushed_batches_accounted (cfg : TrackerConfig) (uuid : string)
    (ls : StorageManager.LocalStorage) (page : Page)
    (labels : list ArgosTracker.Label) (s : ArgosTracker.t)
    (c : ArgosTracker.ReportCall) :
  StorageManager.argos_pending_events ls ≠ Some EmptyObjectText →
  ArgosTracker.run labels (ArgosTracker.new cfg uuid (Some ls) page) = Some s →
  Forall serialisable
    (ArgosTracker.enqueued_run labels
       (ArgosTracker.new cfg uuid (Some ls) page)) →
  c ∈ ArgosTracker.flushes s →
  c ∈ ArgosTracker.awaiting s ∨
  ArgosTracker.call_events c ∈ ArgosTracker.delivered s ∨
  ∃ batch' before after,
    reread (ArgosTracker.call_events c) = Some batch' ∧
    StorageManager.getPendingEvents (ArgosTracker.storage s) =
      PendingArray (before ++ batch' ++ after).
Proof.
  intros Hls Hrun Henq Hin.
  apply (ledger_run labels (ArgosTracker.new cfg uuid (Some ls) page) s);
    [apply new_available| |done|done| |done].
  - apply new_clean. unfold found_overflow. simpl.
    destruct (StorageManager.argos_pending_events ls) as [[stored|]|];
      [by eexists|done|by eexists].
  - intros c0 Hc0. unfold ArgosTracker.flushes in Hc0.
    destruct (new_state cfg uuid (Some ls) page) as (_ & Hr & _).
    rewrite Hr in Hc0. by apply elem_of_nil in Hc0.
Qed.

Lemma flushed_batches_accounted_witness :
  let s0 := Sample.tracker BATCH 2 in
  let s := ArgosTracker.track (Sample.page 2) "b" None
             (ArgosTracker.track (Sample.page 1) "a" None s0) in
  ∃ s', ArgosTracker.settle 0 Sample.network_down s = Some s' ∧
    ∀ c, c ∈ ArgosTracker.flushes s' →
      c ∈ ArgosTracker.awaiting s' ∨
      ArgosTracker.call_events c ∈ ArgosTracker.delivered s' ∨
      ∃ batch' before after,
        reread (ArgosTracker.call_events c) = Some batch' ∧
        StorageManager.getPendingEvents (ArgosTracker.storage s') =
          PendingArray (before ++ batch' ++ after).
Proof.
  intros s0 s.
  exists (default s (ArgosTracker.settle 0 Sample.network_down s)).
  split; [by vm_compute|]. intros c.
  apply (flushed_batches_accounted (Sample.cfg BATCH 2) "uuid-1"
           Sample.empty_store (Sample.page 0)
           [ArgosTracker.Track (Sample.page 1) "a" None;
            ArgosTracker.Track (Sample.page 2) "b" None;
            ArgosTracker.Settle 0 Sample.network_down]).
  - done.
  - by vm_compute.
  - apply (bool_decide_unpack _). by vm_compute.
Defined.

(** ** Who and which session an event is stamped with *)

Section StampFacts.
Import ArgosTracker.

Lemma addToQueue_initialized e s :
  isInitialized (addToQueue e s) = isInitialized s.
Proof.
  unfold addToQueue. set (s1 := set_eventQueue _ s).
  assert (Hsend : isInitialized (sendEvents s1) = isInitialized s).
  { by destruct (sendEvents_frame s1) as (_ & _ & _ & _ & _ & _ & -> & _). }
  destruct (reportMethod (config s1)) as [[| |]|]; try done.
  case_bool_decide; [done|].
  by destruct (scheduleBatchSend_frame s1)
    as (_ & _ & _ & _ & _ & _ & -> & _).
Qed.

Lemma getUserId_session st :
  StorageManager.getSessionId (StorageManager.getUserId st).2
    = StorageManager.getSessionId st.
Proof.
  unfold StorageManager.getUserId. destruct (truthy_str _); [done|].
  by destruct (truthy_str _).
Qed.

(** An event of the public API, which gives neither user nor session, gets
    both from the storage manager. *)
Lemma trackEvent_partial page ty name props s :
  isInitialized s = true →
  let s' := trackEvent page (partial_event ty name props) s in
  ∃ new e, extends_by s s' new [e] ∧
    eventName e = name ∧ properties e = props ∧
    userId e = (StorageManager.getUserId (storage s)).1 ∧
    sessionId e = Some (StorageManager.getSessionId (storage s)) ∧
    storage s' = (StorageManager.getUserId (storage s)).2 ∧
    isInitialized s' = true.
Proof.
  intros Hinit. unfold trackEvent. rewrite Hinit. simpl.
  pose proof (getUserId_session (storage s)) as Hsid.
  destruct (StorageManager.getUserId (storage s)) as [uid sto]. simpl in *.
  rewrite Hsid.
  match goal with |- context [addToQueue ?fe ?s0] =>
    destruct (extends_by_addToQueue fe s0) as [new Hext];
    destruct (addToQueue_frame fe s0) as [Hsto _];
    pose proof (addToQueue_initialized fe s0) as Hi;
    exists new, fe
  end.
  rewrite Hsto, Hi. simpl. split; [exact Hext|]. by repeat split.
Qed.

Lemma getUserId_setUserId uid st :
  uid ≠ "" →
  StorageManager.getUserId (StorageManager.setUserId uid st)
    = (Some uid, StorageManager.setUserId uid st).
Proof.
  intros Huid. unfold StorageManager.getUserId. simpl.
  by rewrite decide_False.
Qed.

Lemma getUserId_clearUserId st :
  StorageManager.getUserId (StorageManager.clearUserId st)
    = (None, StorageManager.clearUserId st).
Proof.
  unfold StorageManager.getUserId, StorageManager.getItem_USER_ID. simpl.
  by destruct (StorageManager.localStorage st).
Qed.

(** The overflow a storage manager reads is the one found in its store. *)
Lemma found_overflow_storage st :
  found_overflow (StorageManager.localStorage st)
    = StorageManager.getPendingEvents st.
Proof.
  unfold found_overflow, StorageManager.getPendingEvents,
    StorageManager.getItem_PENDING_EVENTS. done.
Qed.

(** The overflow after the unload listener ran on a working store. *)
Lemma handleBeforeUnload_overflow net s ls :
  eventQueue s ≠ [] →
  StorageManager.localStorage (storage s) = Some ls →
  let s' := handleBeforeUnload net s in
  is_Some (StorageManager.localStorage (storage s')) ∧
  StorageManager.getPendingEvents (storage s') =
    match StorageManager.getPendingEvents (storage s) with
    | PendingArray existing =>
        match reread (eventQueue s) with
        | Some queue' => PendingArray (existing ++ queue')
        | None => EmptyObject
        end
    | EmptyObject => EmptyObject
    end.
Proof.
  intros Hq Hls s'. subst s'.
  destruct (handleBeforeUnload_state net s Hq) as (_ & _ & _ & _ & ->).
  destruct (StorageManager.getPendingEvents (storage s)) as [existing|] eqn:Hp.
  - destruct (savePendingEvents_array (eventQueue s) (storage s) ls existing
                Hls Hp) as (st' & -> & Hls' & _ & _ & _ & _ & Hread).
    done.
  - rewrite (savePendingEvents_object _ _ Hp). simpl.
    split; [by eexists|done].
Qed.

End StampFacts.

(** X22: after [setUser] with a non-empty id, the tracker stamps its events
    with that id. On an initialised tracker, [setUser({userId: uid})]
    followed by [track(name)] adds exactly two events after those already
    flushed or queued, [user_set] and then [name]; both carry [uid] as user
    id and the same session id. This holds with and without a store: the
    storage manager keeps the id in memory. *)
Theorem setUser_stamps_events (page1 page2 : Page) (uid name : string)
    (props1 props2 : option (gmap string JsValue)) (s : ArgosTracker.t) :
  ArgosTracker.isInitialized s = true →
  uid ≠ "" →
  let s2 := ArgosTracker.track page2 name props2
              (ArgosTracker.setUser page1 uid props1 s) in
  ∃ new e1 e2,
    ArgosTracker.extends_by s s2 new [e1; e2] ∧
    eventName e1 = "user_set" ∧ userId e1 = Some uid ∧
    eventName e2 = name ∧ userId e2 = Some uid ∧
    sessionId e1 = sessionId e2.
Proof.
  intros Hinit Huid s2. subst s2. unfold ArgosTracker.track, ArgosTracker.setUser.
  set (s0 := ArgosTracker.set_storage _ s).
  destruct (trackEvent_partial page1 CUSTOM "user_set" props1 s0 Hinit)
    as (n1 & e1 & Hext1 & Hn1 & _ & Hu1 & Hs1 & Hsto1 & Hi1).
  set (s1 := ArgosTracker.trackEvent page1 _ s0) in *.
  destruct (trackEvent_partial page2 CUSTOM name props2 s1 Hi1)
    as (n2 & e2 & Hext2 & Hn2 & _ & Hu2 & Hs2 & _).
  exists (n1 ++ n2), e1, e2.
  change (ArgosTracker.storage s0)
    with (StorageManager.setUserId uid (ArgosTracker.storage s)) in *.
  rewrite (getUserId_setUserId uid _ Huid) in Hu1, Hsto1.
  simpl in Hu1, Hsto1. rewrite Hsto1 in Hu2, Hs2.
  rewrite (getUserId_setUserId uid _ Huid) in Hu2. simpl in Hu2.
  split; [|by rewrite Hs1, Hs2].
  apply (extends_by_trans s s1 _ n1 [e1] n2 [e2]); [|done].
  exact Hext1.
Qed.

Lemma setUser_stamps_events_witness :
  let s := Sample.tracker BEACON 10 in
  let s2 := ArgosTracker.track (Sample.page 2) "buy" None
              (ArgosTracker.setUser (Sample.page 1) "alice" None s) in
  ∃ new e1 e2,
    ArgosTracker.extends_by s s2 new [e1; e2] ∧
    eventName e1 = "user_set" ∧ userId e1 = Some "alice" ∧
    eventName e2 = "buy" ∧ userId e2 = Some "alice" ∧
    sessionId e1 = sessionId e2.
Proof.
  apply (setUser_stamps_events (Sample.page 1) (Sample.page 2) "alice" "buy"
           None None (Sample.tracker BEACON 10)); [reflexivity|done].
Defined.

(** X23: after [clearUser] the tracker stamps no user id. On an initialised
    tracker, whatever user was set before and whatever the store holds,
    [clearUser()] followed by [track(name)] adds the two events [user_clear]
    and [name], and neither has a user id. *)
Theorem clearUser_unstamps_events (page1 page2 : Page) (name : string)
    (props : option (gmap string JsValue)) (s : ArgosTracker.t) :
  ArgosTracker.isInitialized s = true →
  let s2 := ArgosTracker.track page2 name props
              (ArgosTracker.clearUser page1 s) in
  ∃ new e1 e2,
    ArgosTracker.extends_by s s2 new [e1; e2] ∧
    eventName e1 = "user_clear" ∧ userId e1 = None ∧
    eventName e2 = name ∧ userId e2 = None.
Proof.
  intros Hinit s2. subst s2. unfold ArgosTracker.track, ArgosTracker.clearUser.
  set (s0 := ArgosTracker.set_storage _ s).
  destruct (trackEvent_partial page1 CUSTOM "user_clear" None s0 Hinit)
    as (n1 & e1 & Hext1 & Hn1 & _ & Hu1 & _ & Hsto1 & Hi1).
  set (s1 := ArgosTracker.trackEvent page1 _ s0) in *.
  destruct (trackEvent_partial page2 CUSTOM name props s1 Hi1)
    as (n2 & e2 & Hext2 & Hn2 & _ & Hu2 & _).
  exists (n1 ++ n2), e1, e2.
  change (ArgosTracker.storage s0)
    with (StorageManager.clearUserId (ArgosTracker.storage s)) in *.
  rewrite getUserId_clearUserId in Hu1, Hsto1.
  simpl in Hu1, Hsto1. rewrite Hsto1 in Hu2.
  rewrite getUserId_clearUserId in Hu2. simpl in Hu2.
  split; [|done].
  apply (extends_by_trans s s1 _ n1 [e1] n2 [e2]); [|done].
  exact Hext1.
Qed.

Lemma clearUser_unstamps_events_witness :
  let s := ArgosTracker.setUser (Sample.page 1) "alice" None
             (Sample.tracker BEACON 10) in
  let s2 := ArgosTracker.track (Sample.page 3) "buy" None
              (ArgosTracker.clearUser (Sample.page 2) s) in
  ∃ new e1 e2,
    ArgosTracker.extends_by s s2 new [e1; e2] ∧
    eventName e1 = "user_clear" ∧ userId e1 = None ∧
    eventName e2 = "buy" ∧ userId e2 = None.
Proof.
  apply (clearUser_unstamps_events (Sample.page 2) (Sample.page 3) "buy" None
           (ArgosTracker.setUser (Sample.page 1) "alice" None
              (Sample.tracker BEACON 10))).
  reflexivity.
Defined.

(** X24: [renewSession()] returns the new session id, and from then on the
    tracker stamps its events with it: the next [track(name)] adds one event
    whose session id is the new one and whose user id is the one the storage
    manager had before. Events flushed or queued earlier are left as they
    are. *)
Theorem renewSession_stamps_events (uuid name : string) (page : Page)
    (props : option (gmap string JsValue)) (s : ArgosTracker.t) :
  ArgosTracker.isInitialized s = true →
  let r := ArgosTracker.renewSession uuid s in
  let s2 := ArgosTracker.track page name props r.2 in
  r.1 = uuid ∧
  ∃ new e,
    ArgosTracker.extends_by s s2 new [e] ∧
    eventName e = name ∧ sessionId e = Some uuid ∧
    userId e = (StorageManager.getUserId (ArgosTracker.storage s)).1.
Proof.
  intros Hinit r s2. subst r s2. split; [done|].
  unfold ArgosTracker.track, ArgosTracker.renewSession. simpl.
  set (s0 := ArgosTracker.set_storage _ s).
  destruct (trackEvent_partial page CUSTOM name props s0 Hinit)
    as (n1 & e1 & Hext1 & Hn1 & _ & Hu1 & Hs1 & _).
  exists n1, e1. split; [exact Hext1|]. split; [done|]. split; [done|].
  rewrite Hu1. unfold s0, StorageManager.getUserId,
    StorageManager.getItem_USER_ID. simpl.
  destruct (truthy_str (StorageManager.sm_userId _)); [done|].
  destruct (StorageManager.localStorage _) as [ls|]; [|done]. simpl.
  by destruct (truthy_str _).
Qed.

Lemma renewSession_stamps_events_witness :
  let s := Sample.tracker BEACON 10 in
  let r := ArgosTracker.renewSession "uuid-2" s in
  let s2 := ArgosTracker.track (Sample.page 1) "buy" None r.2 in
  r.1 = "uuid-2" ∧
  ∃ new e,
    ArgosTracker.extends_by s s2 new [e] ∧
    eventName e = "buy" ∧ sessionId e = Some "uuid-2" ∧
    userId e = (StorageManager.getUserId (ArgosTracker.storage s)).1.
Proof.
  apply (renewSession_stamps_events "uuid-2" "buy" (Sample.page 1) None
           (Sample.tracker BEACON 10)).
  reflexivity.
Defined.

(** X25: the unload listener saves the queue each time it runs. Two runs of
    the listener on a non-empty queue make two beacon [report] calls with
    the same batch and leave the queue in place. With the store present and
    completing every call, and an array as the overflow: when the queue
    serialises, the overflow ends with the queue twice, each copy as
    [JSON.parse] reads it back; when a property of a queued event makes
    [JSON.stringify] throw, the first run writes ['{}'] under the key, the
    save of the second run throws, and ['{}'] is what the store holds. *)
Theorem unload_twice_saves_twice (net1 net2 : Reporter.Network)
    (s : ArgosTracker.t) (existing : list TrackEvent) :
  is_Some (StorageManager.localStorage (ArgosTracker.storage s)) →
  StorageManager.getPendingEvents (ArgosTracker.storage s)
    = PendingArray existing →
  ArgosTracker.eventQueue s ≠ [] →
  let s2 := ArgosTracker.handleBeforeUnload net2
              (ArgosTracker.handleBeforeUnload net1 s) in
  let call := ArgosTracker.mkCall true
                (set_reportMethod BEACON (ArgosTracker.config s))
                (ArgosTracker.eventQueue s) in
  ArgosTracker.reports s2 = ArgosTracker.reports s ++ [call; call] ∧
  StorageManager.getPendingEvents (ArgosTracker.storage s2) =
    match reread (ArgosTracker.eventQueue s) with
    | Some queue' => PendingArray (existing ++ queue' ++ queue')
    | None => EmptyObject
    end ∧
  ArgosTracker.eventQueue s2 = ArgosTracker.eventQueue s.
Proof.
  intros [ls Hls] Hp Hq s2 call. subst s2 call.
  destruct (handleBeforeUnload_state net1 s Hq) as (Hq1 & Hc1 & Hr1 & _ & _).
  destruct (handleBeforeUnload_overflow net1 s ls Hq Hls) as ([ls1 Hls1] & Hp1).
  set (s1 := ArgosTracker.handleBeforeUnload net1 s) in *.
  assert (Hq1' : ArgosTracker.eventQueue s1 ≠ []) by by rewrite Hq1.
  destruct (handleBeforeUnload_state net2 s1 Hq1') as (Hq2 & _ & Hr2 & _ & _).
  destruct (handleBeforeUnload_overflow net2 s1 ls1 Hq1' Hls1) as (_ & Hp2).
  rewrite Hq2, Hr2, Hr1, Hc1, Hq1, <- app_assoc.
  split; [done|]. split; [|done].
  rewrite Hp2, Hp1, Hp, Hq1.
  destruct (reread (ArgosTracker.eventQueue s)); [|done].
  by rewrite <- app_assoc.
Qed.

Lemma unload_twice_saves_twice_witness :
  let s := ArgosTracker.track (Sample.page 1) "a" None
             (Sample.tracker BEACON 10) in
  let s2 := ArgosTracker.handleBeforeUnload Sample.network_up
              (ArgosTracker.handleBeforeUnload Sample.network_up s) in
  let call := ArgosTracker.mkCall true
                (set_reportMethod BEACON (ArgosTracker.config s))
                (ArgosTracker.eventQueue s) in
  ArgosTracker.reports s2 = ArgosTracker.reports s ++ [call; call] ∧
  StorageManager.getPendingEvents (ArgosTracker.storage s2) =
    match reread (ArgosTracker.eventQueue s) with
    | Some queue' => PendingArray ([] ++ queue' ++ queue')
    | None => EmptyObject
    end ∧
  ArgosTracker.eventQueue s2 = ArgosTracker.eventQueue s.
Proof.
  apply (unload_twice_saves_twice Sample.network_up Sample.network_up
           (ArgosTracker.track (Sample.page 1) "a" None
              (Sample.tracker BEACON 10)) []).
  - by vm_compute; eexists.
  - by vm_compute.
  - by vm_compute.
Defined.

(** X26: what the unload listener saved comes back on the next page, for
    every answer the beacon got, also when it was accepted. The listener
    ran on a non-empty queue with the store present and completing every
    call, and [ls'] is the store it left. When the overflow was an array
    and the queue serialises, a tracker constructed on [ls'] starts with the
    old overflow followed by the old queue, as [JSON.parse] reads it back,
    as its queue, with the durable copy removed, no [report] call made and
    the one-second restore timer armed. When the overflow was ['{}'] or a
    property of a queued event makes [JSON.stringify] throw, [ls'] holds
    ['{}'] and the tracker constructed on it starts with an empty queue and
    no timer: nothing comes back. *)
Theorem unload_then_restart (net : Reporter.Network) (s : ArgosTracker.t)
    (ls ls' : StorageManager.LocalStorage) (cfg : TrackerConfig)
    (uuid : string) (page : Page) :
  ArgosTracker.eventQueue s ≠ [] →
  StorageManager.localStorage (ArgosTracker.storage s) = Some ls →
  StorageManager.localStorage
    (ArgosTracker.storage (ArgosTracker.handleBeforeUnload net s)) = Some ls' →
  let s' := ArgosTracker.new cfg uuid (Some ls') page in
  ArgosTracker.reports s' = [] ∧
  (∀ existing queue',
     StorageManager.getPendingEvents (ArgosTracker.storage s)
       = PendingArray existing →
     reread (ArgosTracker.eventQueue s) = Some queue' →
     ArgosTracker.eventQueue s' = existing ++ queue' ∧
     StorageManager.getPendingEvents (ArgosTracker.storage s')
       = PendingArray [] ∧
     ArgosTracker.timers s'
       = [ArgosTracker.mkTimer 1 ArgosTracker.RestoreSend 1000]) ∧
  (StorageManager.getPendingEvents (ArgosTracker.storage s) = EmptyObject ∨
   reread (ArgosTracker.eventQueue s) = None →
     StorageManager.argos_pending_events ls' = Some EmptyObjectText ∧
     ArgosTracker.eventQueue s' = [] ∧
     StorageManager.getPendingEvents (ArgosTracker.storage s') = EmptyObject ∧
     ArgosTracker.timers s' = []).
Proof.
  intros Hq Hls Hls' s'. subst s'.
  destruct (handleBeforeUnload_overflow net s ls Hq Hls) as (_ & Hover).
  rewrite <- found_overflow_storage, Hls' in Hover.
  destruct (new_state cfg uuid (Some ls') page)
    as (Hq' & Hr' & _ & _ & _ & _ & _ & _ & Ht' & _ & Hp').
  rewrite Hover in Hq', Ht', Hp'. rewrite Hq', Hp', Hr', Ht'.
  split; [done|]. split.
  - intros existing queue' -> Hre. rewrite Hre. simpl.
    do 2 (split; [done|]).
    apply length_reread in Hre.
    destruct existing; [|done].
    destruct queue'; [|done].
    by destruct (ArgosTracker.eventQueue s).
  - intros Hbad.
    assert (Hobj : match StorageManager.getPendingEvents (ArgosTracker.storage s) with
                   | PendingArray existing =>
                       match reread (ArgosTracker.eventQueue s) with
                       | Some queue' => PendingArray (existing ++ queue')
                       | None => EmptyObject
                       end
                   | EmptyObject => EmptyObject
                   end = EmptyObject).
    { destruct Hbad as [->| ->]; [done|]. by destruct (StorageManager.getPendingEvents _). }
    rewrite Hobj in Hover |- *. simpl. split; [|done].
    unfold found_overflow in Hover. simpl in Hover.
    destruct (StorageManager.argos_pending_events ls') as [[stored|]|]; done.
Qed.

Lemma unload_then_restart_witness :
  let s := ArgosTracker.track (Sample.page 1) "a" None
             (Sample.tracker BEACON 10) in
  let ls' := default Sample.empty_store
               (StorageManager.localStorage
                  (ArgosTracker.storage
                     (ArgosTracker.handleBeforeUnload Sample.network_up s))) in
  let s' := ArgosTracker.new (Sample.cfg BATCH 10) "uuid-2" (Some ls')
              (Sample.page 5) in
  ArgosTracker.eventQueue s' = ArgosTracker.eventQueue s ∧
  StorageManager.getPendingEvents (ArgosTracker.storage s')
    = PendingArray [] ∧
  ArgosTracker.reports s' = [] ∧
  ArgosTracker.timers s'
    = [ArgosTracker.mkTimer 1 ArgosTracker.RestoreSend 1000].
Proof.
  assert (Hls : ∃ ls, StorageManager.localStorage
                        (ArgosTracker.storage
                           (ArgosTracker.track (Sample.page 1) "a" None
                              (Sample.tracker BEACON 10))) = Some ls)
    by (vm_compute; eauto).
  destruct Hls as [ls Hls].
  destruct (unload_then_restart Sample.network_up
              (ArgosTracker.track (Sample.page 1) "a" None
                 (Sample.tracker BEACON 10))
              ls
              (default Sample.empty_store
                 (StorageManager.localStorage
                    (ArgosTracker.storage
                       (ArgosTracker.handleBeforeUnload Sample.network_up
                          (ArgosTracker.track (Sample.page 1) "a" None
                             (Sample.tracker BEACON 10))))))
              (Sample.cfg BATCH 10) "uuid-2" (Sample.page 5))
    as (Hr & Hgood & _).
  - by vm_compute.
  - exact Hls.
  - by vm_compute.
  - destruct (Hgood [] (ArgosTracker.eventQueue
                          (ArgosTracker.track (Sample.page 1) "a" None
                             (Sample.tracker BEACON 10))))
      as (Hq & Hp & Ht); [by vm_compute|by vm_compute|].
    by repeat split.
Defined.

(** ** utils.ts *)

Section UuidFacts.
Import Utils.

Lemma toString16_hex v : 0 ≤ v < 16 → toString16 v ∈ hex_digits.
Proof.
  intros Hv.
  assert (Hcases : v = 0 ∨ v = 1 ∨ v = 2 ∨ v = 3 ∨ v = 4 ∨ v = 5 ∨ v = 6 ∨
                   v = 7 ∨ v = 8 ∨ v = 9 ∨ v = 10 ∨ v = 11 ∨ v = 12 ∨
                   v = 13 ∨ v = 14 ∨ v = 15) by lia.
  repeat (destruct Hcases as [->|Hcases];
    [by apply (bool_decide_unpack _); vm_compute|]).
  subst v. by apply (bool_decide_unpack _); vm_compute.
Qed.

Lemma toString16_variant r :
  0 ≤ r < 16 →
  toString16 (Z.lor (Z.land r 3) 8) ∈ String.list_ascii_of_string "89ab".
Proof.
  intros Hr.
  assert (Hcases : r = 0 ∨ r = 1 ∨ r = 2 ∨ r = 3 ∨ r = 4 ∨ r = 5 ∨ r = 6 ∨
                   r = 7 ∨ r = 8 ∨ r = 9 ∨ r = 10 ∨ r = 11 ∨ r = 12 ∨
                   r = 13 ∨ r = 14 ∨ r = 15) by lia.
  repeat (destruct Hcases as [->|Hcases];
    [by apply (bool_decide_unpack _); vm_compute|]).
  subst r. by apply (bool_decide_unpack _); vm_compute.
Qed.

Lemma replace_xy_chars rnd i s :
  (∀ k, 0 ≤ rnd k < 16) →
  Forall2 uuid_char (String.list_ascii_of_string s)
    (String.list_ascii_of_string (replace_xy rnd i s)).
Proof.
  intros Hrnd. revert i. induction s as [|c s IH]; intros i; simpl.
  - constructor.
  - destruct (decide (c = "x"%char)) as [Hx|Hx].
    + simpl. constructor; [|apply IH]. unfold uuid_char.
      rewrite decide_True by done. by apply toString16_hex.
    + destruct (decide (c = "y"%char)) as [Hy|Hy]; simpl.
      * constructor; [|apply IH]. unfold uuid_char.
        rewrite decide_False, decide_True by done.
        by apply toString16_variant.
      * constructor; [|apply IH]. unfold uuid_char.
        by rewrite !decide_False.
Qed.

Lemma replace_xy_length rnd i s :
  String.length (replace_xy rnd i s) = String.length s.
Proof.
  revert i. induction s as [|c s IH]; intros i; simpl; [done|].
  destruct (decide (c = "x"%char)); [simpl; by rewrite IH|].
  destruct (decide (c = "y"%char)); simpl; by rewrite IH.
Qed.

End UuidFacts.

(** X27: [generateUUID] returns a string shaped like its template. Whatever
    [Math.random] yields, the result has 36 characters, so it is never the
    empty string; and when every [Math.random() * 16 | 0] is from 0 to 15,
    it agrees with [xxxxxxxx-xxxx-4xxx-yxxx-xxxxxxxxxxxx] place by place: a
    hexadecimal digit for each [x], one of 8, 9, a, b for the [y], and the
    dashes and the 4 where the template has them. *)
Theorem generateUUID_shape (rnd : nat → Z) :
  String.length (Utils.generateUUID rnd) = 36%nat ∧
  Utils.generateUUID rnd ≠ "" ∧
  ((∀ k, 0 ≤ rnd k < 16) →
   Forall2 uuid_char (String.list_ascii_of_string Utils.template)
     (String.list_ascii_of_string (Utils.generateUUID rnd))).
Proof.
  assert (Hlen : String.length (Utils.generateUUID rnd) = 36%nat).
  { unfold Utils.generateUUID. by rewrite replace_xy_length. }
  split; [done|]. split.
  - intros Heq. by rewrite Heq in Hlen.
  - intros Hrnd. by apply replace_xy_chars.
Qed.

Lemma generateUUID_shape_witness :
  Forall2 uuid_char (String.list_ascii_of_string Utils.template)
    (String.list_ascii_of_string (Utils.generateUUID (λ k, Z.of_nat k `mod` 16))).
Proof.
  apply (generateUUID_shape (λ k, Z.of_nat k `mod` 16)).
  intros k. apply Z.mod_pos_bound. lia.
Defined.

Section ClosureFacts.
Import Utils.
Context {A : Type}.

Lemma called_app (acts1 acts2 : list (Action A)) :
  called (acts1 ++ acts2) = called acts1 ++ called acts2.
Proof.
  induction acts1 as [|[now args|id now] acts1 IH]; simpl; by rewrite ?IH.
Qed.

Lemma armed_positive id : 0 < id → ArgosTracker.armed (Some id) = true.
Proof. intros Hid. simpl. rewrite decide_False; [done|lia]. Qed.

Lemma throttle_inv_call wait now args (st : Throttled A) earlier :
  throttle_inv st earlier →
  throttle_inv (throttled_call wait now args st) (earlier ++ [args]).
Proof.
  intros [Hnext Hpend Happ]. unfold throttled_call.
  destruct (decide (wait ≤ now - th_lastTime st)).
  - split; simpl; [done|done|].
    rewrite <- app_assoc, (Permutation_app_comm [args]), app_assoc.
    by apply submseteq_app.
  - destruct Hpend as [[Ht Hid]|(tm & Ht & Hid & Hpos)].
    + rewrite Hid. simpl. split; simpl; [lia| |].
      * right. eexists. split; [by rewrite Ht|]. simpl. split; [done|lia].
      * rewrite Ht in *. simpl in *. rewrite app_nil_r in Happ.
        by apply submseteq_app.
    + rewrite Hid, armed_positive by lia. split; [done| |].
      * right. by exists tm.
      * by apply submseteq_inserts_r.
Qed.

Lemma find_singleton {B} (P : B → Prop) `{∀ x, Decision (P x)} (x : B) r :
  list_find P [x] = Some r → r = (0%nat, x) ∧ P x.
Proof.
  simpl. case_decide; [|done]. by intros [= <-].
Qed.

Lemma throttle_inv_fire id now (st st' : Throttled A) earlier :
  throttle_inv st earlier → throttled_fire id now st = Some st' →
  throttle_inv st' earlier.
Proof.
  intros [Hnext Hpend Happ]. unfold throttled_fire.
  destruct (list_find _ _) as [[j tm]|] eqn:Hfind; [|done]. intros [= <-].
  destruct Hpend as [[Ht Hid]|(tm0 & Ht & Hid & Hpos)].
  - by rewrite Ht in Hfind.
  - rewrite Ht in Hfind. apply find_singleton in Hfind as [[= -> ->] Heq].
    split; simpl; [done| |].
    + left. rewrite Ht, filter_cons_False by (by intros []). done.
    + rewrite Ht in *. rewrite filter_cons_False by (by intros []).
      rewrite filter_nil. simpl in *. by rewrite app_nil_r.
Qed.

Lemma throttle_inv_run wait acts (st st' : Throttled A) earlier :
  throttle_inv st earlier → throttled_run wait acts st = Some st' →
  throttle_inv st' (earlier ++ called acts).
Proof.
  revert st earlier.
  induction acts as [|[now args|id now] acts IH]; intros st earlier Hinv; simpl.
  - intros [= <-]. by rewrite app_nil_r.
  - intros Hrun. rewrite (cons_middle args), app_assoc.
    apply (IH (throttled_call wait now args st)); [|done].
    by apply throttle_inv_call.
  - destruct (throttled_fire id now st) as [st1|] eqn:Hfire; [|done].
    intros Hrun. apply (IH st1); [|done]. by apply (throttle_inv_fire id now st).
Qed.

Lemma debounce_inv_call wait args (st : Debounced A) earlier :
  debounce_inv wait st earlier →
  debounce_inv wait (debounced_call wait args st) (earlier ++ [args]).
Proof.
  intros [Hnext Hpend Happ]. unfold debounced_call.
  assert (Hclear :
    match db_timeout st with
    | Some old =>
        if ArgosTracker.armed (db_timeout st)
        then filter (λ tm, d_id tm ≠ old) (db_timers st)
        else db_timers st
    | None => db_timers st
    end = []).
  { destruct Hpend as [[Ht _]|(tm & Ht & Hid & Hpos & _)].
    - rewrite Ht. destruct (db_timeout st); [|done].
      by destruct (ArgosTracker.armed _).
    - rewrite Hid, armed_positive, Ht by lia.
      by rewrite filter_cons_False by (by intros []). }
  rewrite Hclear. split; simpl; [lia| |].
  - right. eexists. split; [done|]. simpl.
    split; [done|]. split; [lia|]. by rewrite last_snoc.
  - apply sublist_app; [|done].
    etrans; [|exact Happ]. by apply sublist_inserts_r.
Qed.

Lemma debounce_inv_fire wait id (st st' : Debounced A) earlier :
  debounce_inv wait st earlier → debounced_fire id st = Some st' →
  debounce_inv wait st' earlier.
Proof.
  intros [Hnext Hpend Happ]. unfold debounced_fire.
  destruct (list_find _ _) as [[j tm]|] eqn:Hfind; [|done]. intros [= <-].
  destruct Hpend as [[Ht Hid]|(tm0 & Ht & Hid & Hpos & Hlast & Hwait)].
  - by rewrite Ht in Hfind.
  - rewrite Ht in Hfind. apply find_singleton in Hfind as [[= -> ->] Heq].
    split; simpl; [done| |].
    + left. rewrite Ht, filter_cons_False by (by intros []).
      split; [done|]. by rewrite last_snoc.
    + rewrite Ht in *. rewrite filter_cons_False by (by intros []).
      rewrite filter_nil. simpl in *. by rewrite app_nil_r.
Qed.

Lemma debounce_inv_run wait acts (st st' : Debounced A) earlier :
  debounce_inv wait st earlier → debounced_run wait acts st = Some st' →
  debounce_inv wait st' (earlier ++ called acts).
Proof.
  revert st earlier.
  induction acts as [|[now args|id now] acts IH]; intros st earlier Hinv; simpl.
  - intros [= <-]. by rewrite app_nil_r.
  - intros Hrun. rewrite (cons_middle args), app_assoc.
    apply (IH (debounced_call wait args st)); [|done].
    by apply debounce_inv_call.
  - destruct (debounced_fire id st) as [st1|] eqn:Hfire; [|done].
    intros Hrun. apply (IH st1); [|done]. by apply (debounce_inv_fire wait id st).
Qed.

End ClosureFacts.

(** X28: a throttled function never has two timers pending, and it never
    invents or repeats a call. After any sequence of calls and timer
    firings on the function [throttle(func, wait)] returns, at most one
    timer is pending, [timeoutId] holds its handle, and the arguments
    [func] was applied to, together with those of the pending timer, are
    among the arguments of the calls, none more often than it was passed. *)
Theorem throttle_one_timer {A : Type} (wait : Z)
    (acts : list (Utils.Action A)) (st : Utils.Throttled A) :
  Utils.throttled_run wait acts Utils.throttle = Some st →
  (length (Utils.th_timers st) ≤ 1)%nat ∧
  (∀ tm, tm ∈ Utils.th_timers st →
         Utils.th_timeoutId st = Some (Utils.d_id tm)) ∧
  (Utils.th_timers st = [] → Utils.th_timeoutId st = None) ∧
  Utils.th_applied st ++ (Utils.d_args <$> Utils.th_timers st)
    ⊆+ Utils.called acts.
Proof.
  intros Hrun.
  assert (Hinit : throttle_inv (@Utils.throttle A) []).
  { split; simpl; [lia|by left|done]. }
  destruct (throttle_inv_run wait acts _ _ [] Hinit Hrun) as [_ Hpend Happ].
  destruct Hpend as [[Ht Hid]|(tm & Ht & Hid & _)]; rewrite Ht in *.
  - split; [simpl; lia|]. split; [|by split].
    intros tm Htm. by apply elem_of_nil in Htm.
  - split; [simpl; lia|]. split; [|by split].
    intros tm' Htm. by apply list_elem_of_singleton in Htm as ->.
Qed.

Lemma throttle_one_timer_witness :
  let acts := [Utils.Call 1000 "a"; Utils.Call 1010 "b"; Utils.Call 1020 "c";
               Utils.Fire 1 1100] in
  let st := default Utils.throttle
              (Utils.throttled_run 100 acts Utils.throttle) in
  (length (Utils.th_timers st) ≤ 1)%nat ∧
  (∀ tm, tm ∈ Utils.th_timers st →
         Utils.th_timeoutId st = Some (Utils.d_id tm)) ∧
  (Utils.th_timers st = [] → Utils.th_timeoutId st = None) ∧
  Utils.th_applied st ++ (Utils.d_args <$> Utils.th_timers st)
    ⊆+ Utils.called acts.
Proof.
  apply (throttle_one_timer 100
           [Utils.Call 1000 "a"; Utils.Call 1010 "b"; Utils.Call 1020 "c";
            Utils.Fire 1 1100]).
  reflexivity.
Defined.

(** X29: a debounced function applies [func] to the last call of a burst
    and to no call overtaken by a later one. After any sequence of calls
    and timer firings on the function [debounce(func, wait)] returns: at
    most one timer is pending, and it carries the arguments of the last call
    and the delay [wait]; when none is pending, the last application is the
    last call; and the applications, followed by the pending one, are calls
    in the order they were made. *)
Theorem debounce_last_call_wins {A : Type} (wait : Z)
    (acts : list (Utils.Action A)) (st : Utils.Debounced A) :
  Utils.debounced_run wait acts Utils.debounce = Some st →
  (length (Utils.db_timers st) ≤ 1)%nat ∧
  (∀ tm, tm ∈ Utils.db_timers st →
         Utils.db_timeout st = Some (Utils.d_id tm) ∧
         last (Utils.called acts) = Some (Utils.d_args tm) ∧
         Utils.d_delay tm = wait) ∧
  (Utils.db_timers st = [] →
   last (Utils.db_applied st) = last (Utils.called acts)) ∧
  Utils.db_applied st ++ (Utils.d_args <$> Utils.db_timers st)
    `sublist_of` Utils.called acts.
Proof.
  intros Hrun.
  assert (Hinit : debounce_inv wait (@Utils.debounce A) []).
  { split; simpl; [lia|by left|done]. }
  destruct (debounce_inv_run wait acts _ _ [] Hinit Hrun) as [_ Hpend Happ].
  destruct Hpend as [[Ht Hl]|(tm & Ht & Hid & _ & Hl & Hw)]; rewrite Ht in *.
  - split; [simpl; lia|]. split; [|by split].
    intros tm Htm. by apply elem_of_nil in Htm.
  - split; [simpl; lia|]. split; [|by split].
    intros tm' Htm. by apply list_elem_of_singleton in Htm as ->.
Qed.

Lemma debounce_last_call_wins_witness :
  let acts := [Utils.Call 1000 "a"; Utils.Call 1010 "b"; Utils.Fire 2 1110;
               Utils.Call 1500 "c"] in
  let st := default Utils.debounce
              (Utils.debounced_run 100 acts Utils.debounce) in
  (length (Utils.db_timers st) ≤ 1)%nat ∧
  (∀ tm, tm ∈ Utils.db_timers st →
         Utils.db_timeout st = Some (Utils.d_id tm) ∧
         last (Utils.called acts) = Some (Utils.d_args tm) ∧
         Utils.d_delay tm = 100) ∧
  (Utils.db_timers st = [] →
   last (Utils.db_applied st) = last (Utils.called acts)) ∧
  Utils.db_applied st ++ (Utils.d_args <$> Utils.db_timers st)
    `sublist_of` Utils.called acts.
Proof.
  apply (debounce_last_call_wins 100
           [Utils.Call 1000 "a"; Utils.Call 1010 "b"; Utils.Fire 2 1110;
            Utils.Call 1500 "c"]).
  reflexivity.
Defined.
